(** * Pedis: the sorted-set index and the SSTable read path

    A shallow embedding of
    - [src/structures/sset_lsa.hh]  (module [Sset]) and
    - [src/store/table/table.cc]    (module [Table]),
    together with the properties of the specification that are stated
    about them. *)

From Stdlib Require Import ZArith List Bool Lia Floats Ascii.
From stdpp Require Import gmap strings list.

Local Open Scope Z_scope.

(* ================================================================= *)
(** * Part I: [redis::sset_lsa] *)
(* ================================================================= *)

Module Sset.

(** [bytes] keys are byte strings; an [sset_entry*] is an address handed
    out by [current_allocator()]. *)
Abbreviation bytes := string (only parsing).
Abbreviation ptr := nat (only parsing).

(** [struct sset_entry]: the two intrusive hooks are represented by the
    containers of [sset_lsa] below; [_key_hash] is a function of [_key]
    and is not read by any operation of [sset_lsa]. *)
Record sset_entry := mk_entry { _key : bytes; _score : float }.

(** ** [sset_entry::compare] *)

(** [memcmp] over the first [len] bytes, bytes read as [unsigned char].
    The result is the difference of the first pair of bytes that differ. *)
Fixpoint memcmp (d1 d2 : string) (len : nat) : Z :=
  match len, d1, d2 with
  | S n, String a t1, String b t2 =>
      if (nat_of_ascii a =? nat_of_ascii b)%nat then memcmp t1 t2 n
      else Z.of_nat (nat_of_ascii a) - Z.of_nat (nat_of_ascii b)
  | _, _, _ => 0
  end.

(** [compare_impl(d1, s1, d2, s2)]: the strict order of the dictionary. *)
Definition compare_impl (k1 k2 : bytes) : bool :=
  let s1 := String.length k1 in
  let s2 := String.length k2 in
  let len := Nat.min s1 s2 in
  let r := memcmp k1 k2 len in
  if r =? 0 then
    if (s1 <? s2)%nat then true
    else if (s2 <? s1)%nat then false
    else r <? 0
  else r <? 0.

(** ** The container *)

(** [class sset_lsa].  Both containers are intrusive: they link the same
    entry objects.  [objs] is the store of allocated entries, [_dict]
    the [boost::intrusive::set] (one node per key, found by key) and
    [_list] the [boost::intrusive::list] in list order. *)
Record sset_lsa := mk_sset {
  objs : gmap nat sset_entry;
  _dict : gmap string nat;
  _list : list nat
}.

Definition set_objs (o : gmap nat sset_entry) (s : sset_lsa) : sset_lsa :=
  {| objs := o; _dict := _dict s; _list := _list s |}.
Definition set_dict (d : gmap string nat) (s : sset_lsa) : sset_lsa :=
  {| objs := objs s; _dict := d; _list := _list s |}.
Definition set_list (l : list nat) (s : sset_lsa) : sset_lsa :=
  {| objs := objs s; _dict := _dict s; _list := l |}.

(** [sset_lsa()] *)
Definition sset_empty : sset_lsa := {| objs := ∅; _dict := ∅; _list := [] |}.

(** Reading through an entry pointer.  Reading through a pointer that
    is not allocated is undefined in the source; here it yields a
    default entry. *)
Definition entry_of (s : sset_lsa) (p : ptr) : sset_entry :=
  default {| _key := ""; _score := 0%float |} (objs s !! p).
Definition key_of (s : sset_lsa) (p : ptr) : bytes := _key (entry_of s p).
Definition score_of (s : sset_lsa) (p : ptr) : float := _score (entry_of s p).

(** [current_allocator().construct<sset_entry>(key, score)] *)
Definition construct (key : bytes) (score : float) (s : sset_lsa) : ptr * sset_lsa :=
  let p := fresh (dom (objs s)) in
  (p, set_objs (<[p := {| _key := key; _score := score |}]> (objs s)) s).

(** [current_allocator().destroy<sset_entry>(entry)] and
    [current_deleter<sset_entry>()] *)
Definition destroy (p : ptr) (s : sset_lsa) : sset_lsa :=
  set_objs (delete p (objs s)) s.

(** [sset_entry::update_score] *)
Definition update_score (p : ptr) (nscore : float) (s : sset_lsa) : sset_lsa :=
  set_objs (alter (fun e => {| _key := _key e; _score := nscore |}) p (objs s)) s.

(** [a > b] on [double]. *)
Definition gtb (a b : float) : bool := (b <? a)%float.

(** [_list.erase(lit)]: unlink the node [p]. *)
Definition list_erase (p : ptr) (l : list nat) : list nat :=
  List.filter (fun q => negb (q =? p)%nat) l.

(** [_dict.erase(dit)]: unlink the node [p]. *)
Definition dict_erase (p : ptr) (d : gmap string nat) : gmap string nat :=
  filter (fun kv => kv.2 ≠ p) d.

(** [_dict.insert( *e )]: refused when a node with an equivalent key is
    linked already. *)
Definition dict_insert (e : ptr) (s : sset_lsa) : bool * sset_lsa :=
  match _dict s !! key_of s e with
  | Some _ => (false, s)
  | None => (true, set_dict (<[key_of s e := e]> (_dict s)) s)
  end.

(** ** [insert_ordered] *)

(** The [for] loop of [insert_ordered]: [inl l'] when the loop inserted
    [e] before a node and returned, [inr trace] when [it] reached
    [_list.end()]. *)
Fixpoint insert_ordered_scan (sc : nat -> float) (e : ptr) (trace : ptr)
    (l : list nat) : list nat + nat :=
  match l with
  | [] => inr trace
  | it :: tl =>
      if gtb (sc it) (sc e) then inl (e :: it :: tl)
      else match insert_ordered_scan sc e it tl with
           | inl l' => inl (it :: l')
           | inr t => inr t
           end
  end.

(** [insert_ordered(e)].  The trailing [return false] of the source is
    behind a loop that only ends with [it == _list.end()], so no path of
    this definition reaches it. *)
Definition insert_ordered (e : ptr) (s : sset_lsa) : bool * sset_lsa :=
  let sc := score_of s in
  let score := sc e in
  match _list s with
  | [] => (true, set_list [e] s)
  | it :: _ =>
      if (score <? sc it)%float then (true, set_list (e :: _list s) s)
      else
        match insert_ordered_scan sc e it (_list s) with
        | inl l' => (true, set_list l' s)
        | inr trace =>
            if gtb (sc trace) score
            then (true, set_list (e :: _list s) s)
            else (true, set_list (_list s ++ [e]) s)
        end
  end.

(** [update(e)] *)
Definition update (e : ptr) (s : sset_lsa) : bool * sset_lsa :=
  insert_ordered e (set_list (list_erase e (_list s)) s).

(** [insert(sset_entry* e)] *)
Definition insert (e : ptr) (s : sset_lsa) : bool * sset_lsa :=
  let '(ok, s1) := insert_ordered e s in
  if ok then dict_insert e s1 else (false, s1).

(** The step every caller takes to add a member: construct an entry and
    [insert] it (lines 173-174, 215-216, 235-236). *)
Definition insert_new (key : bytes) (score : float) (s : sset_lsa) : bool * sset_lsa :=
  let '(e, s1) := construct key score s in insert e s1.

(** ** Bulk mutations.  A [std::unordered_map<bytes, double>] is given
    by its members in iteration order. *)

(** [insert_if_not_exists(members)] *)
Fixpoint insert_if_not_exists (members : list (string * float)) (s : sset_lsa)
    : nat * sset_lsa :=
  match members with
  | [] => (O, s)
  | (key, score) :: rest =>
      match _dict s !! key with
      | None =>
          let '(entry, s1) := construct key score s in
          let '(ok, s2) := insert entry s1 in
          if ok then
            let '(n, s3) := insert_if_not_exists rest s2 in (S n, s3)
          else insert_if_not_exists rest (destroy entry s2)
      | Some _ => insert_if_not_exists rest s
      end
  end.

(** [update_if_only_exists(members)] *)
Fixpoint update_if_only_exists (members : list (string * float)) (s : sset_lsa)
    : nat * sset_lsa :=
  match members with
  | [] => (O, s)
  | (key, score) :: rest =>
      match _dict s !! key with
      | Some it =>
          let s1 := set_list (list_erase it (_list s)) s in
          let s2 := update_score it score s1 in
          let '(ok, s3) := insert_ordered it s2 in
          let '(n, s4) := update_if_only_exists rest s3 in
          (if ok then S n else n, s4)
      | None => update_if_only_exists rest s
      end
  end.

(** [insert_or_update(bytes& key, double delta)] *)
Definition insert_or_update (key : bytes) (delta : float) (s : sset_lsa)
    : float * sset_lsa :=
  match _dict s !! key with
  | Some it =>
      let result := (delta + score_of s it)%float in
      let s1 := update_score it result s in
      (result, snd (update it s1))
  | None =>
      let result := delta in
      let '(entry, s1) := construct key result s in
      (result, snd (insert entry s1))
  end.

(** [insert_or_update(std::unordered_map<bytes, double>& members)] *)
Fixpoint insert_or_update_members (members : list (string * float)) (s : sset_lsa)
    : nat * sset_lsa :=
  match members with
  | [] => (O, s)
  | (key, score) :: rest =>
      let '(ok, s2) :=
        match _dict s !! key with
        | Some it => update it (update_score it score s)
        | None => let '(entry, s1) := construct key score s in insert entry s1
        end in
      let '(n, s3) := insert_or_update_members rest s2 in
      (if ok then S n else n, s3)
  end.

(** [update_score(const bytes& key, double delta)] *)
Definition update_score_key (key : bytes) (delta : float) (s : sset_lsa)
    : bool * sset_lsa :=
  match _dict s !! key with
  | Some it =>
      insert_ordered it
        (update_score it delta (set_list (list_erase it (_list s)) s))
  | None => (false, s)
  end.

(** [erase(std::vector<const sset_entry*>& entries)] *)
Fixpoint erase_entries_loop (entries : list nat) (s : sset_lsa) : sset_lsa :=
  match entries with
  | [] => s
  | lit :: rest =>
      let s1 := set_dict (dict_erase lit (_dict s)) s in
      let s2 := destroy lit (set_list (list_erase lit (_list s1)) s1) in
      erase_entries_loop rest s2
  end.

Definition erase_entries (entries : list nat) (s : sset_lsa) : nat * sset_lsa :=
  (length entries, erase_entries_loop entries s).

(** [erase(std::vector<bytes>& keys)] *)
Fixpoint erase_keys (keys : list string) (s : sset_lsa) : nat * sset_lsa :=
  match keys with
  | [] => (O, s)
  | key :: rest =>
      match _dict s !! key with
      | Some dit =>
          let s1 := set_dict (dict_erase dit (_dict s)) s in
          let s2 := destroy dit (set_list (list_erase dit (_list s1)) s1) in
          let '(n, s3) := erase_keys rest s2 in (S n, s3)
      | None => erase_keys rest s
      end
  end.

(** ** Queries *)

(** [size()] and [empty()] *)
Definition size (s : sset_lsa) : nat := length (_list s).
Definition empty (s : sset_lsa) : bool :=
  match _list s with [] => true | _ => false end.

(** [score(key)] *)
Definition score (key : bytes) (s : sset_lsa) : option float :=
  match _dict s !! key with
  | Some it => Some (score_of s it)
  | None => None
  end.

(** The counting loop of [rank(key)]. *)
Fixpoint rank_loop (lit : ptr) (l : list nat) (rank : nat) : nat :=
  match l with
  | [] => rank
  | i :: tl => if (i =? lit)%nat then rank else rank_loop lit tl (S rank)
  end.

(** [rank(key)] *)
Definition rank (key : bytes) (s : sset_lsa) : option nat :=
  match _dict s !! key with
  | Some it => Some (rank_loop it (_list s) O)
  | None => None
  end.

(** [rank_out_of_range(begin, end)] *)
Definition rank_out_of_range (s : sset_lsa) (begin end_ : Z) : bool :=
  (begin >? Z.of_nat (length (_list s))) || (end_ <=? 0).

(** [while (end < 0) { end += size; }], at most [fuel] rounds. *)
Fixpoint end_wrap (fuel : nat) (end_ size : Z) : Z :=
  match fuel with
  | O => end_
  | S f => if end_ <? 0 then end_wrap f (end_ + size) size else end_
  end.

(** The [for] loop of [fetch_by_rank]. *)
Fixpoint fetch_by_rank_loop (s : sset_lsa) (begin end_ rank : Z) (l : list nat)
    : list (string * float) :=
  match l with
  | [] => []
  | it :: tl =>
      if rank <? begin then fetch_by_rank_loop s begin end_ (rank + 1) tl
      else if rank >? end_ then []
      else (key_of s it, score_of s it)
             :: fetch_by_rank_loop s begin end_ (rank + 1) tl
  end.

(** [fetch_by_rank(begin, end, entries)], the overload that emits
    [(key, score)] pairs; the result is what is appended to [entries].
    [long] is read as [Z]: no addition below can leave the range of
    [long] when the arguments are in it.  The list is not empty where
    the [while] loop runs, so [-end] rounds are enough for it. *)
Definition fetch_by_rank (begin end_ : Z) (s : sset_lsa) : list (string * float) :=
  if empty s then []
  else
    let size := Z.of_nat (length (_list s)) in
    let begin := if begin <? 0 then begin + size else begin in
    let end_ := end_wrap (Z.to_nat (- end_)) end_ size in
    let begin := if begin <? 0 then 0 else begin in
    if begin >? end_ then []
    else
      let begin := if begin >? size then size else begin in
      if rank_out_of_range s begin end_ then []
      else fetch_by_rank_loop s begin end_ 0 (_list s).


(** ** Vocabulary of the properties (specification, section 3) *)

(** The sequence [[e.score for e in list]]. *)
Definition list_scores (s : sset_lsa) : list float := map (score_of s) (_list s).

(** A sequence of scores is non-decreasing. *)
Fixpoint non_decreasing (l : list float) : bool :=
  match l with
  | a :: tl =>
      match tl with
      | b :: _ => (a <=? b)%float && non_decreasing tl
      | [] => true
      end
  | [] => true
  end.

(** A score that is a number. *)
Definition not_nan (x : float) : Prop := (x =? x)%float = true.

(** Every node of the dictionary is an allocated entry. *)
Definition dict_live (s : sset_lsa) : Prop :=
  forall k p, _dict s !! k = Some p -> is_Some (objs s !! p).

(** [dict.size() == list.size()] *)
Definition sizes_agree (s : sset_lsa) : Prop :=
  stdpp.base.size (_dict s) = length (_list s).

(** The members whose key the dictionary holds. *)
Definition present_members (members : list (string * float)) (s : sset_lsa)
    : list (string * float) :=
  List.filter (fun m => bool_decide (is_Some (_dict s !! m.1))) members.

(** The states of a set: those that the operations, called with
    arguments of their types, make of the empty set. *)
Inductive reachable : sset_lsa -> Prop :=
| reach_empty : reachable sset_empty
| reach_insert_new key sc s :
    reachable s -> reachable (snd (insert_new key sc s))
| reach_insert_if_not_exists members s :
    reachable s -> reachable (snd (insert_if_not_exists members s))
| reach_update_if_only_exists members s :
    reachable s -> reachable (snd (update_if_only_exists members s))
| reach_insert_or_update key delta s :
    reachable s -> reachable (snd (insert_or_update key delta s))
| reach_insert_or_update_members members s :
    reachable s -> reachable (snd (insert_or_update_members members s))
| reach_update_score_key key delta s :
    reachable s -> reachable (snd (update_score_key key delta s))
| reach_erase_keys keys s :
    reachable s -> reachable (snd (erase_keys keys s))
| reach_erase_entries entries s :
    reachable s -> reachable (snd (erase_entries entries s)).

(** ** Sample states *)

(** The set [{("x", 1.0)}]. *)
Definition x_state : sset_lsa := snd (insert_new "x" 1.0%float sset_empty).

(** The set [{("x", 1.0)}] and a second entry for ["x"], constructed
    and not yet inserted; its address is 1. *)
Definition dup_state : sset_lsa := snd (construct "x" 2.0%float x_state).

(** The set [{("a",1), ("b",2), ("c",2), ("d",3)}], in that list order,
    and an entry [("e", 2)], constructed and not yet inserted; its
    address is 4. *)
Definition scores_state : sset_lsa :=
  snd (construct "e" 2.0%float
        (snd (insert_new "d" 3.0%float
          (snd (insert_new "c" 2.0%float
            (snd (insert_new "b" 2.0%float
              (snd (insert_new "a" 1.0%float sset_empty))))))))).

(** The set [{("a",1), ("b",2), ("c",3)}]. *)
Definition abc_state : sset_lsa :=
  snd (insert_new "c" 3.0%float
    (snd (insert_new "b" 2.0%float
      (snd (insert_new "a" 1.0%float sset_empty))))).

(* ----------------------------------------------------------------- *)
(** ** The other operations of [sset_lsa] *)
(* ----------------------------------------------------------------- *)

(** [flush_all()]: [_list.clear_and_dispose(current_deleter<sset_entry>())]
    unlinks every node of the list and destroys its entry.  [_dict] is
    not named. *)
Definition flush_all (s : sset_lsa) : sset_lsa :=
  set_list [] (fold_left (fun s1 p => destroy p s1) (_list s) s).

(** The [for] loop of the overload of [fetch_by_rank] that emits entry
    pointers. *)
Fixpoint fetch_by_rank_entries_loop (begin end_ rank : Z) (l : list nat)
    : list nat :=
  match l with
  | [] => []
  | it :: tl =>
      if rank <? begin then fetch_by_rank_entries_loop begin end_ (rank + 1) tl
      else if rank >? end_ then []
      else it :: fetch_by_rank_entries_loop begin end_ (rank + 1) tl
  end.

(** [fetch_by_rank(begin, end, std::vector<const sset_entry*>& entries)]:
    the pointers appended to [entries]. *)
Definition fetch_by_rank_entries (begin end_ : Z) (s : sset_lsa) : list nat :=
  if empty s then []
  else
    let size := Z.of_nat (length (_list s)) in
    let begin := if begin <? 0 then begin + size else begin in
    let end_ := end_wrap (Z.to_nat (- end_)) end_ size in
    let begin := if begin <? 0 then 0 else begin in
    if begin >? end_ then []
    else
      let begin := if begin >? size then size else begin in
      if rank_out_of_range s begin end_ then []
      else fetch_by_rank_entries_loop begin end_ 0 (_list s).

(** [score_out_of_range(min, max)].  It reads the last and the first
    node of the list; on an empty list that is undefined: [None]. *)
Definition score_out_of_range (s : sset_lsa) (min max : float) : option bool :=
  match _list s with
  | [] => None
  | first :: _ =>
      Some (gtb min (score_of s (List.last (_list s) first))
            || (max <? score_of s first)%float)
  end.

(** The [for] loop of [fetch_by_score]; [entries] is the output vector,
    whose size the loop compares with [limit]. *)
Fixpoint fetch_by_score_loop (s : sset_lsa) (min max : float) (limit : nat)
    (l : list nat) (entries : list nat) : list nat :=
  match l with
  | [] => entries
  | it :: tl =>
      let score := score_of s it in
      if (score <? min)%float then fetch_by_score_loop s min max limit tl entries
      else if gtb score max then entries
      else
        let entries := entries ++ [it] in
        if (limit <=? length entries)%nat then entries
        else fetch_by_score_loop s min max limit tl entries
  end.

(** [fetch_by_score(min, max, entries, limit)]: the output vector
    [entries] as the call leaves it.  The list is not empty where
    [score_out_of_range] is called. *)
Definition fetch_by_score (min max : float) (entries : list nat) (limit : nat)
    (s : sset_lsa) : list nat :=
  if empty s then entries
  else
    match score_out_of_range s min max with
    | None => entries
    | Some true => entries
    | Some false =>
        let limit := if (limit =? 0)%nat then length (_list s) else limit in
        fetch_by_score_loop s min max limit (_list s) entries
    end.

(** [fetch_by_key(keys, entries)]: the pointers appended to [entries]. *)
Fixpoint fetch_by_key (keys : list string) (s : sset_lsa) : list nat :=
  match keys with
  | [] => []
  | key :: rest =>
      match _dict s !! key with
      | Some it => it :: fetch_by_key rest s
      | None => fetch_by_key rest s
      end
  end.

(** The [for] loop of [count_by_score]. *)
Fixpoint count_by_score_loop (s : sset_lsa) (min max : float) (l : list nat)
    (count : nat) : nat :=
  match l with
  | [] => count
  | it :: tl =>
      let score := score_of s it in
      if (score <? min)%float then count_by_score_loop s min max tl count
      else if gtb score max then count
      else count_by_score_loop s min max tl (S count)
  end.

(** [count_by_score(min, max)].  The guard asks [_dict.empty()], and
    [score_out_of_range] then reads the list: [None] when it is empty. *)
Definition count_by_score (min max : float) (s : sset_lsa) : option nat :=
  if bool_decide (stdpp.base.size (_dict s) = O) then Some O
  else
    match score_out_of_range s min max with
    | None => None
    | Some true => Some O
    | Some false => Some (count_by_score_loop s min max (_list s) O)
    end.

(** [with_entry_run(k, func)]: [func] is given the entry of [k], or the
    null pointer. *)
Definition with_entry_run {A : Type} (k : bytes) (func : option ptr -> A)
    (s : sset_lsa) : A :=
  match _dict s !! k with
  | Some it => func (Some it)
  | None => func None
  end.

(** What [_dict.erase(it)] returns for the node of [key]: the node after
    it in the order of the dictionary, that is, the node of the least
    key above [key]; [None] is [_dict.end()]. *)
Definition dict_after (key : bytes) (d : gmap string nat) : option (string * nat) :=
  fold_right
    (fun kp acc =>
       if compare_impl key kp.1 then
         match acc with
         | Some best => if compare_impl kp.1 best.1 then Some kp else acc
         | None => Some kp
         end
       else acc)
    None (map_to_list d).

(** [erase(const bytes& key)].  [removed] is the iterator that
    [_dict.erase] returns.  For a key that is not found the call is
    [_dict.erase(_dict.end())], which is undefined: [None]. *)
Definition erase_key (key : bytes) (s : sset_lsa) : option sset_lsa :=
  match _dict s !! key with
  | None => None
  | Some it =>
      let removed := dict_after key (_dict s) in
      let s1 := set_dict (dict_erase it (_dict s)) s in
      match removed with
      | None => Some s1
      | Some (_, p) => Some (destroy p (set_list (list_erase p (_list s1)) s1))
      end
  end.

(** ** Vocabulary of the further properties *)

(** Every node of the dictionary is an allocated entry, found by the
    key that it holds. *)
Definition dict_keyed (s : sset_lsa) : Prop :=
  forall k p, _dict s !! k = Some p ->
    exists e, objs s !! p = Some e /\ _key e = k.

(** Both containers link the same entries, each one once. *)
Record linked (s : sset_lsa) : Prop := mk_linked {
  linked_keyed : dict_keyed s;
  linked_same : forall p, p ∈ _list s <-> exists k, _dict s !! k = Some p;
  linked_nodup : NoDup (_list s)
}.

(** The score list is in non-decreasing order and holds numbers. *)
Definition sorted (s : sset_lsa) : Prop :=
  non_decreasing (list_scores s) = true /\ Forall not_nan (list_scores s).

(** The test of the loops of [fetch_by_score] and [count_by_score]:
    neither [score < min] nor [score > max]. *)
Definition score_in_range (s : sset_lsa) (min max : float) (p : ptr) : bool :=
  negb (score_of s p <? min)%float && negb (gtb (score_of s p) max).

(** The mutations that look the key up before they link an entry. *)
Inductive mutation :=
| m_insert_if_not_exists (members : list (string * float))
| m_update_if_only_exists (members : list (string * float))
| m_insert_or_update (key : bytes) (delta : float)
| m_insert_or_update_members (members : list (string * float))
| m_update_score (key : bytes) (delta : float)
| m_erase_keys (keys : list string).

Definition mutate (m : mutation) (s : sset_lsa) : sset_lsa :=
  match m with
  | m_insert_if_not_exists members => snd (insert_if_not_exists members s)
  | m_update_if_only_exists members => snd (update_if_only_exists members s)
  | m_insert_or_update key delta => snd (insert_or_update key delta s)
  | m_insert_or_update_members members => snd (insert_or_update_members members s)
  | m_update_score key delta => snd (update_score_key key delta s)
  | m_erase_keys keys => snd (erase_keys keys s)
  end.

(** The scores that a mutation writes are numbers. *)
Definition writes_numbers (m : mutation) (s : sset_lsa) : Prop :=
  match m with
  | m_insert_if_not_exists members
  | m_update_if_only_exists members
  | m_insert_or_update_members members => Forall (fun kv => not_nan kv.2) members
  | m_insert_or_update key delta => not_nan (fst (insert_or_update key delta s))
  | m_update_score key delta => not_nan delta
  | m_erase_keys _ => True
  end.

(** [linked] and [sorted], as tests that can be run on a state. *)
Definition linkedb (s : sset_lsa) : bool :=
  forallb (fun kp : string * nat =>
             match objs s !! kp.2 with
             | Some e => bool_decide (_key e = kp.1)
             | None => false
             end && bool_decide (kp.2 ∈ _list s))
          (map_to_list (_dict s))
  && forallb (fun p => bool_decide (_dict s !! key_of s p = Some p)) (_list s)
  && bool_decide (NoDup (_list s)).

Definition sortedb (s : sset_lsa) : bool :=
  non_decreasing (list_scores s)
  && forallb (fun x => (x =? x)%float) (list_scores s).

(** The step of every path that changes the score of a linked entry:
    unlink the node from the list, set the score, link the node again
    in order (lines 194-197, 211-212, 229-230 and 354-357). *)
Definition relink (it : ptr) (score : float) (s : sset_lsa) : sset_lsa :=
  snd (insert_ordered it
         (update_score it score (set_list (list_erase it (_list s)) s))).

(** The step of the erasing loops: unlink the node from both containers
    and destroy the entry (lines 367-368 and 381-382). *)
Definition erase_node (p : ptr) (s : sset_lsa) : sset_lsa :=
  destroy p (set_list (list_erase p (_list s))
               (set_dict (dict_erase p (_dict s)) s)).

End Sset.

(* ================================================================= *)
(** * Part II: the SSTable read path, [store/table/table.cc] *)
(* ================================================================= *)

Module Table.

(** A byte is a [Z] in [0, 256); [bytes] and [bytes_view] are lists of
    bytes, [list Z]. *)

Definition slice (d : list Z) (off len : Z) : list Z :=
  firstn (Z.to_nat len) (skipn (Z.to_nat off) d).

Definition byte_at (d : list Z) (i : Z) : Z := nth (Z.to_nat i) d 0.

Definition wrap32 (x : Z) : Z := x mod 2 ^ 32.

(** ** Collaborators that are not part of these files *)

(** Modelled from the spec: the comparator ([store/comparator], not in
    the repository's files here): "pure total order on byte sequences;
    cmp(a,b) in {<0, 0, >0}", bytewise by default. *)
Fixpoint compare (a b : list Z) : Z :=
  match a, b with
  | [], [] => 0
  | [], _ :: _ => -1
  | _ :: _, [] => 1
  | x :: a', y :: b' =>
      if x <? y then -1 else if y <? x then 1 else compare a' b'
  end.

(** Modelled from the spec: [decode_fixed32] of [store/util/coding.hh]
    (not in the repository's files here): a 32-bit little-endian
    integer. *)
Definition decode_fixed32 (d : list Z) (off : Z) : Z :=
  byte_at d off + byte_at d (off + 1) * 2 ^ 8
  + byte_at d (off + 2) * 2 ^ 16 + byte_at d (off + 3) * 2 ^ 24.

(** Modelled from the spec: a varint32 of [store/util/coding.hh] (not in
    the repository's files here), seven bits a byte, low bits first, the
    high bit of a byte saying that another byte follows; at most five
    bytes, none at or past [limit].  The result is the value and the
    offset after it. *)
Fixpoint get_varint32 (fuel : nat) (d : list Z) (p limit shift result : Z)
    : option (Z * Z) :=
  match fuel with
  | O => None
  | S f =>
      if p <? limit then
        let byte := byte_at d p in
        if Z.testbit byte 7 then
          get_varint32 f d (p + 1) limit (shift + 7)
            (Z.lor result (Z.shiftl (Z.land byte 127) shift))
        else Some (wrap32 (Z.lor result (Z.shiftl byte shift)), p + 1)
      else None
  end.

(** Modelled from the spec: [decode_entry(p, limit, &shared, &non_shared,
    &value_length)] of [store/table/block.hh] (not in the repository's
    files here), for the entry layout "varint32 shared, varint32
    non_shared, varint32 value_length, non_shared bytes, value_length
    bytes".  The result is [(shared, non_shared, value_length, key_ptr)];
    [None] is the null pointer: a varint is cut short or the key and
    value do not fit before [limit]. *)
Definition decode_entry (d : list Z) (p limit : Z) : option (Z * Z * Z * Z) :=
  match get_varint32 5 d p limit 0 0 with
  | None => None
  | Some (shared, p1) =>
      match get_varint32 5 d p1 limit 0 0 with
      | None => None
      | Some (non_shared, p2) =>
          match get_varint32 5 d p2 limit 0 0 with
          | None => None
          | Some (value_length, p3) =>
              if limit - p3 <? non_shared + value_length then None
              else Some (shared, non_shared, value_length, p3)
          end
      end
  end.

(** Modelled from the spec: [class block] of [store/table/block.hh]
    (not in the repository's files here): the block body with its
    trailer stripped; "a sequence of entries, followed by an array of
    32-bit little-endian restart offsets, followed by a 32-bit count of
    restarts". *)
Record block := mk_block { data : list Z }.

Definition block_size (b : block) : Z := Z.of_nat (length (data b)).
Definition num_restarts (b : block) : Z :=
  decode_fixed32 (data b) (block_size b - 4).
(** Where the restart array starts: the end of the entries. *)
Definition restart_offset (b : block) : Z :=
  block_size b - (1 + num_restarts b) * 4.

(* ----------------------------------------------------------------- *)
(** ** [class block_reader] *)
(* ----------------------------------------------------------------- *)

Module BlockReader.

(** The members of [block_reader] that its methods read.  [_data_view]
    is the whole of [_block]; a [bytes_view] into it is its offset and
    its size; [_current_key] is [_current.key()].  The methods name the
    start of the restart array [restarts_] (and [restarts_offset]), which
    the class does not declare; the member it declares,
    [_restarts_offset], is set to 0 by the constructor and no method
    reads it. *)
Record block_reader := mk_reader {
  _block : block;
  restarts_ : Z;
  _num_restarts : Z;
  _restart_index : Z;
  _current_offset : Z;
  _current_key : list Z;
  _value_view : Z * Z;
  _eof : bool
}.

(** The constructor.  [restarts_] is what [block] provides, the start
    of its restart array, as [_num_restarts] is [b->num_restarts()] and
    [data_] is [b->data()]. *)
Definition make_block_reader (b : block) : block_reader :=
  {| _block := b;
     restarts_ := restart_offset b;
     _num_restarts := num_restarts b;
     _restart_index := 0;
     _current_offset := 0;
     _current_key := [];
     _value_view := (0, 0);
     _eof := false |}.

Definition set_position (r : block_reader) (ri co : Z) : block_reader :=
  {| _block := _block r;
     restarts_ := restarts_ r;
     _num_restarts := _num_restarts r;
     _restart_index := ri;
     _current_offset := co;
     _current_key := _current_key r;
     _value_view := _value_view r;
     _eof := _eof r |}.

Definition set_entry (r : block_reader) (key : list Z) (vv : Z * Z) : block_reader :=
  {| _block := _block r;
     restarts_ := restarts_ r;
     _num_restarts := _num_restarts r;
     _restart_index := _restart_index r;
     _current_offset := _current_offset r;
     _current_key := key;
     _value_view := vv;
     _eof := _eof r |}.

Definition set_eof (r : block_reader) (e : bool) : block_reader :=
  {| _block := _block r;
     restarts_ := restarts_ r;
     _num_restarts := _num_restarts r;
     _restart_index := _restart_index r;
     _current_offset := _current_offset r;
     _current_key := _current_key r;
     _value_view := _value_view r;
     _eof := e |}.

(** [next_entry_offset()] *)
Definition next_entry_offset (r : block_reader) : Z :=
  wrap32 (fst (_value_view r) + snd (_value_view r)).

(** [get_restart_point(index)].  The [assert] is a debugging aid and
    reads nothing. *)
Definition get_restart_point (r : block_reader) (index : Z) : Z :=
  decode_fixed32 (data (_block r)) (restarts_ r + index * 4).

(** [seek_to_restart_point(index)] *)
Definition seek_to_restart_point (index : Z) (r : block_reader) : block_reader :=
  set_entry (set_position r index (_current_offset r)) []
    (get_restart_point r index, 0).

(** The [while] loop that ends [parse_next_key], at most [fuel] rounds;
    each round adds one to [restart_index_], which stays below
    [num_restarts_], so [num_restarts_] rounds end it. *)
Fixpoint advance_restart_index (fuel : nat) (r : block_reader) : block_reader :=
  match fuel with
  | O => r
  | S f =>
      if (wrap32 (_restart_index r + 1) <? _num_restarts r)
         && (get_restart_point r (wrap32 (_restart_index r + 1)) <? _current_offset r)
      then advance_restart_index f
             (set_position r (wrap32 (_restart_index r + 1)) (_current_offset r))
      else r
  end.

(** [parse_next_key()] *)
Definition parse_next_key (r : block_reader) : bool * block_reader :=
  let r1 := set_position r (_restart_index r) (next_entry_offset r) in
  let p := _current_offset r1 in
  let limit := restarts_ r1 in
  if p >=? limit then
    (false, set_position r1 (_num_restarts r1) (restarts_ r1))
  else
    match decode_entry (data (_block r1)) p limit with
    | None => (false, r1)
    | Some (shared, non_shared, value_length, kp) =>
        if Z.of_nat (length (_current_key r1)) <? shared then (false, r1)
        else
          let key := firstn (Z.to_nat shared) (_current_key r1)
                     ++ slice (data (_block r1)) kp non_shared in
          let r2 := set_entry r1 key (kp + non_shared, value_length) in
          (true, advance_restart_index (Z.to_nat (_num_restarts r2)) r2)
    end.

(** [seek_to_first()] *)
Definition seek_to_first (r : block_reader) : block_reader :=
  snd (parse_next_key (seek_to_restart_point 0 r)).

(** The loop of [seek_to_last]:
    [while (parse_next_key() && next_entry_offset() < restarts_) {}]. *)
Fixpoint seek_to_last_loop (fuel : nat) (r : block_reader) : option block_reader :=
  match fuel with
  | O => None
  | S f =>
      let '(ok, r1) := parse_next_key r in
      if ok && (next_entry_offset r1 <? restarts_ r1)
      then seek_to_last_loop f r1
      else Some r1
  end.

(** [seek_to_last()]; [None] when the bound on the loop, one round per
    byte of the block, is used up. *)
Definition seek_to_last (r : block_reader) : option block_reader :=
  seek_to_last_loop (S (length (data (_block r))))
    (seek_to_restart_point (wrap32 (_num_restarts r - 1)) r).

(** How the binary search over the restart points ends. *)
Inductive search_result :=
| found (left : Z)      (* the loop ended with [left == right] *)
| corrupt.              (* [_eof = true; return] *)

(** The [while (left < right)] loop of [seek]; [None] when [fuel] rounds
    did not end it. *)
Fixpoint seek_restart_loop (fuel : nat) (r : block_reader) (target : list Z)
    (left right : Z) : option search_result :=
  if left <? right then
    match fuel with
    | O => None
    | S f =>
        let mid := wrap32 (left + right + 1) / 2 in
        let region_offset := get_restart_point r mid in
        match decode_entry (data (_block r)) region_offset (restarts_ r) with
        | None => Some corrupt
        | Some (shared, non_shared, value_length, key_ptr) =>
            if negb (shared =? 0) then Some corrupt
            else
              let mid_key := slice (data (_block r)) key_ptr non_shared in
              if compare mid_key target <? 0
              then seek_restart_loop f r target mid right
              else seek_restart_loop f r target left (wrap32 (mid - 1))
        end
    end
  else Some (found left).

(** The binary search of [seek]: the restart point the linear search
    starts from. *)
Definition seek_restart (target : list Z) (r : block_reader) : option search_result :=
  let left := 0 in
  let right := wrap32 (_num_restarts r - 1) in
  seek_restart_loop (S (Z.to_nat (right - left))) r target left right.

(** The [while (true)] loop of [seek]. *)
Fixpoint seek_scan (fuel : nat) (target : list Z) (r : block_reader)
    : option block_reader :=
  match fuel with
  | O => None
  | S f =>
      let '(ok, r1) := parse_next_key r in
      if negb ok then Some r1
      else if compare (_current_key r1) target >=? 0 then Some r1
      else seek_scan f target r1
  end.

(** [seek(key)]; [None] when a bound on one of its loops is used up. *)
Definition seek (target : list Z) (r : block_reader) : option block_reader :=
  match seek_restart target r with
  | None => None
  | Some corrupt => Some (set_eof r true)
  | Some (found left_) =>
      seek_scan (S (length (data (_block r)))) target
        (seek_to_restart_point left_ r)
  end.

(** [next()] *)
Definition next (r : block_reader) : block_reader := snd (parse_next_key r).

(** [current()]: the key, and the value that [_value_view] views. *)
Definition current (r : block_reader) : list Z * list Z :=
  (_current_key r,
   slice (data (_block r)) (fst (_value_view r)) (snd (_value_view r))).

(** [eof()] *)
Definition eof (r : block_reader) : bool :=
  (_current_offset r >=? restarts_ r) || _eof r.


(** *** Well-formed blocks *)

(** An entry as [parse_next_key] decodes it: where it starts, the three
    lengths, where its key bytes start, and its full key. *)
Record entry := mk_entry {
  e_off : Z;
  e_shared : Z;
  e_non_shared : Z;
  e_value_length : Z;
  e_key_ptr : Z;
  e_key : list Z
}.

(** Where the entry ends. *)
Definition e_next (e : entry) : Z :=
  e_key_ptr e + e_non_shared e + e_value_length e.

(** The value of the entry, as a view and as bytes. *)
Definition e_value_view (e : entry) : Z * Z :=
  (e_key_ptr e + e_non_shared e, e_value_length e).
Definition e_value (b : block) (e : entry) : list Z :=
  slice (data b) (e_key_ptr e + e_non_shared e) (e_value_length e).

(** The entries of [b] from offset [off] to the restart array, decoded
    front to back; [prev] is the key before [off].  [None] when the
    bytes are no sequence of entries that ends at the restart array. *)
Fixpoint entries_from (fuel : nat) (b : block) (off : Z) (prev : list Z)
    : option (list entry) :=
  match fuel with
  | O => None
  | S f =>
      if off >=? restart_offset b then
        if off =? restart_offset b then Some [] else None
      else
        match decode_entry (data b) off (restart_offset b) with
        | None => None
        | Some (shared, non_shared, value_length, kp) =>
            if Z.of_nat (length prev) <? shared then None
            else
              let key := firstn (Z.to_nat shared) prev
                         ++ slice (data b) kp non_shared in
              let e := {| e_off := off; e_shared := shared;
                          e_non_shared := non_shared;
                          e_value_length := value_length;
                          e_key_ptr := kp; e_key := key |} in
              if e_next e <=? off then None
              else
                match entries_from f b (e_next e) key with
                | Some es => Some (e :: es)
                | None => None
                end
        end
  end.

Definition entries (b : block) : option (list entry) :=
  entries_from (S (length (data b))) b 0 [].

Definition block_entries (b : block) : list entry := default [] (entries b).

(** Keys strictly increase along the entries. *)
Fixpoint keys_increasing (es : list entry) : bool :=
  match es with
  | e1 :: tl =>
      match tl with
      | e2 :: _ => (compare (e_key e1) (e_key e2) <? 0) && keys_increasing tl
      | [] => true
      end
  | [] => true
  end.

(** The restart array. *)
Definition restart_points (b : block) : list Z :=
  map (fun i => decode_fixed32 (data b) (restart_offset b + Z.of_nat i * 4))
      (seq 0 (Z.to_nat (num_restarts b))).

(** [off] is where an entry with a full key starts. *)
Definition is_restart_entry (es : list entry) (off : Z) : bool :=
  existsb (fun e => (e_off e =? off) && (e_shared e =? 0)) es.

Fixpoint offsets_increasing (l : list Z) : bool :=
  match l with
  | a :: tl =>
      match tl with
      | b :: _ => (a <? b) && offsets_increasing tl
      | [] => true
      end
  | [] => true
  end.

(** A well-formed block (specification, sections 3 and 4.1): shorter
    than [2^32] bytes; its body is a sequence of prefix-compressed
    entries that ends where the restart array starts; keys strictly
    increase; there is at least one restart point, the first is offset
    0, the restart points strictly increase, and each one after the
    first is the start of an entry with [shared = 0]. *)
Definition well_formed (b : block) : bool :=
  match entries b with
  | None => false
  | Some es =>
      (block_size b <? 2 ^ 32) && (0 <=? restart_offset b)
      && keys_increasing es
      && match restart_points b with
         | [] => false
         | r0 :: rest =>
             (r0 =? 0) && offsets_increasing (r0 :: rest)
             && forallb (is_restart_entry es) rest
         end
  end.

(** The first key of restart point [j]: the key that the binary search
    of [seek] reads there. *)
Definition restart_key (b : block) (j : Z) : list Z :=
  match decode_entry (data b)
          (decode_fixed32 (data b) (restart_offset b + j * 4))
          (restart_offset b) with
  | Some (_, non_shared, _, kp) => slice (data b) kp non_shared
  | None => []
  end.

(** The first entry whose key is [>= target]. *)
Definition first_ge (target : list Z) (es : list entry) : option entry :=
  List.find (fun e => compare (e_key e) target >=? 0) es.

(** *** Vocabulary of the properties *)

(** [es] are the entries of [b] from [off] on, [prev] the key before. *)
Fixpoint layout (b : block) (off : Z) (prev : list Z) (es : list entry) : Prop :=
  match es with
  | [] => off = restart_offset b
  | e :: es' =>
      e_off e = off /\ off < restart_offset b /\
      decode_entry (data b) off (restart_offset b)
        = Some (e_shared e, e_non_shared e, e_value_length e, e_key_ptr e) /\
      e_shared e <= Z.of_nat (length prev) /\
      e_key e = firstn (Z.to_nat (e_shared e)) prev
                ++ slice (data b) (e_key_ptr e) (e_non_shared e) /\
      off < e_next e /\
      layout b (e_next e) (e_key e) es'
  end.

(** [r] reads [b]. *)
Definition on_block (b : block) (r : block_reader) : Prop :=
  _block r = b /\ restarts_ r = restart_offset b /\
  _num_restarts r = num_restarts b.

(** A cursor over [b] that no [seek] has marked as failed. *)
Definition reader_of (b : block) (r : block_reader) : Prop :=
  on_block b r /\ _eof r = false.

(** Restart point [j], as the restart array holds it. *)
Definition rp (b : block) (j : Z) : Z :=
  decode_fixed32 (data b) (restart_offset b + j * 4).

(** What [well_formed] says, as propositions. *)
Record wf_facts (b : block) (es : list entry) : Prop := {
  wf_size : block_size b < 2 ^ 32;
  wf_ro : 0 <= restart_offset b;
  wf_layout : layout b 0 [] es;
  wf_keys : keys_increasing es = true;
  wf_nr : 1 <= num_restarts b;
  wf_rp0 : rp b 0 = 0;
  wf_rp_mono : forall i j, 0 <= i < j -> j < num_restarts b -> rp b i < rp b j;
  wf_rp_entry : forall j, 1 <= j < num_restarts b ->
      exists e, List.In e es /\ e_off e = rp b j /\ e_shared e = 0
}.

(** [l] is the greatest restart point whose first key is [< target],
    restart point 0 when there is none. *)
Definition greatest_restart_lt (b : block) (target : list Z) (l : Z) : Prop :=
  0 <= l < num_restarts b /\
  (l = 0 \/ compare (restart_key b l) target < 0) /\
  (forall j, l < j < num_restarts b -> compare (restart_key b j) target >= 0).

(** [l] is the greatest restart point whose first key is [<= target]. *)
Definition greatest_restart_le (b : block) (target : list Z) (l : Z) : Prop :=
  0 <= l < num_restarts b /\
  compare (restart_key b l) target <= 0 /\
  (forall j, l < j < num_restarts b -> compare (restart_key b j) target > 0).

(** *** Sample blocks *)

(** Entries [("a","1"); ("ab","2"); ("c","3"); ("cd","4")], a restart
    point every two entries: restart points 0 and 10. *)
Definition sample_block : block :=
  mk_block [0;1;1;97;49;  1;1;1;98;50;  0;1;1;99;51;  1;1;1;100;52;
            0;0;0;0;  10;0;0;0;  2;0;0;0].

(** Keys [a, c, e] and keys [b, d, f], empty values, one restart point. *)
Definition block_ace : block :=
  mk_block [0;1;0;97;  0;1;0;99;  0;1;0;101;  0;0;0;0;  1;0;0;0].
Definition block_bdf : block :=
  mk_block [0;1;0;98;  0;1;0;100;  0;1;0;102;  0;0;0;0;  1;0;0;0].

(** No entries, one restart point at offset 0. *)
Definition empty_block : block := mk_block [0;0;0;0;  1;0;0;0].

(** *** Vocabulary of the further properties *)

(** The caller's loop "while (!eof()) { current(); next(); }", [n]
    rounds of it at most: the entries read, and [true] when the loop
    has ended. *)
Fixpoint scan (n : nat) (r : block_reader) : list (list Z * list Z) * bool :=
  match n with
  | O => ([], eof r)
  | S n' =>
      if eof r then ([], true)
      else let '(kvs, ended) := scan n' (next r) in (current r :: kvs, ended)
  end.

(** The key and the value of an entry, as [current()] gives them. *)
Definition e_partition (b : block) (e : entry) : list Z * list Z :=
  (e_key e, e_value b e).

(** [r] is on the entry [e] of [b]. *)
Definition positioned_at (b : block) (r : block_reader) (e : entry) : Prop :=
  on_block b r /\ _eof r = false /\
  _current_key r = e_key e /\ _value_view r = e_value_view e /\
  _current_offset r = e_off e /\ e_off e < restart_offset b /\
  next_entry_offset r = e_next e.

(** The entries with a key [>= target]. *)
Definition entries_ge (target : list Z) (es : list entry) : list entry :=
  List.filter (fun e => compare (e_key e) target >=? 0) es.

(** Where the linear search of [seek] stops: on the first entry whose
    key is not below the target, with the entries after it still to be
    read, or past the last entry. *)
Definition lands (b : block) (target : list Z) (es : list entry)
    (r' : block_reader) : Prop :=
  (exists pre e post,
     es = pre ++ e :: post /\
     Forall (fun x => compare (e_key x) target < 0) pre /\
     compare (e_key e) target >= 0 /\
     positioned_at b r' e /\ layout b (e_next e) (e_key e) post)
  \/ (Forall (fun x => compare (e_key x) target < 0) es /\
      on_block b r' /\ _eof r' = false /\ _current_offset r' = restart_offset b).

(** *** Sample blocks that are not well formed *)

(** The entry [("a", "")] and then an entry that announces a key of
    five bytes where one byte is left before the restart array. *)
Definition truncated_block : block :=
  mk_block [0;1;0;97;  0;5;0;98;  0;0;0;0;  1;0;0;0].

(** The entries of [sample_block], with the second restart point on the
    entry ["ab"], which shares a byte with the key before it. *)
Definition shared_restart_block : block :=
  mk_block [0;1;1;97;49;  1;1;1;98;50;  0;1;1;99;51;  1;1;1;100;52;
            0;0;0;0;  5;0;0;0;  2;0;0;0].

End BlockReader.

(* ----------------------------------------------------------------- *)
(** ** [class combined_sstables_reader] *)
(* ----------------------------------------------------------------- *)

Module Combined.

(** What [combined_sstables_reader] calls on an element of [_sstables]
    (the class of the elements is declared in [store/table.hh], which is
    not in the repository's files here): the cursor interface
    [reader::impl] that [block_reader] and [sstable_reader] implement.
    A positioning call gives [None] when it does not return. *)
Class reader_impl (R : Type) := {
  r_seek_to_first : R -> option R;
  r_seek_to_last : R -> option R;
  r_seek : list Z -> R -> option R;
  r_next : R -> R;
  r_current_key : R -> list Z;
  r_eof : R -> bool
}.

#[export] Instance block_reader_impl : reader_impl BlockReader.block_reader := {|
  r_seek_to_first := fun r => Some (BlockReader.seek_to_first r);
  r_seek_to_last := BlockReader.seek_to_last;
  r_seek := BlockReader.seek;
  r_next := BlockReader.next;
  r_current_key := fun r => fst (BlockReader.current r);
  r_eof := BlockReader.eof
|}.

Section combined.
Context {R : Type} `{reader_impl R}.

(** The members that the methods read.  [_current] points at an element
    of [_sstables], given by its index, or is null; the elements are
    distinct objects. *)
Record combined_sstables_reader := mk_combined {
  _sstables : list R;
  _current : option nat;
  _eof : bool
}.

(** The constructor. *)
Definition make_combined_sstables_reader (sstables : list R)
    : combined_sstables_reader :=
  {| _sstables := sstables; _current := None; _eof := false |}.

(** [less_comparator(a, b)]: [a->current().key() < b->current().key()] *)
Definition less_comparator (a b : R) : bool :=
  compare (r_current_key a) (r_current_key b) <? 0.

(** The [for] loop of [find_smallest_one] from index [i] on: [smallest]
    is kept with its index. *)
Fixpoint find_smallest_loop (i : nat) (rest : list R) (smallest : nat * R)
    : nat * R :=
  match rest with
  | [] => smallest
  | t :: rest' =>
      if less_comparator t (snd smallest)
      then find_smallest_loop (S i) rest' (i, t)
      else find_smallest_loop (S i) rest' smallest
  end.

(** [find_smallest_one()].  [_sstables[0]] of an empty vector is
    undefined: [None]. *)
Definition find_smallest_one (c : combined_sstables_reader)
    : option combined_sstables_reader :=
  match _sstables c with
  | [] => None
  | t0 :: rest =>
      let smallest := find_smallest_loop 1 rest (O, t0) in
      let current := Some (fst smallest) in
      Some {| _sstables := _sstables c;
              _current := current;
              _eof := match current with
                      | None => true
                      | Some _ => _eof c
                      end |}
  end.

(** [parallel_for_each(_sstables, f)] for a positioning call [f]. *)
Fixpoint for_each (f : R -> option R) (l : list R) : option (list R) :=
  match l with
  | [] => Some []
  | t :: l' =>
      match f t, for_each f l' with
      | Some t', Some l'' => Some (t' :: l'')
      | _, _ => None
      end
  end.

Definition positioned (f : R -> option R) (c : combined_sstables_reader)
    : option combined_sstables_reader :=
  match for_each f (_sstables c) with
  | None => None
  | Some l =>
      find_smallest_one
        {| _sstables := l; _current := _current c; _eof := _eof c |}
  end.

(** [seek_to_first()], [seek_to_last()] and [seek(key)] *)
Definition seek_to_first := positioned r_seek_to_first.
Definition seek_to_last := positioned r_seek_to_last.
Definition seek (key : list Z) := positioned (r_seek key).

(** The loop body of [next]: [if (sstable == _current) sstable->next()],
    for the elements from index [i] on. *)
Fixpoint next_each (current : option nat) (i : nat) (l : list R) : list R :=
  match l with
  | [] => []
  | t :: l' =>
      (if bool_decide (current = Some i) then r_next t else t)
        :: next_each current (S i) l'
  end.

(** [next()] *)
Definition next (c : combined_sstables_reader) : option combined_sstables_reader :=
  find_smallest_one
    {| _sstables := next_each (_current c) O (_sstables c);
       _current := _current c;
       _eof := _eof c |}.

(** [eof()] *)
Definition eof (c : combined_sstables_reader) : bool :=
  if _eof c then _eof c
  else
    let all_eof := false in
    fold_left (fun all_eof sstable => all_eof && r_eof sstable) (_sstables c) all_eof.

(** [current()], its key; [None] when [_current] is null. *)
Definition current (c : combined_sstables_reader) : option (list Z) :=
  match _current c with
  | None => None
  | Some i => option_map r_current_key (nth_error (_sstables c) i)
  end.

(** The caller's iteration "while not eof: current; next", [n] rounds of
    it at most: the keys read, and [true] when the loop has ended. *)
Fixpoint iterate (n : nat) (c : combined_sstables_reader)
    : list (option (list Z)) * bool :=
  match n with
  | O => ([], eof c)
  | S n' =>
      if eof c then ([], true)
      else
        match next c with
        | None => ([current c], false)
        | Some c' =>
            let '(keys, ended) := iterate n' c' in (current c :: keys, ended)
        end
  end.

(** A call of the cursor interface, and a sequence of calls. *)
Inductive call :=
| call_seek_to_first
| call_seek_to_last
| call_seek (key : list Z)
| call_next.

Definition do_call (o : call) (c : combined_sstables_reader)
    : option combined_sstables_reader :=
  match o with
  | call_seek_to_first => seek_to_first c
  | call_seek_to_last => seek_to_last c
  | call_seek key => seek key c
  | call_next => next c
  end.

Fixpoint run (calls : list call) (c : combined_sstables_reader)
    : option combined_sstables_reader :=
  match calls with
  | [] => Some c
  | o :: rest =>
      match do_call o c with
      | Some c' => run rest c'
      | None => None
      end
  end.

(** Every sub-cursor is exhausted. *)
Definition all_exhausted (c : combined_sstables_reader) : bool :=
  forallb r_eof (_sstables c).

End combined.

Arguments combined_sstables_reader R : clear implicits.

End Combined.

(* ----------------------------------------------------------------- *)
(** ** [open_sstable] *)
(* ----------------------------------------------------------------- *)

Module Open.

(** The error kinds of the specification (section 7).  The source
    raises one exception type by name, [redis::io_exception], which is
    [io_error]. *)
Inductive error := io_error | unexpected_eof | corrupt_format | not_found | cache_full.

(** A future that is resolved: ready with a value, or failed. *)
Inductive future (A : Type) :=
| ready (a : A)
| failed (e : error).
Arguments ready {A} a.
Arguments failed {A} e.

Section open_sstable.

(** Declared in headers that are not in the repository's files here. *)
Variable kEncodedLength : Z.              (* [footer::kEncodedLength] *)
Variable footer : Type.                   (* [class footer] *)
Variable decode_from : list Z -> option footer.
Variable index_handle : footer -> Z * Z.  (* a [block_handle]: offset, size *)
Variable metaindex_handle : footer -> Z * Z.
Variable sstable_options : Type.
Variable sstable_cache : Type.            (* the table cache *)
Variable block_cache : Type.

(** [sstable::rep], the members that its constructor and [read_meta]
    set from their arguments: [_fileter_data], [_file_name] and
    [_metaindex_handle] are default-initialised and never assigned. *)
Record rep := mk_rep {
  _file_reader : list Z;
  _filter : option (list Z);
  _index_block : block;
  _options : sstable_options
}.

Variable cache_find : string -> sstable_cache -> option rep.
Variable cache_insert : rep -> sstable_cache -> sstable_cache.
Variable find_and_create : Z * Z -> list Z -> block_cache -> block * block_cache.
(** [read_exactly(n)] after [seek(offset)]; [None] when the read fails. *)
Variable read_exactly : list Z -> Z -> Z -> option (list Z).
(** [rep::read_meta]: the filter it installs; [None] when it fails. *)
Variable read_meta : rep -> Z * Z -> option (option (list Z)).

(** The two thread-local caches. *)
Record caches := mk_caches {
  _table_cache : sstable_cache;
  _block_cache : block_cache
}.

(** [read_block(r, index)]: a failed read is rethrown. *)
Definition read_block (file_ : list Z) (index : Z * Z) : option (list Z) :=
  read_exactly file_ (fst index) (snd index).

(** The continuation of [file_.size()], before its [handle_exception]:
    [None] is an exceptional future. *)
Definition open_sized (file_ : list Z) (opts : sstable_options) (c : caches)
    : option rep * caches :=
  let size := Z.of_nat (length file_) in
  if size <? kEncodedLength then (None, c)
  else
    match read_exactly file_ (size - kEncodedLength) kEncodedLength with
    | None => (None, c)
    | Some buffer =>
        if negb (Z.of_nat (length buffer) =? kEncodedLength) then (None, c)
        else
          match decode_from buffer with
          | None => (None, c)
          | Some footer_ =>
              match read_block file_ (index_handle footer_) with
              | None => (None, c)
              | Some data =>
                  let '(index_block, bc) :=
                    find_and_create (index_handle footer_) data (_block_cache c) in
                  let c1 := {| _table_cache := _table_cache c; _block_cache := bc |} in
                  let rep_ := {| _file_reader := file_;
                                 _filter := None;
                                 _index_block := index_block;
                                 _options := opts |} in
                  match read_meta rep_ (metaindex_handle footer_) with
                  | None => (None, c1)
                  | Some filter =>
                      let table_instance :=
                        {| _file_reader := file_;
                           _filter := filter;
                           _index_block := index_block;
                           _options := opts |} in
                      (Some table_instance,
                       {| _table_cache := cache_insert table_instance (_table_cache c1);
                          _block_cache := bc |})
                  end
              end
          end
    end.

(** [open_sstable(fname, opts)], on the files [fs].  Whatever fails
    after the file is open and the table cache has missed is rethrown
    by the [handle_exception] as [redis::io_exception]. *)
Definition open_sstable (fs : string -> option (list Z)) (fname : string)
    (opts : sstable_options) (c : caches) : future rep * caches :=
  match fs fname with
  | None => (failed io_error, c)
  | Some file_ =>
      match cache_find fname (_table_cache c) with
      | Some cached_table => (ready cached_table, c)
      | None =>
          match open_sized file_ opts c with
          | (Some table_instance, c') => (ready table_instance, c')
          | (None, c') => (failed io_error, c')
          end
      end
  end.

End open_sstable.


(** *** A sample instance *)

(** Modelled from the spec: [footer::kEncodedLength] ([format.hh], not
    in the repository's files here), "length(metaindex_handle_max) +
    length(index_handle_max) + 8" with two varint64 of at most ten bytes
    in a handle. *)
Definition footer_length : Z := 2 * (10 + 10) + 8.

(** A file system with one file, of [footer_length - 1] zero bytes. *)
Definition short_file : list Z := repeat 0 (Z.to_nat (footer_length - 1)).
Definition sample_fs (fname : string) : option (list Z) :=
  if String.eqb fname "short.sst" then Some short_file else None.

(** Empty caches; tables are kept in a list, blocks are not kept. *)
Definition sample_open :=
  open_sstable footer_length unit (fun _ => None) (fun _ => (0, 0))
    (fun _ => (0, 0)) unit (list (rep unit)) unit
    (fun _ _ => None) (fun t c => t :: c)
    (fun _ d bc => (mk_block d, bc))
    (fun f off n => Some (slice f off n))
    (fun _ _ => Some None).
Definition sample_caches : caches (list (rep unit)) unit :=
  {| _table_cache := []; _block_cache := tt |}.

(** *** A sample instance that opens *)

(** A file of [footer_length] zero bytes; a footer that always decodes,
    to two empty handles at offset 0; a table cache of one slot, which
    is returned for every path; blocks are not kept. *)
Definition whole_file : list Z := repeat 0 (Z.to_nat footer_length).
Definition whole_fs (fname : string) : option (list Z) :=
  if String.eqb fname "whole.sst" then Some whole_file else None.
Definition slot_open :=
  open_sstable footer_length unit (fun _ => Some tt) (fun _ => (0, 0))
    (fun _ => (0, 0)) unit (option (rep unit)) unit
    (fun _ c => c) (fun t _ => Some t)
    (fun _ d bc => (mk_block d, bc))
    (fun f off n => Some (slice f off n))
    (fun _ _ => Some None).
Definition slot_caches : caches (option (rep unit)) unit :=
  {| _table_cache := None; _block_cache := tt |}.

End Open.

End Table.

(* ================================================================= *)
(** * Part III: properties of [redis::sset_lsa] *)
(* ================================================================= *)

(** ** The order of [double] values

    [<], [<=] and [==] on [double] are the primitive comparisons; their
    order properties are read off the IEEE 754 specification
    [SFcompare] that the kernel's floats implement. *)
Module FloatOrder.

Ltac cases_compare :=
  repeat match goal with
  | H : context [Z.compare ?a ?b] |- _ => destruct (Z.compare_spec a b)
  | |- context [Z.compare ?a ?b] => destruct (Z.compare_spec a b)
  | H : context [Pos.compare_cont Eq ?a ?b] |- _ =>
      change (Pos.compare_cont Eq a b) with (Pos.compare a b) in H
  | |- context [Pos.compare_cont Eq ?a ?b] =>
      change (Pos.compare_cont Eq a b) with (Pos.compare a b)
  | H : context [Pos.compare ?a ?b] |- _ => destruct (Pos.compare_spec a b)
  | |- context [Pos.compare ?a ?b] => destruct (Pos.compare_spec a b)
  end.

Ltac by_cases :=
  unfold SFleb, SFltb, SFeqb, SFcompare;
  repeat match goal with
  | x : spec_float |- _ => destruct x
  | b : bool |- _ => destruct b
  end;
  simpl; intros; try discriminate; try reflexivity; try contradiction;
  cases_compare; simpl in *; subst; try discriminate; try reflexivity; try lia.

Lemma SFleb_trans a b c :
  SFleb a b = true -> SFleb b c = true -> SFleb a c = true.
Proof. by_cases. Qed.

Lemma SFleb_ltb_false a b : SFleb a b = true -> SFltb b a = true -> False.
Proof. by_cases. Qed.

Lemma SFeqb_leb a b : SFeqb a b = true -> SFleb a b = true.
Proof. by_cases. Qed.

Lemma SFltb_leb a b : SFltb a b = true -> SFleb a b = true.
Proof. by_cases. Qed.

Lemma SFleb_total a b :
  SFeqb a a = true -> SFeqb b b = true -> SFltb a b = false -> SFleb b a = true.
Proof. by_cases. Qed.

Lemma leb_trans (a b c : float) :
  (a <=? b)%float = true -> (b <=? c)%float = true -> (a <=? c)%float = true.
Proof. rewrite !FloatAxioms.leb_spec. apply SFleb_trans. Qed.

Lemma leb_ltb_false (a b : float) :
  (a <=? b)%float = true -> (b <? a)%float = true -> False.
Proof. rewrite FloatAxioms.leb_spec, FloatAxioms.ltb_spec. apply SFleb_ltb_false. Qed.

Lemma eqb_leb (a b : float) : (a =? b)%float = true -> (a <=? b)%float = true.
Proof. rewrite FloatAxioms.eqb_spec, FloatAxioms.leb_spec. apply SFeqb_leb. Qed.

Lemma ltb_leb (a b : float) : (a <? b)%float = true -> (a <=? b)%float = true.
Proof. rewrite FloatAxioms.ltb_spec, FloatAxioms.leb_spec. apply SFltb_leb. Qed.

Lemma leb_total (a b : float) :
  (a =? a)%float = true -> (b =? b)%float = true ->
  (a <? b)%float = false -> (b <=? a)%float = true.
Proof.
  rewrite !FloatAxioms.eqb_spec, FloatAxioms.ltb_spec, FloatAxioms.leb_spec.
  apply SFleb_total.
Qed.

(** Addition on [double] is commutative. *)
Lemma SFadd_comm prec emax a b : SFadd prec emax a b = SFadd prec emax b a.
Proof.
  destruct a as [sa|sa| |sa ma ea], b as [sb|sb| |sb mb eb]; simpl; try reflexivity;
    try (destruct sa, sb; reflexivity).
  rewrite (Z.min_comm ea eb). f_equal. apply Z.add_comm.
Qed.

Lemma add_comm (a b : float) : (a + b)%float = (b + a)%float.
Proof.
  apply Prim2SF_inj. rewrite !add_spec. apply SFadd_comm.
Qed.

End FloatOrder.

Module SsetProps.
Import Sset.

(** ** The dictionary order

    [_dict] is searched with [sset_entry::compare]; two keys are
    equivalent for it exactly when they are the same bytes, which is
    what a map from keys to nodes expresses. *)

Lemma nat_of_ascii_inj a b : nat_of_ascii a = nat_of_ascii b -> a = b.
Proof.
  intros E. rewrite <- (ascii_nat_embedding a), <- (ascii_nat_embedding b), E.
  reflexivity.
Qed.

Lemma compare_impl_cons_eq a t1 t2 :
  compare_impl (String a t1) (String a t2) = compare_impl t1 t2.
Proof. unfold compare_impl. simpl. rewrite Nat.eqb_refl. reflexivity. Qed.

Lemma compare_impl_cons_ne a b t1 t2 :
  nat_of_ascii a <> nat_of_ascii b ->
  compare_impl (String a t1) (String b t2)
  = (Z.of_nat (nat_of_ascii a) - Z.of_nat (nat_of_ascii b) <? 0).
Proof.
  intros Hne. unfold compare_impl. simpl.
  rewrite (proj2 (Nat.eqb_neq _ _) Hne).
  rewrite (proj2 (Z.eqb_neq _ _)) by lia. reflexivity.
Qed.

Lemma compare_impl_irrefl k : compare_impl k k = false.
Proof.
  induction k as [|a t IH]; [reflexivity|]. rewrite compare_impl_cons_eq. exact IH.
Qed.

Lemma compare_impl_equiv k1 k2 :
  compare_impl k1 k2 = false -> compare_impl k2 k1 = false -> k1 = k2.
Proof.
  revert k2. induction k1 as [|a t1 IH]; intros [|b t2] H1 H2;
    try reflexivity; try discriminate.
  destruct (Nat.eq_dec (nat_of_ascii a) (nat_of_ascii b)) as [E|E].
  - apply nat_of_ascii_inj in E. subst b.
    rewrite compare_impl_cons_eq in H1, H2. f_equal. apply IH; assumption.
  - rewrite compare_impl_cons_ne in H1 by exact E.
    rewrite compare_impl_cons_ne in H2 by (intros E'; apply E; symmetry; exact E').
    apply Z.ltb_ge in H1, H2. exfalso. apply E. lia.
Qed.

(** ** [insert_ordered] *)

Lemma insert_ordered_scan_inl sc e trace l l' :
  insert_ordered_scan sc e trace l = inl l' ->
  exists l1 g l2,
    l = l1 ++ g :: l2 /\ l' = l1 ++ e :: g :: l2 /\
    Forall (fun x => gtb (sc x) (sc e) = false) l1 /\
    gtb (sc g) (sc e) = true.
Proof.
  revert trace l'. induction l as [|it tl IH]; intros trace l' H; simpl in H.
  - discriminate.
  - destruct (gtb (sc it) (sc e)) eqn:Hg.
    + injection H as <-. exists [], it, tl. repeat split; auto.
    + destruct (insert_ordered_scan sc e it tl) as [l0|t] eqn:Hs; [|discriminate].
      injection H as <-.
      destruct (IH _ _ Hs) as (l1 & g & l2 & -> & -> & Hall & Hgt).
      exists (it :: l1), g, l2. repeat split; auto.
Qed.

Lemma insert_ordered_scan_inr sc e trace l t :
  insert_ordered_scan sc e trace l = inr t ->
  Forall (fun x => gtb (sc x) (sc e) = false) l /\
  (l = [] /\ t = trace \/ List.In t l).
Proof.
  revert trace. induction l as [|it tl IH]; intros trace H; simpl in H.
  - injection H as <-. split; [constructor | left; split; reflexivity].
  - destruct (gtb (sc it) (sc e)) eqn:Hg; [discriminate|].
    destruct (insert_ordered_scan sc e it tl) as [l0|t0] eqn:Hs; [discriminate|].
    injection H as <-.
    destruct (IH _ Hs) as [Hall Ht]. split; [constructor; auto|].
    right. destruct Ht as [[-> ->]|Hin]; [left; reflexivity | right; exact Hin].
Qed.

(** What [insert_ordered] does to the list, with no assumption on the
    state: the new node goes before the first node whose score is
    strictly greater, or to the back when there is none. *)
Lemma insert_ordered_split (e : ptr) (s : sset_lsa) :
  exists l1 l2,
    _list s = l1 ++ l2 /\
    insert_ordered e s = (true, set_list (l1 ++ e :: l2) s) /\
    Forall (fun x => gtb (score_of s x) (score_of s e) = false) l1 /\
    match l2 with
    | [] => True
    | g :: _ => gtb (score_of s g) (score_of s e) = true
    end.
Proof.
  unfold insert_ordered. destruct (_list s) as [|it tl] eqn:Hl.
  - exists [], []. repeat split; auto.
  - destruct (score_of s e <? score_of s it)%float eqn:Hlt.
    + exists [], (it :: tl). repeat split; auto.
    + destruct (insert_ordered_scan (score_of s) e it (it :: tl)) as [l'|trace] eqn:Hs.
      * destruct (insert_ordered_scan_inl _ _ _ _ _ Hs) as (l1 & g & l2 & E & -> & Hall & Hg).
        exists l1, (g :: l2). repeat split; auto.
      * destruct (insert_ordered_scan_inr _ _ _ _ _ Hs) as [Hall [[Hn _]|Hin]];
          [discriminate|].
        assert (Hd : gtb (score_of s trace) (score_of s e) = false).
        { rewrite Forall_forall in Hall. apply Hall, list_elem_of_In, Hin. }
        rewrite Hd. exists (it :: tl), []. rewrite app_nil_r. repeat split; auto.
Qed.

Lemma insert_ordered_true e s : fst (insert_ordered e s) = true.
Proof.
  destruct (insert_ordered_split e s) as (l1 & l2 & _ & -> & _). reflexivity.
Qed.

Lemma insert_ordered_frame e s :
  objs (snd (insert_ordered e s)) = objs s /\
  _dict (snd (insert_ordered e s)) = _dict s.
Proof.
  destruct (insert_ordered_split e s) as (l1 & l2 & _ & -> & _). split; reflexivity.
Qed.

Lemma non_decreasing_tail a l : non_decreasing (a :: l) = true -> non_decreasing l = true.
Proof. simpl. destruct l; [reflexivity|]. intros [_ H]%andb_prop. exact H. Qed.

Lemma non_decreasing_app_r l1 l2 :
  non_decreasing (l1 ++ l2) = true -> non_decreasing l2 = true.
Proof.
  induction l1 as [|a l1 IH]; [auto|]. intros H. apply IH.
  exact (non_decreasing_tail _ _ H).
Qed.

Lemma non_decreasing_head_le a l :
  non_decreasing (a :: l) = true -> Forall (fun x => (a <=? x)%float = true) l.
Proof.
  revert a. induction l as [|b l IH]; intros a H; [constructor|].
  simpl in H. apply andb_prop in H as [Hab Hs].
  constructor; [exact Hab|].
  specialize (IH b Hs). eapply Forall_impl; [exact IH|].
  intros x Hx. simpl in Hx. eapply FloatOrder.leb_trans; eauto.
Qed.

(** C7: ordered insertion.  [insert_ordered e] succeeds and splits the
    list at one place: [e] becomes the only node of an empty list;
    otherwise it is linked immediately before the first node whose score
    is strictly greater than the score of [e] (no node before it is
    strictly greater), and at the back when no node is.  The nodes that
    were linked keep their relative order.  On a list in non-decreasing
    score order, no node after [e] has a score equal to the score of
    [e]: [e] is placed after all nodes of equal score. *)
Theorem insert_ordered_stable (e : ptr) (s : sset_lsa) :
  exists l1 l2,
    _list s = l1 ++ l2 /\
    insert_ordered e s = (true, set_list (l1 ++ e :: l2) s) /\
    (_list s = [] -> _list (snd (insert_ordered e s)) = [e]) /\
    Forall (fun x => gtb (score_of s x) (score_of s e) = false) l1 /\
    match l2 with
    | [] => True
    | g :: _ => gtb (score_of s g) (score_of s e) = true
    end /\
    (non_decreasing (list_scores s) = true ->
     Forall (fun x => (score_of s x =? score_of s e)%float = false) l2).
Proof.
  destruct (insert_ordered_split e s) as (l1 & l2 & Hl & Hio & Hall & Hg).
  exists l1, l2. split; [exact Hl|]. split; [exact Hio|]. split.
  { intros Hnil. rewrite Hio. simpl. rewrite Hnil in Hl.
    symmetry in Hl. apply app_eq_nil in Hl as [-> ->]. reflexivity. }
  split; [exact Hall|]. split; [exact Hg|].
  intros Hnd. unfold list_scores in Hnd. rewrite Hl, map_app in Hnd.
  apply non_decreasing_app_r in Hnd.
  destruct l2 as [|g l2]; [constructor|].
  simpl in Hnd. unfold gtb in Hg.
  assert (Hne : forall x, (score_of s g <=? x)%float = true ->
                          (x =? score_of s e)%float = false).
  { intros x Hgx. destruct (x =? score_of s e)%float eqn:Heq; [|reflexivity].
    exfalso. apply FloatOrder.eqb_leb in Heq.
    exact (FloatOrder.leb_ltb_false _ _ (FloatOrder.leb_trans _ _ _ Hgx Heq) Hg). }
  constructor.
  - destruct (score_of s g =? score_of s e)%float eqn:Heq; [|reflexivity].
    exfalso. apply FloatOrder.eqb_leb in Heq.
    exact (FloatOrder.leb_ltb_false _ _ Heq Hg).
  - apply non_decreasing_head_le in Hnd.
    rewrite Forall_forall in Hnd. rewrite Forall_forall. intros x Hx.
    apply Hne, Hnd. apply list_elem_of_fmap. exists x. split; [reflexivity|exact Hx].
Qed.


(** Inserting the detached [("e", 2)] into [a:1, b:2, c:2, d:3] puts
    it after [b] and [c] and before [d]. *)
Lemma insert_ordered_stable_witness :
  non_decreasing (list_scores scores_state) = true /\
  _list (snd (insert_ordered 4%nat scores_state)) = [0; 1; 2; 4; 3]%nat /\
  exists l1 l2,
    _list scores_state = l1 ++ l2 /\
    Forall (fun x => (score_of scores_state x =? score_of scores_state 4%nat)%float
                     = false) l2.
Proof.
  assert (Hnd : non_decreasing (list_scores scores_state) = true)
    by (vm_compute; reflexivity).
  split; [exact Hnd|]. split; [vm_compute; reflexivity|].
  destruct (insert_ordered_stable 4%nat scores_state)
    as (l1 & l2 & Hl & _ & _ & _ & _ & Hst).
  exists l1, l2. split; [exact Hl | exact (Hst Hnd)].
Defined.

(** ** [insert] *)

Lemma dict_insert_present e s :
  is_Some (_dict s !! key_of s e) -> dict_insert e s = (false, s).
Proof. intros [p Hp]. unfold dict_insert. rewrite Hp. reflexivity. Qed.

Lemma insert_ordered_key_of e s p :
  key_of (snd (insert_ordered e s)) p = key_of s p.
Proof.
  unfold key_of, entry_of. destruct (insert_ordered_frame e s) as [-> _]. reflexivity.
Qed.

Lemma insert_ordered_length e s :
  length (_list (snd (insert_ordered e s))) = S (length (_list s)).
Proof.
  destruct (insert_ordered_split e s) as (l1 & l2 & Hl & -> & _). simpl.
  rewrite Hl, !length_app. simpl. lia.
Qed.

Lemma insert_present e s :
  is_Some (_dict s !! key_of s e) ->
  insert e s = (false, snd (insert_ordered e s)).
Proof.
  intros Hp. unfold insert.
  pose proof (insert_ordered_true e s) as Ht.
  pose proof (insert_ordered_frame e s) as [Ho Hd].
  pose proof (insert_ordered_key_of e s e) as Hk.
  destruct (insert_ordered e s) as [ok s1]. simpl in *. subst ok.
  apply dict_insert_present. rewrite Hd, Hk. exact Hp.
Qed.

(** C3, at [insert]: when the key of [e] is in the dictionary already,
    [insert e] reports [false] and leaves the dictionary as it was, yet
    it has linked [e] into the score list; the list is then one longer
    than the dictionary, so a state in which [dict.size() ==
    list.size()] is taken to one in which the sizes differ. *)
Theorem insert_present_key_breaks_sizes (e : ptr) (s : sset_lsa) :
  sizes_agree s ->
  is_Some (_dict s !! key_of s e) ->
  fst (insert e s) = false /\
  _dict (snd (insert e s)) = _dict s /\
  e ∈ _list (snd (insert e s)) /\
  length (_list (snd (insert e s))) = S (length (_list s)) /\
  ~ sizes_agree (snd (insert e s)).
Proof.
  intros Hsz Hp. rewrite (insert_present e s Hp). simpl.
  pose proof (insert_ordered_frame e s) as [_ Hd].
  pose proof (insert_ordered_length e s) as Hlen.
  split; [reflexivity|]. split; [exact Hd|]. split.
  { destruct (insert_ordered_split e s) as (l1 & l2 & _ & -> & _). simpl.
    apply elem_of_app. right. left. }
  split; [exact Hlen|].
  unfold sizes_agree in *. rewrite Hd, Hlen, Hsz. lia.
Qed.

(** A second entry for the key ["x"] of the set [{("x", 1.0)}]. *)
Lemma insert_present_key_breaks_sizes_witness :
  sizes_agree dup_state /\
  fst (insert 1%nat dup_state) = false /\
  ~ sizes_agree (snd (insert 1%nat dup_state)).
Proof.
  assert (Hs : sizes_agree dup_state) by (vm_compute; reflexivity).
  assert (Hp : is_Some (_dict dup_state !! key_of dup_state 1%nat))
    by (vm_compute; eauto).
  destruct (insert_present_key_breaks_sizes 1%nat dup_state Hs Hp)
    as (Hf & _ & _ & _ & Hn).
  split; [exact Hs|]. split; [exact Hf | exact Hn].
Defined.

(** ** [fetch_by_rank] *)

(** C4, at [end == 0]: whatever [begin] is, [fetch_by_rank begin 0]
    emits nothing, because [rank_out_of_range] rejects every [end <= 0];
    the entry at rank 0 is never returned for the range [(0, 0)]. *)
Theorem fetch_by_rank_end_zero (begin : Z) (s : sset_lsa) :
  fetch_by_rank begin 0 s = [].
Proof.
  unfold fetch_by_rank. destruct (empty s); [reflexivity|].
  simpl end_wrap. cbv zeta.
  match goal with |- (if ?c then _ else _) = _ => destruct c end; [reflexivity|].
  unfold rank_out_of_range. rewrite orb_true_r. reflexivity.
Qed.

(** The loop [while (end < 0) end += size] has ended within the rounds
    that [fetch_by_rank] gives it, on the index counted from the end. *)
Lemma end_wrap_spec fuel end_ size :
  1 <= size -> (Z.to_nat (- end_) <= fuel)%nat ->
  end_wrap fuel end_ size = if end_ <? 0 then end_ mod size else end_.
Proof.
  intros Hsize. revert end_. induction fuel as [|f IH]; intros e Hf; simpl.
  - destruct (Z.ltb_spec e 0); [lia | reflexivity].
  - destruct (Z.ltb_spec e 0) as [Hlt|Hge]; [|reflexivity].
    rewrite IH by lia.
    destruct (Z.ltb_spec (e + size) 0) as [Hlt'|Hge'].
    + replace (e + size) with (e + 1 * size) by lia. apply Z_mod_plus_full.
    + apply (Z.mod_unique e size (-1)); lia.
Qed.

(** The [for] loop of [fetch_by_rank] emits the ranks from [begin] to
    [end], both included, as far as the list goes. *)
Lemma fetch_by_rank_loop_spec s begin end_ l rank :
  fetch_by_rank_loop s begin end_ rank l
  = map (fun it => (key_of s it, score_of s it))
      (firstn (Z.to_nat (end_ + 1 - Z.max begin rank))
         (skipn (Z.to_nat (begin - rank)) l)).
Proof.
  revert rank. induction l as [|it tl IH]; intros rank; simpl.
  - rewrite skipn_nil, firstn_nil. reflexivity.
  - destruct (Z.ltb_spec rank begin) as [Hlt|Hge].
    + rewrite IH.
      replace (Z.to_nat (begin - rank)) with (S (Z.to_nat (begin - (rank + 1)))) by lia.
      replace (Z.max begin (rank + 1)) with (Z.max begin rank) by lia.
      reflexivity.
    + replace (Z.to_nat (begin - rank)) with O by lia. simpl skipn.
      replace (Z.max begin rank) with rank by lia.
      destruct (Z.gtb_spec rank end_) as [Hgt|Hle].
      * replace (Z.to_nat (end_ + 1 - rank)) with O by lia. reflexivity.
      * replace (Z.to_nat (end_ + 1 - rank))
          with (S (Z.to_nat (end_ + 1 - (rank + 1)))) by lia.
        rewrite IH. simpl.
        replace (Z.to_nat (begin - (rank + 1))) with O by lia.
        replace (Z.max begin (rank + 1)) with (rank + 1) by lia.
        reflexivity.
Qed.

(** What [fetch_by_rank] returns, for every set and every pair of
    indices: with [b] the index [begin] counted from the end when
    negative and raised to 0, and [e] the index [end] counted from the
    end when negative, it is empty when [b > e] or [e <= 0], and
    otherwise the entries at the ranks [b] to [e] that the list has. *)
Lemma fetch_by_rank_spec begin end_ s :
  let n := Z.of_nat (length (_list s)) in
  let b := Z.max 0 (if begin <? 0 then begin + n else begin) in
  let e := if end_ <? 0 then end_ mod n else end_ in
  fetch_by_rank begin end_ s
  = if empty s || (b >? e) || (e <=? 0) then []
    else map (fun it => (key_of s it, score_of s it))
           (firstn (Z.to_nat (e + 1 - b)) (skipn (Z.to_nat b) (_list s))).
Proof.
  cbv zeta. unfold fetch_by_rank, empty.
  destruct (_list s) as [|it tl] eqn:Hl; [reflexivity|].
  rewrite <- Hl. set (n := Z.of_nat (length (_list s))).
  assert (Hn : 1 <= n) by (unfold n; rewrite Hl; simpl; lia).
  rewrite (end_wrap_spec _ _ n Hn) by lia.
  set (e := if end_ <? 0 then end_ mod n else end_).
  set (b1 := if begin <? 0 then begin + n else begin).
  replace (if b1 <? 0 then 0 else b1) with (Z.max 0 b1)
    by (destruct (Z.ltb_spec b1 0); lia).
  set (b := Z.max 0 b1). simpl orb.
  destruct (Z.gtb_spec b e) as [Hgt|Hle]; [reflexivity|]. simpl orb.
  unfold rank_out_of_range. fold n.
  set (b3 := if b >? n then n else b).
  assert (Hb3 : b3 = Z.min b n) by (unfold b3; destruct (Z.gtb_spec b n); lia).
  rewrite (Z.gtb_ltb b3 n).
  rewrite (proj2 (Z.ltb_ge n b3)) by lia. simpl orb.
  destruct (Z.leb_spec e 0) as [He|He]; [reflexivity|].
  rewrite fetch_by_rank_loop_spec. f_equal.
  rewrite Z.sub_0_r. replace (Z.max b3 0) with b3 by lia.
  destruct (Z_le_gt_dec b n) as [Hbn|Hbn].
  - replace b3 with b by lia. reflexivity.
  - rewrite !skipn_all2; [rewrite !firstn_nil; reflexivity | fold n; lia | fold n; lia].
Qed.

(** The scenarios of the specification and of C4 on the set
    [{(a,1), (b,2), (c,3)}]: the range [(-2, -1)] is [[(b,2); (c,3)]];
    the range [(0, 0)] is empty although rank 0 holds [(a,1)]. *)
Example fetch_by_rank_scenarios :
  fetch_by_rank (-2) (-1) abc_state = [("b", 2.0%float); ("c", 3.0%float)] /\
  fetch_by_rank 0 0 abc_state = [] /\
  fetch_by_rank 0 1 abc_state = [("a", 1.0%float); ("b", 2.0%float)].
Proof. vm_compute. repeat split; reflexivity. Qed.

(** ** [insert_or_update(key, delta)] *)

Lemma objs_construct key sc s :
  (objs (snd (construct key sc s)) !! (fst (construct key sc s)))
  = Some (mk_entry key sc).
Proof. simpl. apply lookup_insert_eq. Qed.

Lemma insert_absent key sc s :
  _dict s !! key = None ->
  let e := fst (construct key sc s) in
  let s' := snd (insert e (snd (construct key sc s))) in
  fst (insert e (snd (construct key sc s))) = true /\
  _dict s' = <[key := e]> (_dict s) /\
  objs s' = <[e := mk_entry key sc]> (objs s) /\
  e ∈ _list s'.
Proof.
  intros Hn. cbv zeta.
  set (e := fst (construct key sc s)). set (s1 := snd (construct key sc s)).
  assert (Hk : key_of s1 e = key).
  { unfold key_of, entry_of. unfold s1, e. rewrite objs_construct. reflexivity. }
  unfold insert.
  pose proof (insert_ordered_true e s1) as Ht.
  pose proof (insert_ordered_frame e s1) as [Ho Hd].
  pose proof (insert_ordered_key_of e s1 e) as Hk'.
  destruct (insert_ordered_split e s1) as (l1 & l2 & Hl & Hio & _).
  destruct (insert_ordered e s1) as [ok s2]. simpl in *. subst ok.
  injection Hio as ->.
  unfold dict_insert. rewrite Hk', Hk, Hd, Hn. simpl.
  repeat split; auto.
  apply elem_of_app. right. left.
Qed.

(** C5: [insert_or_update(key, delta)], the increment.  In a state
    whose dictionary nodes are allocated entries (every state that the
    operations make of the empty set is one): when [key] is present
    the call returns [old_score + delta], otherwise it returns [delta]
    and the entry is created with that score and linked into both
    containers; afterwards [score(key)] is the returned value.  In
    particular, on the empty set, inserting ["x"] with score 1.0 returns
    true, the increment of ["x"] by 2.5 then returns 3.5, and
    [score("x")] is 3.5 (and [rank("x")] is 0). *)
Theorem insert_or_update_increment :
  (forall (s : sset_lsa) (key : bytes) (delta : float),
     dict_live s ->
     let r := insert_or_update key delta s in
     match score key s with
     | Some old => fst r = (old + delta)%float
     | None =>
         fst r = delta /\
         exists e, _dict (snd r) !! key = Some e /\
                   objs (snd r) !! e = Some (mk_entry key delta) /\
                   e ∈ _list (snd r)
     end /\
     score key (snd r) = Some (fst r)) /\
  (let r1 := insert_new "x" 1.0%float sset_empty in
   let r2 := insert_or_update "x" 2.5%float (snd r1) in
   fst r1 = true /\ fst r2 = 3.5%float /\
   score "x" (snd r2) = Some 3.5%float /\ rank "x" (snd r2) = Some O).
Proof.
  split; [|vm_compute; repeat split; reflexivity].
  intros s key delta Hlive. cbv zeta. unfold insert_or_update, score.
  destruct (_dict s !! key) as [it|] eqn:Hd.
  - simpl. split; [apply FloatOrder.add_comm|].
    unfold update. simpl.
    match goal with |- context [insert_ordered it ?s0] =>
      pose proof (insert_ordered_frame it s0) as [Ho Hdd] end.
    simpl in Ho, Hdd. rewrite Hdd, Hd. f_equal.
    unfold score_of at 1, entry_of. rewrite Ho.
    destruct (Hlive _ _ Hd) as [en Hen].
    rewrite lookup_alter_eq, Hen. reflexivity.
  - pose proof (insert_absent key delta s Hd) as (Ht & Hdi & Hob & Hin).
    destruct (construct key delta s) as [e s1] eqn:Hc. simpl in *.
    split.
    + split; [reflexivity|]. exists e. rewrite Hdi, Hob.
      rewrite !lookup_insert_eq. repeat split; auto.
    + rewrite Hdi, lookup_insert_eq. unfold score_of, entry_of.
      rewrite Hob, lookup_insert_eq. reflexivity.
Qed.

Lemma x_state_live : dict_live x_state.
Proof.
  intros k p Hk.
  assert (Hd : _dict x_state = {["x" := 0%nat]}) by (vm_compute; reflexivity).
  rewrite Hd in Hk. apply lookup_singleton_Some in Hk as [<- <-].
  vm_compute. eauto.
Defined.

(** The increment of ["x"] by 2.5 in the set [{("x", 1.0)}]. *)
Lemma insert_or_update_increment_witness :
  dict_live x_state /\
  fst (insert_or_update "x" 2.5%float x_state) = 3.5%float /\
  score "x" (snd (insert_or_update "x" 2.5%float x_state)) = Some 3.5%float.
Proof.
  split; [exact x_state_live|].
  destruct (proj1 insert_or_update_increment x_state "x" 2.5%float x_state_live)
    as [_ Hs].
  assert (Hv : fst (insert_or_update "x" 2.5%float x_state) = 3.5%float)
    by (vm_compute; reflexivity).
  split; [exact Hv|]. rewrite Hs, Hv. reflexivity.
Defined.

(** ** What the mutations keep *)

Lemma non_decreasing_insert l1 e l2 :
  non_decreasing (l1 ++ l2) = true ->
  Forall not_nan (l1 ++ l2) -> not_nan e ->
  Forall (fun x => gtb x e = false) l1 ->
  match l2 with [] => True | g :: _ => gtb g e = true end ->
  non_decreasing (l1 ++ e :: l2) = true.
Proof.
  unfold gtb. induction l1 as [|a l1 IH]; intros Hs Hn He Hl1 Hl2.
  - simpl in *. destruct l2 as [|g l2]; [reflexivity|].
    rewrite (FloatOrder.ltb_leb _ _ Hl2). exact Hs.
  - inversion Hl1 as [|? ? Ha Hl1']; subst.
    inversion Hn as [|? ? Hna Hn']; subst.
    pose proof (non_decreasing_tail _ _ Hs) as Hs'.
    specialize (IH Hs' Hn' He Hl1' Hl2).
    destruct l1 as [|b l1].
    + simpl app. simpl app in IH.
      change (non_decreasing (a :: e :: l2))
        with ((a <=? e)%float && non_decreasing (e :: l2)).
      rewrite IH, (FloatOrder.leb_total e a He Hna Ha). reflexivity.
    + simpl app in *.
      change (non_decreasing (a :: b :: l1 ++ e :: l2))
        with ((a <=? b)%float && non_decreasing (b :: l1 ++ e :: l2)).
      rewrite IH. simpl in Hs. apply andb_prop in Hs as [-> _]. reflexivity.
Qed.

(** Ordered insertion keeps the score list in non-decreasing order,
    for scores that are numbers. *)
Lemma insert_ordered_sorted e s :
  non_decreasing (list_scores s) = true ->
  Forall not_nan (list_scores s) -> not_nan (score_of s e) ->
  non_decreasing (list_scores (snd (insert_ordered e s))) = true.
Proof.
  intros Hs Hn He.
  destruct (insert_ordered_split e s) as (l1 & l2 & Hl & -> & Hl1 & Hl2).
  unfold list_scores in *. simpl. rewrite Hl in Hs, Hn.
  rewrite map_app in *. simpl.
  change (score_of (set_list (l1 ++ e :: l2) s)) with (score_of s).
  apply non_decreasing_insert; auto.
  - apply Forall_fmap. exact Hl1.
  - destruct l2; [exact I | exact Hl2].
Qed.

(** [insert] of an entry whose key the dictionary does not hold links
    it into both containers: the sizes keep agreeing. *)
Lemma insert_absent_key_keeps_sizes e s :
  _dict s !! key_of s e = None -> sizes_agree s ->
  fst (insert e s) = true /\
  _dict (snd (insert e s)) = <[key_of s e := e]> (_dict s) /\
  sizes_agree (snd (insert e s)).
Proof.
  intros Hn Hsz. unfold insert.
  pose proof (insert_ordered_true e s) as Ht.
  pose proof (insert_ordered_frame e s) as [Ho Hd].
  pose proof (insert_ordered_key_of e s e) as Hk.
  pose proof (insert_ordered_length e s) as Hlen.
  destruct (insert_ordered e s) as [ok s1]. simpl in *. subst ok.
  unfold dict_insert. rewrite Hk, Hd, Hn. simpl. repeat split.
  unfold sizes_agree in *. simpl. rewrite Hlen, <- Hsz.
  apply map_size_insert_None, Hn.
Qed.

(** The increment keeps every dictionary node allocated, so increments
    can follow one another. *)
Lemma insert_or_update_live key delta s :
  dict_live s -> dict_live (snd (insert_or_update key delta s)).
Proof.
  intros Hlive. unfold insert_or_update.
  destruct (_dict s !! key) as [it|] eqn:Hd.
  - simpl. unfold update.
    match goal with |- context [insert_ordered it ?s0] =>
      pose proof (insert_ordered_frame it s0) as [Ho Hdd] end.
    intros k p Hk. rewrite Hdd in Hk. rewrite Ho. simpl in *.
    destruct (Hlive _ _ Hk) as [en Hen].
    destruct (decide (p = it)) as [->|Hne].
    + rewrite lookup_alter_eq, Hen. eauto.
    + rewrite lookup_alter_ne by congruence. eauto.
  - pose proof (insert_absent key delta s Hd) as (_ & Hdi & Hob & _).
    destruct (construct key delta s) as [e s1] eqn:Hc. simpl in *.
    intros k p Hk. rewrite Hdi in Hk. rewrite Hob.
    destruct (decide (p = e)) as [->|Hne].
    + rewrite lookup_insert_eq. eauto.
    + rewrite lookup_insert_ne by congruence.
      destruct (decide (k = key)) as [->|Hk'].
      * rewrite lookup_insert_eq in Hk. congruence.
      * rewrite lookup_insert_ne in Hk by congruence. eauto.
Qed.

(** ** [update_if_only_exists] *)

Lemma present_members_cons key sc rest s :
  present_members ((key, sc) :: rest) s =
  match _dict s !! key with
  | Some _ => (key, sc) :: present_members rest s
  | None => present_members rest s
  end.
Proof.
  unfold present_members. cbn [List.filter fst]. 
  destruct (_dict s !! key) as [it|] eqn:Hd.
  - rewrite bool_decide_eq_true_2 by eauto. reflexivity.
  - rewrite bool_decide_eq_false_2 by (intros [? ?]; discriminate). reflexivity.
Qed.

Lemma present_members_dict members s s' :
  _dict s' = _dict s -> present_members members s' = present_members members s.
Proof. unfold present_members. intros ->. reflexivity. Qed.

(** C9: [update_if_only_exists] returns the number of members whose key
    is in the dictionary, whatever the scores are (equal to the old
    ones or not), because the re-insertion [insert_ordered] of the
    detached entry always returns [true]; the dictionary itself is left
    as it was. *)
Theorem update_if_only_exists_count (members : list (string * float)) (s : sset_lsa) :
  fst (update_if_only_exists members s) = length (present_members members s) /\
  _dict (snd (update_if_only_exists members s)) = _dict s /\
  (forall e s0, fst (insert_ordered e s0) = true).
Proof.
  split; [|split; [|intros; apply insert_ordered_true]].
  - revert s. induction members as [|[key sc] rest IH]; intros s; [reflexivity|].
    rewrite present_members_cons. simpl.
    destruct (_dict s !! key) as [it|] eqn:Hd; [|apply IH].
    match goal with |- context [insert_ordered it ?s0] =>
      pose proof (insert_ordered_true it s0) as Ht;
      pose proof (insert_ordered_frame it s0) as [_ Hdd];
      destruct (insert_ordered it s0) as [ok s3] end.
    simpl in *. subst ok. specialize (IH s3).
    destruct (update_if_only_exists rest s3) as [n s4]. simpl in *.
    f_equal. rewrite IH. f_equal. apply present_members_dict, Hdd.
  - revert s. induction members as [|[key sc] rest IH]; intros s; [reflexivity|].
    simpl. destruct (_dict s !! key) as [it|] eqn:Hd; [|apply IH].
    match goal with |- context [insert_ordered it ?s0] =>
      pose proof (insert_ordered_frame it s0) as [_ Hdd];
      destruct (insert_ordered it s0) as [ok s3] end.
    specialize (IH s3). destruct (update_if_only_exists rest s3) as [n s4].
    simpl in *. rewrite IH. exact Hdd.
Qed.

(** On [{(a,1), (b,2), (c,3)}]: of the members [a] (with the score it
    already has), [zz] and [c], two are present, and 2 is returned. *)
Example update_if_only_exists_scenario :
  fst (update_if_only_exists
         [("a", 1.0%float); ("zz", 9.0%float); ("c", 0.5%float)] abc_state) = 2%nat /\
  list_scores (snd (update_if_only_exists
         [("a", 1.0%float); ("zz", 9.0%float); ("c", 0.5%float)] abc_state))
  = [0.5%float; 1.0%float; 2.0%float].
Proof. vm_compute. split; reflexivity. Qed.

(** ** [erase(entries)] *)

Lemma list_erase_not_in p l : p ∉ list_erase p l.
Proof.
  unfold list_erase. intros H. apply list_elem_of_In, filter_In in H as [_ H].
  rewrite Nat.eqb_refl in H. discriminate.
Qed.

Lemma list_erase_subset p q l : q ∈ list_erase p l -> q ∈ l.
Proof.
  unfold list_erase. intros H. apply list_elem_of_In, filter_In in H as [H _].
  apply list_elem_of_In, H.
Qed.

Lemma dict_erase_not_in p d k : dict_erase p d !! k ≠ Some p.
Proof.
  unfold dict_erase. intros H. apply map_lookup_filter_Some in H as [_ H]. apply H. reflexivity.
Qed.

Lemma dict_erase_subset p d k q : dict_erase p d !! k = Some q -> d !! k = Some q.
Proof. unfold dict_erase. intros H. apply map_lookup_filter_Some in H as [H _]. exact H. Qed.

Lemma erase_entries_loop_shrinks entries s :
  let s' := erase_entries_loop entries s in
  (forall q, q ∈ _list s' -> q ∈ _list s) /\
  (forall k q, _dict s' !! k = Some q -> _dict s !! k = Some q) /\
  (forall q, objs s !! q = None -> objs s' !! q = None).
Proof.
  revert s. induction entries as [|p rest IH]; intros s; cbv zeta; simpl; [auto|].
  match goal with |- context [erase_entries_loop rest ?s0] =>
    destruct (IH s0) as (H1 & H2 & H3) end. simpl in *.
  split; [|split].
  - intros q Hq. eapply list_erase_subset, H1, Hq.
  - intros k q Hq. eapply dict_erase_subset, H2, Hq.
  - intros q Hq. apply H3. destruct (decide (p = q)) as [->|Hne].
    + apply lookup_delete_eq.
    + rewrite lookup_delete_ne; auto.
Qed.

(** C10: [erase(entries)] returns the length of its argument, whatever
    the set holds, and every listed entry is afterwards in neither
    container and is no longer allocated. *)
Theorem erase_entries_count (entries : list nat) (s : sset_lsa) :
  fst (erase_entries entries s) = length entries /\
  forall p, p ∈ entries ->
    (p ∉ _list (snd (erase_entries entries s))) /\
    (forall k, _dict (snd (erase_entries entries s)) !! k ≠ Some p) /\
    objs (snd (erase_entries entries s)) !! p = None.
Proof.
  split; [reflexivity|]. simpl. revert s.
  induction entries as [|q rest IH]; intros s p Hp; [inversion Hp|].
  simpl. apply elem_of_cons in Hp as [->|Hp]; [|apply IH, Hp].
  match goal with |- context [erase_entries_loop rest ?s0] =>
    destruct (erase_entries_loop_shrinks rest s0) as (H1 & H2 & H3) end.
  simpl in *. split; [|split].
  - intros Hin. exact (list_erase_not_in _ _ (H1 _ Hin)).
  - intros k Hk. exact (dict_erase_not_in _ _ _ (H2 _ _ Hk)).
  - apply H3, lookup_delete_eq.
Qed.

(** On [{(a,1), (b,2), (c,3)}]: erasing the entries of [a] and [c]
    returns 2 and leaves [b]. *)
Example erase_entries_scenario :
  fst (erase_entries [0; 2]%nat abc_state) = 2%nat /\
  fetch_by_rank 0 5 (snd (erase_entries [0; 2]%nat abc_state)) = [("b", 2.0%float)] /\
  size (snd (erase_entries [0; 2]%nat abc_state)) = 1%nat.
Proof. vm_compute. repeat split; reflexivity. Qed.

(** ** Dictionary nodes are allocated in every state of a set *)

Lemma dict_live_frame s s' :
  (forall p, is_Some (objs s !! p) -> is_Some (objs s' !! p)) ->
  _dict s' = _dict s -> dict_live s -> dict_live s'.
Proof. intros Ho Hd Hl k p Hk. rewrite Hd in Hk. eauto. Qed.

Lemma construct_live key sc s : dict_live s -> dict_live (snd (construct key sc s)).
Proof.
  apply dict_live_frame; [|reflexivity]. simpl. intros p Hp.
  destruct (decide (fresh (dom (objs s)) = p)) as [->|Hne].
  - rewrite lookup_insert_eq. eauto.
  - rewrite lookup_insert_ne by exact Hne. exact Hp.
Qed.

Lemma insert_ordered_live e s : dict_live s -> dict_live (snd (insert_ordered e s)).
Proof.
  destruct (insert_ordered_frame e s) as [Ho Hd].
  apply dict_live_frame; [|exact Hd]. rewrite Ho. auto.
Qed.

Lemma update_score_live p sc s : dict_live s -> dict_live (update_score p sc s).
Proof.
  apply dict_live_frame; [|reflexivity]. simpl. intros q [en Hq].
  destruct (decide (p = q)) as [->|Hne].
  - rewrite lookup_alter_eq, Hq. simpl. eauto.
  - rewrite lookup_alter_ne by exact Hne. eauto.
Qed.

Lemma set_list_live l s : dict_live s -> dict_live (set_list l s).
Proof. apply dict_live_frame; [auto | reflexivity]. Qed.

Lemma insert_live e s :
  is_Some (objs s !! e) -> dict_live s -> dict_live (snd (insert e s)).
Proof.
  intros He Hl. unfold insert.
  pose proof (insert_ordered_live e s Hl) as Hl1.
  pose proof (insert_ordered_frame e s) as [Ho _].
  destruct (insert_ordered e s) as [ok s1]. simpl in *.
  destruct ok; [|exact Hl1]. unfold dict_insert.
  destruct (_dict s1 !! key_of s1 e) eqn:Hd; [exact Hl1|]. simpl.
  intros k p Hk. simpl in *. rewrite Ho.
  destruct (decide (key_of s1 e = k)) as [<-|Hne].
  - rewrite lookup_insert_eq in Hk. injection Hk as <-. exact He.
  - rewrite lookup_insert_ne in Hk by exact Hne. rewrite <- Ho. eauto.
Qed.

Lemma insert_new_live key sc s : dict_live s -> dict_live (snd (insert_new key sc s)).
Proof.
  intros Hl. unfold insert_new.
  pose proof (construct_live key sc s Hl) as Hl1.
  pose proof (objs_construct key sc s) as Ho.
  destruct (construct key sc s) as [e s1]. simpl in *.
  apply insert_live; [rewrite Ho; eauto | exact Hl1].
Qed.

Lemma insert_if_not_exists_cons key sc rest s :
  insert_if_not_exists ((key, sc) :: rest) s =
  match _dict s !! key with
  | None =>
      let '(entry, s1) := construct key sc s in
      let '(ok, s2) := insert entry s1 in
      if ok then
        let '(n, s3) := insert_if_not_exists rest s2 in (S n, s3)
      else insert_if_not_exists rest (destroy entry s2)
  | Some _ => insert_if_not_exists rest s
  end.
Proof. reflexivity. Qed.

Lemma insert_if_not_exists_live members s :
  dict_live s -> dict_live (snd (insert_if_not_exists members s)).
Proof.
  revert s. induction members as [|[key sc] rest IH]; intros s Hl; [exact Hl|].
  rewrite insert_if_not_exists_cons.
  destruct (_dict s !! key) eqn:Hd; [apply IH, Hl|].
  pose proof (insert_absent key sc s Hd) as (Ht & _).
  pose proof (insert_new_live key sc s Hl) as Hl2. unfold insert_new in Hl2.
  destruct (construct key sc s) as [entry s1]. simpl in Ht.
  destruct (insert entry s1) as [ok s2]. simpl in Ht, Hl2. subst ok.
  specialize (IH s2 Hl2). destruct (insert_if_not_exists rest s2). exact IH.
Qed.

Lemma update_if_only_exists_live members s :
  dict_live s -> dict_live (snd (update_if_only_exists members s)).
Proof.
  revert s. induction members as [|[key sc] rest IH]; intros s Hl; [exact Hl|].
  simpl. destruct (_dict s !! key) as [it|] eqn:Hd; [|apply IH, Hl].
  match goal with |- context [insert_ordered it ?s0] =>
    assert (Hl3 : dict_live (snd (insert_ordered it s0)))
      by (apply insert_ordered_live, update_score_live, set_list_live, Hl);
    destruct (insert_ordered it s0) as [ok s3] end.
  specialize (IH s3 Hl3). destruct (update_if_only_exists rest s3). exact IH.
Qed.

Lemma insert_or_update_members_live members s :
  dict_live s -> dict_live (snd (insert_or_update_members members s)).
Proof.
  revert s. induction members as [|[key sc] rest IH]; intros s Hl; [exact Hl|].
  simpl.
  match goal with |- context [let '(_, _) := ?x in _] =>
    assert (Hl2 : dict_live (snd x)); [|destruct x as [ok s2]] end.
  { destruct (_dict s !! key) as [it|].
    - unfold update. apply insert_ordered_live, set_list_live, update_score_live, Hl.
    - exact (insert_new_live key sc s Hl). }
  specialize (IH s2 Hl2). destruct (insert_or_update_members rest s2). exact IH.
Qed.

Lemma update_score_key_live key delta s :
  dict_live s -> dict_live (snd (update_score_key key delta s)).
Proof.
  intros Hl. unfold update_score_key. destruct (_dict s !! key); [|exact Hl].
  apply insert_ordered_live, update_score_live, set_list_live, Hl.
Qed.

Lemma erase_node_live p s :
  dict_live s ->
  dict_live (destroy p (set_list (list_erase p (_list s))
                          (set_dict (dict_erase p (_dict s)) s))).
Proof.
  intros Hl k q Hk. simpl in *.
  pose proof (dict_erase_not_in p (_dict s) k) as Hne.
  apply dict_erase_subset in Hk as Hk'.
  destruct (decide (p = q)) as [->|Hpq]; [destruct (Hne Hk)|].
  rewrite lookup_delete_ne by exact Hpq. eauto.
Qed.

Lemma erase_entries_live entries s :
  dict_live s -> dict_live (snd (erase_entries entries s)).
Proof.
  simpl. revert s. induction entries as [|p rest IH]; intros s Hl; [exact Hl|].
  simpl. apply IH. exact (erase_node_live p s Hl).
Qed.

Lemma erase_keys_live keys s :
  dict_live s -> dict_live (snd (erase_keys keys s)).
Proof.
  revert s. induction keys as [|key rest IH]; intros s Hl; [exact Hl|].
  simpl. destruct (_dict s !! key) as [dit|]; [|apply IH, Hl].
  pose proof (erase_node_live dit s Hl) as Hl2. simpl in Hl2.
  match goal with |- context [erase_keys rest ?s0] =>
    specialize (IH s0 Hl2); destruct (erase_keys rest s0) end.
  exact IH.
Qed.

(** Every state of a set has its dictionary nodes allocated. *)
Lemma reachable_live s : reachable s -> dict_live s.
Proof.
  induction 1.
  - intros k p Hk. simpl in Hk. rewrite lookup_empty in Hk. discriminate.
  - apply insert_new_live; assumption.
  - apply insert_if_not_exists_live; assumption.
  - apply update_if_only_exists_live; assumption.
  - apply insert_or_update_live; assumption.
  - apply insert_or_update_members_live; assumption.
  - apply update_score_key_live; assumption.
  - apply erase_keys_live; assumption.
  - apply erase_entries_live; assumption.
Qed.

End SsetProps.

(* ================================================================= *)
(** * Part IV: properties of [block_reader] *)
(* ================================================================= *)

Module BlockProps.
Import Table Table.BlockReader.

(** ** The comparator *)

Lemma compare_lt_trans a b c :
  compare a b < 0 -> compare b c < 0 -> compare a c < 0.
Proof.
  revert b c. induction a as [|x a IH]; intros [|y b] [|z c]; simpl; try lia.
  repeat match goal with |- context [?u <? ?v] => destruct (Z.ltb_spec u v) end;
    try lia.
  apply IH.
Qed.

(** ** The layout of a well-formed block *)

Lemma entries_from_layout fuel b off prev es :
  entries_from fuel b off prev = Some es -> layout b off prev es.
Proof.
  revert off prev es. induction fuel as [|f IH]; intros off prev es H; [discriminate|].
  simpl in H. destruct (off >=? restart_offset b) eqn:Hge.
  - destruct (off =? restart_offset b) eqn:Heq; [|discriminate].
    injection H as <-. simpl. lia.
  - destruct (decode_entry (data b) off (restart_offset b))
      as [[[[shared ns] vl] kp]|] eqn:Hd; [|discriminate].
    destruct (Z.of_nat (length prev) <? shared) eqn:Hsh; [discriminate|].
    match type of H with (if ?c then _ else _) = _ => destruct c eqn:Hprog end;
      [discriminate|].
    match type of H with match ?x with _ => _ end = _ => destruct x as [es'|] eqn:Hrec end;
      [|discriminate].
    injection H as <-. apply IH in Hrec. simpl.
    unfold e_next in *. simpl in *. repeat split; auto; lia.
Qed.

Lemma decode_entry_bound d p limit s ns vl kp :
  decode_entry d p limit = Some (s, ns, vl, kp) -> kp + ns + vl <= limit.
Proof.
  unfold decode_entry.
  destruct (get_varint32 5 d p limit 0 0) as [[? p1]|]; [|discriminate].
  destruct (get_varint32 5 d p1 limit 0 0) as [[? p2]|]; [|discriminate].
  destruct (get_varint32 5 d p2 limit 0 0) as [[? p3]|]; [|discriminate].
  destruct (limit - p3 <? z0 + z1) eqn:E; [discriminate|].
  intros H. injection H as <- <- <- <-. lia.
Qed.

Lemma layout_offsets b off prev es :
  layout b off prev es -> Forall (fun e => off <= e_off e < restart_offset b) es.
Proof.
  revert off prev. induction es as [|e es IH]; intros off prev H; [constructor|].
  simpl in H. destruct H as (Ho & Hlt & _ & _ & _ & Hn & Hl).
  constructor; [lia|]. apply IH in Hl. eapply Forall_impl; [exact Hl|].
  simpl. intros x Hx. lia.
Qed.

Lemma layout_length b off prev es :
  layout b off prev es -> Z.of_nat (length es) <= restart_offset b - off.
Proof.
  revert off prev. induction es as [|e es IH]; intros off prev H; simpl in *; [lia|].
  destruct H as (Ho & Hlt & _ & _ & _ & Hn & Hl). apply IH in Hl. lia.
Qed.

Lemma layout_app b off prev pre suf :
  layout b off prev (pre ++ suf) -> exists off' prev', layout b off' prev' suf.
Proof.
  revert off prev. induction pre as [|e pre IH]; intros off prev H.
  - exists off, prev. exact H.
  - simpl in H. destruct H as (_ & _ & _ & _ & _ & _ & Hl). eapply IH, Hl.
Qed.

Lemma layout_in b off prev es e :
  layout b off prev es -> List.In e es ->
  decode_entry (data b) (e_off e) (restart_offset b)
    = Some (e_shared e, e_non_shared e, e_value_length e, e_key_ptr e) /\
  (e_shared e = 0 -> e_key e = slice (data b) (e_key_ptr e) (e_non_shared e)).
Proof.
  revert off prev. induction es as [|x es IH]; intros off prev H Hin; [destruct Hin|].
  simpl in H. destruct H as (Ho & Hlt & Hd & Hsh & Hk & Hn & Hl).
  destruct Hin as [->|Hin]; [|eapply IH; eauto].
  rewrite Ho. split; [exact Hd|].
  intros Hz. rewrite Hk, Hz. reflexivity.
Qed.

(** Keys increase with position, and position with offset. *)
Lemma keys_increasing_head e es :
  keys_increasing (e :: es) = true ->
  Forall (fun x => compare (e_key e) (e_key x) < 0) es.
Proof.
  revert e. induction es as [|e2 es IH]; intros e H; [constructor|].
  simpl in H. apply andb_prop in H as [H1 H2]. apply Z.ltb_lt in H1.
  constructor; [exact H1|]. specialize (IH e2 H2).
  eapply Forall_impl; [exact IH|]. simpl. intros x Hx.
  eapply compare_lt_trans; eauto.
Qed.

Lemma keys_increasing_tail e es :
  keys_increasing (e :: es) = true -> keys_increasing es = true.
Proof. simpl. destruct es; [reflexivity|]. intros [_ H]%andb_prop. exact H. Qed.

Lemma keys_increasing_before pre e post :
  keys_increasing (pre ++ e :: post) = true ->
  Forall (fun x => compare (e_key x) (e_key e) < 0) pre.
Proof.
  induction pre as [|x pre IH]; intros H; [constructor|].
  constructor.
  - apply keys_increasing_head in H. rewrite Forall_forall in H.
    apply H. apply elem_of_app. right. left.
  - apply IH. exact (keys_increasing_tail _ _ H).
Qed.

Lemma keys_by_offset b off prev es e1 e2 :
  layout b off prev es -> keys_increasing es = true ->
  List.In e1 es -> List.In e2 es -> e_off e1 < e_off e2 ->
  compare (e_key e1) (e_key e2) < 0.
Proof.
  revert off prev. induction es as [|x es IH]; intros off prev Hl Hk H1 H2 Hlt;
    [destruct H1|].
  pose proof (keys_increasing_head _ _ Hk) as Hh.
  pose proof (keys_increasing_tail _ _ Hk) as Ht.
  simpl in Hl. destruct Hl as (Ho & _ & _ & _ & _ & Hn & Hl).
  pose proof (layout_offsets _ _ _ _ Hl) as Hoff.
  rewrite Forall_forall in Hh, Hoff.
  destruct H1 as [->|H1], H2 as [->|H2].
  - lia.
  - apply Hh, list_elem_of_In, H2.
  - apply list_elem_of_In, Hoff in H1. lia.
  - eapply IH; eauto.
Qed.

(** ** [parse_next_key] on a well-formed block *)

Lemma geb_false x y : x < y -> (x >=? y) = false.
Proof. intros H. rewrite Z.geb_leb. apply Z.leb_gt. exact H. Qed.

Lemma geb_true x y : y <= x -> (x >=? y) = true.
Proof. intros H. rewrite Z.geb_leb. apply Z.leb_le. exact H. Qed.

Lemma wrap32_small x : 0 <= x < 2 ^ 32 -> wrap32 x = x.
Proof. intros H. unfold wrap32. apply Z.mod_small. exact H. Qed.

Lemma wrap32_nonneg x : 0 <= wrap32 x.
Proof. unfold wrap32. apply Z.mod_pos_bound. lia. Qed.

Lemma advance_restart_index_frame fuel r :
  _block (advance_restart_index fuel r) = _block r /\
  restarts_ (advance_restart_index fuel r) = restarts_ r /\
  _num_restarts (advance_restart_index fuel r) = _num_restarts r /\
  _current_offset (advance_restart_index fuel r) = _current_offset r /\
  _current_key (advance_restart_index fuel r) = _current_key r /\
  _value_view (advance_restart_index fuel r) = _value_view r /\
  _eof (advance_restart_index fuel r) = _eof r.
Proof.
  revert r. induction fuel as [|f IH]; intros r; simpl; [repeat split|].
  match goal with |- context [if ?c then _ else _] => destruct c end;
    [|repeat split].
  match goal with |- context [advance_restart_index f ?r0] =>
    specialize (IH r0) end.
  simpl in IH. exact IH.
Qed.

Lemma parse_next_key_entry b r prev e es :
  restart_offset b < 2 ^ 32 ->
  on_block b r ->
  layout b (next_entry_offset r) prev (e :: es) ->
  e_shared e <= Z.of_nat (length (_current_key r)) ->
  firstn (Z.to_nat (e_shared e)) (_current_key r)
    = firstn (Z.to_nat (e_shared e)) prev ->
  exists r', parse_next_key r = (true, r') /\ on_block b r' /\
    _current_key r' = e_key e /\ _value_view r' = e_value_view e /\
    _current_offset r' = e_off e /\ _eof r' = _eof r /\
    next_entry_offset r' = e_next e.
Proof.
  intros Hsz (Hb & Hr & Hn) Hl Hlen Hpre.
  simpl in Hl. destruct Hl as (Ho & Hlt & Hd & Hsh & Hk & Hnx & Hl).
  pose proof (decode_entry_bound _ _ _ _ _ _ _ Hd) as Hbound.
  unfold parse_next_key. simpl.
  rewrite Hr, Hb. rewrite geb_false by lia. rewrite Hd.
  rewrite (proj2 (Z.ltb_ge _ _)) by lia.
  eexists. split; [reflexivity|].
  match goal with |- context [advance_restart_index ?f ?r0] =>
    destruct (advance_restart_index_frame f r0) as (F1 & F2 & F3 & F4 & F5 & F6 & F7);
    set (r' := advance_restart_index f r0) in * end.
  unfold on_block. unfold next_entry_offset at 1.
  rewrite F1, F2, F3, F4, F5, F6, F7. simpl.
  repeat split; auto.
  - rewrite Hk, Hpre. reflexivity.
  - pose proof (wrap32_nonneg (fst (_value_view r) + snd (_value_view r))).
    unfold next_entry_offset in *. unfold e_next in *.
    apply wrap32_small. lia.
Qed.

Lemma parse_next_key_end b r :
  on_block b r -> next_entry_offset r = restart_offset b ->
  exists r', parse_next_key r = (false, r') /\ on_block b r' /\
    _current_offset r' = restart_offset b /\ _eof r' = _eof r.
Proof.
  intros (Hb & Hr & Hn) Hnx. unfold parse_next_key. simpl.
  rewrite Hr, Hnx. rewrite geb_true by lia.
  eexists. split; [reflexivity|]. unfold on_block. simpl.
  repeat split; auto.
Qed.

(** ** The linear search of [seek] *)

Lemma seek_scan_layout b target es :
  restart_offset b < 2 ^ 32 ->
  forall fuel r prev,
  on_block b r ->
  layout b (next_entry_offset r) prev es ->
  match es with
  | e :: _ =>
      e_shared e <= Z.of_nat (length (_current_key r)) /\
      firstn (Z.to_nat (e_shared e)) (_current_key r)
        = firstn (Z.to_nat (e_shared e)) prev
  | [] => True
  end ->
  (length es < fuel)%nat ->
  exists r', seek_scan fuel target r = Some r' /\ on_block b r' /\
    _eof r' = _eof r /\
    match first_ge target es with
    | Some e =>
        _current_key r' = e_key e /\ _value_view r' = e_value_view e /\
        _current_offset r' = e_off e /\ e_off e < restart_offset b
    | None => _current_offset r' = restart_offset b
    end.
Proof.
  intros Hsz. induction es as [|e es IH]; intros fuel r prev Hon Hl Hready Hfuel.
  - destruct fuel as [|f]; [simpl in Hfuel; lia|].
    simpl in Hl. destruct (parse_next_key_end b r Hon Hl) as (r' & Hp & Hon' & Hco & He).
    exists r'. simpl. rewrite Hp. simpl. repeat split; auto; apply Hon'.
  - destruct fuel as [|f]; [simpl in Hfuel; lia|].
    destruct Hready as [Hlen Hpre].
    destruct (parse_next_key_entry b r prev e es Hsz Hon Hl Hlen Hpre)
      as (r' & Hp & Hon' & Hk & Hv & Hco & He & Hnx).
    simpl seek_scan. rewrite Hp. simpl negb. cbv iota.
    unfold first_ge. simpl List.find. rewrite Hk.
    destruct (compare (e_key e) target >=? 0) eqn:Hc.
    + exists r'. repeat split; auto; try apply Hon'.
      simpl in Hl. lia.
    + simpl in Hl. destruct Hl as (_ & _ & _ & _ & _ & _ & Hl').
      rewrite <- Hnx in Hl'.
      destruct (IH f r' (e_key e) Hon' Hl') as (r'' & Hs & Hon'' & He'' & Hres).
      * destruct es as [|e2 es']; [exact I|].
        simpl in Hl'. rewrite Hk. split; [apply Hl'|reflexivity].
      * simpl in Hfuel. lia.
      * exists r''. repeat split; auto; try apply Hon''. congruence.
Qed.

(** ** What [well_formed] gives *)

Lemma offsets_increasing_seq (f : nat -> Z) n s :
  offsets_increasing (map f (seq s n)) = true ->
  forall i j, (s <= i < j)%nat -> (j < s + n)%nat -> f i < f j.
Proof.
  revert s. induction n as [|n IH]; intros s H i j Hij Hj; [lia|].
  simpl in H. destruct n as [|n']; [lia|].
  simpl in H. apply andb_prop in H as [H1 H2]. apply Z.ltb_lt in H1.
  specialize (IH (S s) H2).
  destruct (decide (i = s)) as [->|Hne].
  - destruct (decide (j = S s)) as [->|Hne']; [exact H1|].
    etransitivity; [exact H1|]. apply IH; lia.
  - apply IH; lia.
Qed.

Lemma well_formed_facts b :
  well_formed b = true -> exists es, entries b = Some es /\ wf_facts b es.
Proof.
  unfold well_formed. destruct (entries b) as [es|] eqn:He; [|discriminate].
  intros H. exists es. split; [reflexivity|].
  apply andb_prop in H as [H Hrs]. apply andb_prop in H as [H Hk].
  apply andb_prop in H as [Hsz Hro]. apply Z.ltb_lt in Hsz. apply Z.leb_le in Hro.
  unfold restart_points in Hrs.
  destruct (Z.to_nat (num_restarts b)) as [|n] eqn:Hn; [discriminate|].
  change (seq 0 (S n)) with (0%nat :: seq 1 n) in Hrs.
  rewrite map_cons in Hrs.
  apply andb_prop in Hrs as [Hrs Hent]. apply andb_prop in Hrs as [H0 Hinc].
  apply Z.eqb_eq in H0.
  pose proof (offsets_increasing_seq
                (fun i : nat => decode_fixed32 (data b)
                                  (restart_offset b + Z.of_nat i * 4))
                (S n) 0 Hinc) as Hmono.
  constructor; auto.
  - apply entries_from_layout in He. exact He.
  - lia.
  - intros i j Hij Hj.
    specialize (Hmono (Z.to_nat i) (Z.to_nat j)). simpl in Hmono.
    rewrite !Z2Nat.id in Hmono by lia. apply Hmono; lia.
  - intros j Hj. rewrite forallb_forall in Hent.
    specialize (Hent (rp b j)).
    assert (Hin : List.In (rp b j)
              (map (fun i : nat => decode_fixed32 (data b)
                      (restart_offset b + Z.of_nat i * 4)) (seq 1 n))).
    { apply in_map_iff. exists (Z.to_nat j). split.
      - unfold rp. rewrite Z2Nat.id by lia. reflexivity.
      - apply in_seq. lia. }
    apply Hent in Hin. unfold is_restart_entry in Hin.
    apply existsb_exists in Hin as (e & Hine & Hb).
    apply andb_prop in Hb as [Hb1 Hb2].
    apply Z.eqb_eq in Hb1, Hb2. exists e. auto.
Qed.

Lemma get_restart_point_on b r j : on_block b r -> get_restart_point r j = rp b j.
Proof. intros (Hb & Hr & _). unfold get_restart_point, rp. rewrite Hb, Hr. reflexivity. Qed.

Lemma restart_key_entry b es j :
  wf_facts b es -> 1 <= j < num_restarts b ->
  exists e ns vl kp,
    List.In e es /\ e_off e = rp b j /\ e_shared e = 0 /\
    decode_entry (data b) (rp b j) (restart_offset b) = Some (0, ns, vl, kp) /\
    slice (data b) kp ns = e_key e /\ restart_key b j = e_key e.
Proof.
  intros W Hj. destruct (wf_rp_entry _ _ W j Hj) as (e & Hin & Ho & Hs).
  destruct (layout_in _ _ _ _ _ (wf_layout _ _ W) Hin) as [Hd Hk].
  rewrite Ho, Hs in Hd. specialize (Hk Hs).
  exists e, (e_non_shared e), (e_value_length e), (e_key_ptr e).
  repeat split; auto. unfold restart_key. fold (rp b j). rewrite Hd. auto.
Qed.

Lemma restart_key_mono b es i j :
  wf_facts b es -> 1 <= i < j -> j < num_restarts b ->
  compare (restart_key b i) (restart_key b j) < 0.
Proof.
  intros W Hij Hj.
  destruct (restart_key_entry b es i W) as (e1 & _ & _ & _ & Hin1 & Ho1 & _ & _ & _ & ->); [lia|].
  destruct (restart_key_entry b es j W) as (e2 & _ & _ & _ & Hin2 & Ho2 & _ & _ & _ & ->); [lia|].
  eapply keys_by_offset; eauto using wf_layout, wf_keys.
  rewrite Ho1, Ho2. apply (wf_rp_mono _ _ W); lia.
Qed.

(** ** The binary search of [seek] *)

Lemma seek_restart_loop_spec b es r target :
  wf_facts b es -> on_block b r ->
  forall fuel left right,
    0 <= left <= right -> right < num_restarts b ->
    (Z.to_nat (right - left) < fuel)%nat ->
    (left = 0 \/ compare (restart_key b left) target < 0) ->
    (forall j, right < j < num_restarts b ->
               compare (restart_key b j) target >= 0) ->
    exists l, seek_restart_loop fuel r target left right = Some (found l) /\
      0 <= l < num_restarts b /\
      (l = 0 \/ compare (restart_key b l) target < 0) /\
      (forall j, l < j < num_restarts b ->
                 compare (restart_key b j) target >= 0).
Proof.
  intros W Hon. pose proof (wf_size _ _ W) as Hsz. pose proof (wf_ro _ _ W) as Hro.
  assert (Hnr : 4 * (1 + num_restarts b) <= block_size b).
  { unfold restart_offset in Hro. lia. }
  induction fuel as [|f IH]; intros left right Hlr Hr Hfuel Hleft Hright.
  - assert (left = right) by lia. subst right.
    exists left. simpl. rewrite Z.ltb_irrefl. repeat split; auto; lia.
  - simpl. destruct (left <? right) eqn:Hlt.
    2: { apply Z.ltb_ge in Hlt. assert (left = right) by lia. subst right.
         exists left. repeat split; auto; lia. }
    apply Z.ltb_lt in Hlt.
    rewrite wrap32_small by lia.
    set (mid := (left + right + 1) / 2).
    assert (Hmid : left < mid <= right).
    { unfold mid. pose proof (Z.div_mod (left + right + 1) 2 ltac:(lia)).
      pose proof (Z.mod_pos_bound (left + right + 1) 2 ltac:(lia)). lia. }
    rewrite (get_restart_point_on b r mid Hon).
    destruct Hon as (Hb & Hro' & Hn'). rewrite Hb, Hro'.
    destruct (restart_key_entry b es mid W) as (e & ns & vl & kp & _ & _ & _ & Hd & Hs & Hk);
      [lia|].
    rewrite Hd. simpl negb. cbv iota. rewrite Hs, <- Hk.
    destruct (compare (restart_key b mid) target <? 0) eqn:Hc.
    + apply Z.ltb_lt in Hc. apply IH; auto; try lia.
    + apply Z.ltb_ge in Hc. rewrite wrap32_small by lia.
      apply IH; auto; try lia. 
      intros j Hj. destruct (decide (j = mid)) as [->|Hne]; [lia|].
      destruct (Z_lt_le_dec j mid) as [Hjm|Hjm]; [lia|].
      destruct (Z_lt_ge_dec (compare (restart_key b j) target) 0) as [Hneg|]; [|lia].
      exfalso.
      pose proof (restart_key_mono b es mid j W ltac:(lia) ltac:(lia)) as Hm.
      pose proof (compare_lt_trans _ _ _ Hm Hneg). lia.
Qed.

(** ** [seek] *)

Lemma find_app_skip {A} (f : A -> bool) pre suf :
  Forall (fun x => f x = false) pre -> List.find f (pre ++ suf) = List.find f suf.
Proof.
  induction pre as [|x pre IH]; intros H; [reflexivity|].
  inversion H as [|? ? Hx Hpre]; subst. simpl. rewrite Hx. apply IH, Hpre.
Qed.

Lemma seek_restart_spec b es r target :
  wf_facts b es -> on_block b r ->
  exists l, seek_restart target r = Some (found l) /\ greatest_restart_lt b target l.
Proof.
  intros W Hon. pose proof (wf_size _ _ W) as Hsz. pose proof (wf_ro _ _ W) as Hro.
  pose proof (wf_nr _ _ W) as Hnr.
  assert (Hb : 4 * (1 + num_restarts b) <= block_size b).
  { unfold restart_offset in Hro. lia. }
  unfold seek_restart. cbv zeta.
  destruct Hon as (H1 & H2 & H3). rewrite H3. rewrite wrap32_small by lia.
  apply (seek_restart_loop_spec b es r target W); unfold on_block; auto; try lia.
Qed.

(** C8, as the code has it: on a well-formed block, [seek(target)]
    binary-searches the restart points for the greatest one whose first
    key is strictly less than [target] (restart point 0 when none is),
    then scans forward from there, and leaves the cursor on the first
    entry, in block order, whose key is [>= target]: [current()] is that
    entry and [eof()] is false; when no entry has a key [>= target] the
    cursor is exhausted: [eof()] is true. *)
Theorem seek_first_ge (b : block) (target : list Z) (r : block_reader) :
  well_formed b = true -> reader_of b r ->
  (exists l, seek_restart target r = Some (found l) /\
             greatest_restart_lt b target l) /\
  exists r', seek target r = Some r' /\ reader_of b r' /\
    match first_ge target (block_entries b) with
    | Some e =>
        eof r' = false /\ current r' = (e_key e, e_value b e) /\
        _current_offset r' = e_off e
    | None => eof r' = true
    end.
Proof.
  intros Hwf [Hon Heof].
  destruct (well_formed_facts b Hwf) as (es & He & W).
  destruct (seek_restart_spec b es r target W Hon) as (l & Hs & Hpost).
  split; [exists l; split; [exact Hs | exact Hpost]|].
  pose proof (wf_size _ _ W) as Hsz. pose proof (wf_ro _ _ W) as Hro.
  pose proof (wf_nr _ _ W) as Hnr. pose proof (wf_layout _ _ W) as Hlay.
  assert (HR : restart_offset b < 2 ^ 32) by (unfold restart_offset; lia).
  assert (HRs : restart_offset b <= block_size b) by (unfold restart_offset; lia).
  unfold seek. rewrite Hs.
  set (r0 := seek_to_restart_point l r).
  assert (Hon0 : on_block b r0) by (destruct Hon as (? & ? & ?); repeat split; auto).
  assert (Hk0 : _current_key r0 = []) by reflexivity.
  assert (Heof0 : _eof r0 = _eof r) by reflexivity.
  assert (Hnx0 : 0 <= rp b l < 2 ^ 32 -> next_entry_offset r0 = rp b l).
  { intros Hb. unfold next_entry_offset, r0. simpl.
    rewrite (get_restart_point_on b r l Hon), Z.add_0_r. apply wrap32_small, Hb. }
  assert (Hdata : _block r = b) by apply Hon.
  rewrite Hdata.
  assert (Hscan : exists suf,
            (length suf <= length es)%nat /\
            first_ge target es = first_ge target suf /\
            exists r', seek_scan (S (length (data b))) target r0 = Some r' /\
              on_block b r' /\ _eof r' = _eof r0 /\
              match first_ge target suf with
              | Some e =>
                  _current_key r' = e_key e /\ _value_view r' = e_value_view e /\
                  _current_offset r' = e_off e /\ e_off e < restart_offset b
              | None => _current_offset r' = restart_offset b
              end).
  { pose proof (layout_length _ _ _ _ Hlay) as Hlen.
    unfold block_size in *.
    destruct Hpost as (Hl & Hlt & _).
    destruct (decide (l = 0)) as [->|Hne].
    - exists es. split; [lia|]. split; [reflexivity|].
      assert (Hn : next_entry_offset r0 = 0).
      { rewrite Hnx0; rewrite (wf_rp0 _ _ W); lia. }
      apply (seek_scan_layout b target es HR _ r0 []); auto.
      + rewrite Hn. exact Hlay.
      + destruct es as [|e es']; [exact I|].
        rewrite Hk0. simpl in Hlay. split; [apply Hlay|reflexivity].
      + lia.
    - destruct Hlt as [?|Hlt]; [contradiction|].
      destruct (restart_key_entry b es l W)
        as (e & ns & vl & kp & Hin & Ho & Hsh & _ & _ & Hrk); [lia|].
      rewrite Hrk in Hlt.
      apply in_split in Hin as (pre & post & ->).
      destruct (layout_app _ _ _ _ _ Hlay) as (off' & prev' & Hlay').
      assert (Hoff : off' = rp b l) by (simpl in Hlay'; lia).
      subst off'.
      pose proof (layout_offsets _ _ _ _ Hlay') as Hoffs.
      apply Forall_cons in Hoffs as [Hoe _].
      pose proof (layout_offsets _ _ _ _ Hlay) as Hoffs0.
      assert (Hoe0 : 0 <= e_off e).
      { rewrite Forall_forall in Hoffs0. apply Hoffs0, list_elem_of_In, in_elt. }
      assert (Hn : next_entry_offset r0 = rp b l) by (apply Hnx0; lia).
      exists (e :: post). split; [rewrite length_app; simpl; lia|]. split.
      + unfold first_ge. apply find_app_skip.
        pose proof (keys_increasing_before _ _ _ (wf_keys _ _ W)) as Hpre.
        eapply Forall_impl; [exact Hpre|]. simpl. intros x Hx.
        apply geb_false. eapply compare_lt_trans; eauto.
      + apply (seek_scan_layout b target (e :: post) HR _ r0 prev'); auto.
        * rewrite Hn. exact Hlay'.
        * rewrite Hk0, Hsh. simpl. split; [lia|reflexivity].
        * rewrite length_app in Hlen. simpl in *. lia. }
  destruct Hscan as (suf & _ & Hfg & r' & Hsc & Hon' & Heof' & Hres).
  exists r'. split; [exact Hsc|]. split; [split; [exact Hon'|congruence]|].
  unfold block_entries. rewrite He. simpl. rewrite Hfg.
  unfold eof, current. destruct Hon' as (Hb' & Hr' & _).
  rewrite Hr', Hb', Heof', Heof0, Heof.
  destruct (first_ge target suf) as [e|].
  - destruct Hres as (Hk & Hv & Ho & Hlt). rewrite Ho, Hk, Hv.
    rewrite geb_false by lia. repeat split; reflexivity.
  - rewrite Hres. rewrite geb_true by lia. reflexivity.
Qed.


Lemma first_ge_sample :
  first_ge [98] (block_entries sample_block)
  = Some {| e_off := 10; e_shared := 0; e_non_shared := 1;
            e_value_length := 1; e_key_ptr := 13; e_key := [99] |}.
Proof. vm_compute. reflexivity. Qed.

(** [seek "b"] on the sample block stops on [("c", "3")]. *)
Lemma seek_first_ge_witness :
  well_formed sample_block = true /\
  reader_of sample_block (make_block_reader sample_block) /\
  exists r', seek [98] (make_block_reader sample_block) = Some r' /\
             eof r' = false /\ current r' = ([99], [51]).
Proof.
  assert (Hwf : well_formed sample_block = true) by (vm_compute; reflexivity).
  assert (Hr : reader_of sample_block (make_block_reader sample_block))
    by (repeat split; reflexivity).
  split; [exact Hwf|]. split; [exact Hr|].
  destruct (seek_first_ge sample_block [98] (make_block_reader sample_block) Hwf Hr)
    as [_ (r' & Hs & _ & Hm)].
  rewrite first_ge_sample in Hm. destruct Hm as (He & Hc & _).
  exists r'. split; [exact Hs|]. split; [exact He|]. exact Hc.
Defined.

(** C8 as stated fails on the restart point: with target ["c"], the
    first key of restart point 1, the binary search ends on restart
    point 0, which is not the greatest restart point whose first key is
    [<= target]. *)
Lemma seek_restart_not_greatest_le :
  well_formed sample_block = true /\
  seek_restart [99] (make_block_reader sample_block) = Some (found 0) /\
  ~ greatest_restart_le sample_block [99] 0.
Proof.
  split; [vm_compute; reflexivity|]. split; [vm_compute; reflexivity|].
  intros (_ & _ & H). specialize (H 1).
  assert (Hj : 0 < 1 < num_restarts sample_block) by (vm_compute; split; reflexivity).
  apply H in Hj. vm_compute in Hj. discriminate.
Qed.

(** The boundary scenarios of the specification for one block: the
    empty block is exhausted after [seek_to_first]; on the block of the
    single entry [("a", "1")], [seek "a"] stops on it and [seek "b"]
    exhausts the cursor. *)
Example block_scenarios :
  eof (seek_to_first (make_block_reader empty_block)) = true /\
  let b := mk_block [0;1;1;97;49; 0;0;0;0; 1;0;0;0] in
  option_map (fun r => (eof r, current r)) (seek [97] (make_block_reader b))
    = Some (false, ([97], [49])) /\
  option_map eof (seek [98] (make_block_reader b)) = Some true.
Proof. vm_compute. repeat split; reflexivity. Qed.

End BlockProps.

(* ================================================================= *)
(** * Part V: properties of [combined_sstables_reader] *)
(* ================================================================= *)

Module CombinedProps.
Import Table Table.BlockReader Table.Combined.

Section generic.
Context {R : Type} `{reader_impl R}.

Lemma fold_all_eof_false (l : list R) :
  fold_left (fun all_eof sstable => all_eof && r_eof sstable) l false = false.
Proof. induction l as [|t l IH]; simpl; [reflexivity | exact IH]. Qed.

(** [eof()] is the flag [_eof]: the loop over the sub-cursors starts
    from [all_eof = false] and can only keep it. *)
Lemma eof_is_flag (c : combined_sstables_reader R) : Combined.eof c = Combined._eof c.
Proof.
  unfold Combined.eof. destruct (Combined._eof c); [reflexivity|].
  apply fold_all_eof_false.
Qed.

Lemma find_smallest_one_flag (c c' : combined_sstables_reader R) :
  find_smallest_one c = Some c' ->
  Combined._eof c' = Combined._eof c /\ _sstables c' = _sstables c.
Proof.
  unfold find_smallest_one. destruct (_sstables c) as [|t0 rest] eqn:E; [discriminate|].
  intros H0. injection H0 as <-. simpl. split; reflexivity.
Qed.

Lemma positioned_flag f (c c' : combined_sstables_reader R) :
  positioned f c = Some c' -> Combined._eof c' = Combined._eof c.
Proof.
  unfold positioned. destruct (for_each f (_sstables c)); [|discriminate].
  intros H0. apply find_smallest_one_flag in H0 as [H0 _]. exact H0.
Qed.

Lemma next_flag (c c' : combined_sstables_reader R) :
  Combined.next c = Some c' -> Combined._eof c' = Combined._eof c.
Proof.
  unfold Combined.next. intros H0. apply find_smallest_one_flag in H0 as [H0 _]. exact H0.
Qed.

Lemma do_call_flag o (c c' : combined_sstables_reader R) :
  do_call o c = Some c' -> Combined._eof c' = Combined._eof c.
Proof.
  destruct o; simpl; [apply positioned_flag..|apply next_flag].
Qed.

Lemma run_flag calls (c c' : combined_sstables_reader R) :
  run calls c = Some c' -> Combined._eof c' = Combined._eof c.
Proof.
  revert c. induction calls as [|o rest IH]; intros c; simpl.
  - intros H0. injection H0 as <-. reflexivity.
  - destruct (do_call o c) as [c1|] eqn:E; [|discriminate].
    intros H0. rewrite (IH _ H0). exact (do_call_flag _ _ _ E).
Qed.

(** The caller's loop "while not eof" does not end on a reader whose
    flag [_eof] is not set. *)
Lemma iterate_never_ends n (c : combined_sstables_reader R) :
  Combined._eof c = false -> snd (iterate n c) = false.
Proof.
  revert c. induction n as [|n IH]; intros c Hc; simpl.
  - rewrite eof_is_flag. exact Hc.
  - rewrite eof_is_flag, Hc.
    destruct (Combined.next c) as [c'|] eqn:E; [|reflexivity].
    specialize (IH c'). rewrite (next_flag _ _ E) in IH. specialize (IH Hc).
    destruct (iterate n c') as [keys ended]. exact IH.
Qed.

End generic.

(** C2, on the code: after any sequence of positioning and [next]
    calls on a combined reader, [eof()] returns false, also when every
    sub-cursor is exhausted: [all_eof] starts as [false], and the flag
    [_eof] is set only for a null [_current], which [find_smallest_one]
    never leaves. *)
Theorem eof_never_true {R : Type} `{reader_impl R}
    (sstables : list R) (calls : list call) (c : combined_sstables_reader R) :
  run calls (make_combined_sstables_reader sstables) = Some c ->
  Combined.eof c = false.
Proof.
  intros Hrun. rewrite eof_is_flag. rewrite (run_flag _ _ _ Hrun). reflexivity.
Qed.

(** A combined reader over the one empty block, after [seek_to_first]:
    its only sub-cursor is exhausted and [eof()] is false. *)
Lemma eof_never_true_witness :
  exists c,
    run [call_seek_to_first]
        (make_combined_sstables_reader [make_block_reader empty_block]) = Some c /\
    all_exhausted c = true /\ Combined.eof c = false.
Proof.
  eexists. split; [vm_compute; reflexivity|]. split; [vm_compute; reflexivity|].
  apply (eof_never_true [make_block_reader empty_block] [call_seek_to_first]).
  vm_compute. reflexivity.
Defined.

(** C1, on the code, for the tables [T1 = [a, c, e]] and
    [T2 = [b, d, f]]: after [seek_to_first], the iteration reads
    [a, b, c, d, e] and then [e] again and again, since the exhausted
    sub-cursor keeps its last key and [find_smallest_one] still chooses
    it; [f] is never read, and the loop "while not eof" never ends. *)
Theorem merge_ace_bdf :
  exists c,
    Combined.seek_to_first
      (make_combined_sstables_reader
         [make_block_reader block_ace; make_block_reader block_bdf]) = Some c /\
    fst (iterate 8 c)
      = map Some [[97]; [98]; [99]; [100]; [101]; [101]; [101]; [101]] /\
    forall n, snd (iterate n c) = false.
Proof.
  eexists. split; [vm_compute; reflexivity|]. split; [vm_compute; reflexivity|].
  intros n. apply iterate_never_ends. reflexivity.
Qed.

End CombinedProps.

(* ================================================================= *)
(** * Part VI: properties of [open_sstable] *)
(* ================================================================= *)

Module OpenProps.
Import Table Table.Open.

Section open_sstable.
Variable kEncodedLength : Z.
Variable footer : Type.
Variable decode_from : list Z -> option footer.
Variable index_handle : footer -> Z * Z.
Variable metaindex_handle : footer -> Z * Z.
Variable sstable_options : Type.
Variable sstable_cache : Type.
Variable block_cache : Type.
Variable cache_find : string -> sstable_cache -> option (rep sstable_options).
Variable cache_insert : rep sstable_options -> sstable_cache -> sstable_cache.
Variable find_and_create : Z * Z -> list Z -> block_cache -> block * block_cache.
Variable read_exactly : list Z -> Z -> Z -> option (list Z).
Variable read_meta : rep sstable_options -> Z * Z -> option (option (list Z)).

Let open_sized :=
  open_sized kEncodedLength footer decode_from index_handle metaindex_handle
    sstable_options sstable_cache block_cache cache_insert find_and_create
    read_exactly read_meta.
Let open_sstable :=
  open_sstable kEncodedLength footer decode_from index_handle metaindex_handle
    sstable_options sstable_cache block_cache cache_find cache_insert
    find_and_create read_exactly read_meta.

Lemma open_sized_short file_ opts c :
  Z.of_nat (length file_) < kEncodedLength -> open_sized file_ opts c = (None, c).
Proof.
  intros Hlt. unfold open_sized, Open.open_sized.
  rewrite (proj2 (Z.ltb_lt _ _) Hlt). reflexivity.
Qed.

Lemma open_sized_failure file_ opts c :
  fst (open_sized file_ opts c) = None ->
  _table_cache _ _ (snd (open_sized file_ opts c)) = _table_cache _ _ c.
Proof.
  unfold open_sized, Open.open_sized.
  repeat match goal with
  | |- context [if ?x then _ else _] => destruct x
  | |- context [match ?x with Some _ => _ | None => _ end] => destruct x
  | |- context [let '(_, _) := ?x in _] => destruct x
  end; simpl; intros; try discriminate; reflexivity.
Qed.

(** C6, as the code has it: when the table cache does not hold the
    path, [open_sstable] on a file shorter than the footer fails, with
    the [io_exception] that its [handle_exception] raises for every
    failure, and leaves both caches as they were; and whenever
    [open_sstable] fails, the error is that one and the table cache is
    unchanged. *)
Theorem open_sstable_failure fs fname opts c :
  (forall file_,
     fs fname = Some file_ ->
     cache_find fname (_table_cache _ _ c) = None ->
     Z.of_nat (length file_) < kEncodedLength ->
     open_sstable fs fname opts c = (failed io_error, c)) /\
  (forall e,
     fst (open_sstable fs fname opts c) = failed e ->
     e = io_error /\
     _table_cache _ _ (snd (open_sstable fs fname opts c)) = _table_cache _ _ c).
Proof.
  split.
  - intros file_ Hf Hc Hlt. unfold open_sstable, Open.open_sstable.
    rewrite Hf, Hc. fold open_sized. rewrite (open_sized_short _ _ _ Hlt). reflexivity.
  - intros e. unfold open_sstable, Open.open_sstable.
    destruct (fs fname) as [file_|].
    2: { simpl. intros H0. injection H0 as <-. split; reflexivity. }
    destruct (cache_find fname (_table_cache _ _ c)); [discriminate|].
    fold open_sized. pose proof (open_sized_failure file_ opts c) as Hk.
    destruct (open_sized file_ opts c) as [[t|] c']; simpl in *; [discriminate|].
    intros H0. injection H0 as <-. split; [reflexivity|]. apply Hk. reflexivity.
Qed.

End open_sstable.

(** The file of [footer_length - 1] zero bytes, with empty caches. *)
Lemma open_sstable_failure_witness :
  sample_open sample_fs "short.sst" tt sample_caches = (failed io_error, sample_caches).
Proof.
  apply (proj1 (open_sstable_failure footer_length unit (fun _ => None)
                  (fun _ => (0, 0)) (fun _ => (0, 0)) unit (list (rep unit)) unit
                  (fun _ _ => None) (fun t c => t :: c)
                  (fun _ d bc => (mk_block d, bc))
                  (fun f off n => Some (slice f off n))
                  (fun _ _ => Some None)
                  sample_fs "short.sst" tt sample_caches) short_file).
  - reflexivity.
  - reflexivity.
  - vm_compute. reflexivity.
Defined.

(** C6 as stated fails on the error: the open of the file of
    [footer_length - 1] zero bytes does not fail with [corrupt_format]. *)
Lemma open_sstable_not_corrupt_format :
  Z.of_nat (length short_file) = footer_length - 1 /\
  Forall (fun byte => byte = 0) short_file /\
  fst (sample_open sample_fs "short.sst" tt sample_caches) = failed io_error /\
  fst (sample_open sample_fs "short.sst" tt sample_caches) <> failed corrupt_format.
Proof.
  split; [vm_compute; reflexivity|]. split; [apply Forall_forall; intros x Hx;
    apply list_elem_of_In, repeat_spec in Hx; exact Hx|].
  split; [vm_compute; reflexivity|]. vm_compute. discriminate.
Qed.

End OpenProps.

(* ================================================================= *)
(** * Part VII: further properties of [redis::sset_lsa] *)
(* ================================================================= *)

Module SsetMore.
Import Sset SsetProps.

(** ** [sset_entry::compare] is a strict total order *)

Lemma compare_impl_nil_r k : compare_impl k "" = false.
Proof. destruct k; reflexivity. Qed.

Lemma compare_impl_trans a b c :
  compare_impl a b = true -> compare_impl b c = true -> compare_impl a c = true.
Proof.
  revert b c. induction a as [|x a IH]; intros [|y b] [|z c] H1 H2;
    try reflexivity; try discriminate;
    try (rewrite compare_impl_nil_r in H1; discriminate);
    try (rewrite compare_impl_nil_r in H2; discriminate).
  destruct (Nat.eq_dec (nat_of_ascii x) (nat_of_ascii y)) as [E1|E1];
    destruct (Nat.eq_dec (nat_of_ascii y) (nat_of_ascii z)) as [E2|E2].
  - apply nat_of_ascii_inj in E1, E2. subst y z.
    rewrite compare_impl_cons_eq in *. eapply IH; eauto.
  - apply nat_of_ascii_inj in E1. subst y. rewrite compare_impl_cons_eq in H1.
    rewrite compare_impl_cons_ne in * by assumption. exact H2.
  - apply nat_of_ascii_inj in E2. subst z. rewrite compare_impl_cons_eq in H2.
    rewrite compare_impl_cons_ne in * by assumption. exact H1.
  - rewrite compare_impl_cons_ne in H1, H2 by assumption.
    apply Z.ltb_lt in H1, H2.
    rewrite compare_impl_cons_ne by lia. apply Z.ltb_lt. lia.
Qed.

Lemma compare_impl_prefix a c t : compare_impl a (a ++ String c t) = true.
Proof.
  induction a as [|x a IH]; [reflexivity|].
  change (compare_impl (String x a) (String x (a ++ String c t)) = true).
  rewrite compare_impl_cons_eq. exact IH.
Qed.

(** X1: The order of the dictionary: [compare_impl] is irreflexive and
    transitive, two keys of which neither is below the other are the
    same bytes, and a key is above each of its proper prefixes. *)
Theorem compare_impl_strict_total_order :
  (forall k, compare_impl k k = false) /\
  (forall a b c, compare_impl a b = true -> compare_impl b c = true ->
                 compare_impl a c = true) /\
  (forall a b, compare_impl a b = false -> compare_impl b a = false -> a = b) /\
  (forall a c t, compare_impl a (a ++ String c t) = true).
Proof.
  split; [exact compare_impl_irrefl|]. split; [exact compare_impl_trans|].
  split; [exact compare_impl_equiv | exact compare_impl_prefix].
Qed.

(** ** States whose containers link the same entries *)

Lemma key_of_keyed s k p : dict_keyed s -> _dict s !! k = Some p -> key_of s p = k.
Proof.
  intros Hk Hp. destruct (Hk _ _ Hp) as (e & He & <-).
  unfold key_of, entry_of. rewrite He. reflexivity.
Qed.

Lemma dict_keyed_inj s k1 k2 p :
  dict_keyed s -> _dict s !! k1 = Some p -> _dict s !! k2 = Some p -> k1 = k2.
Proof.
  intros Hk H1 H2. rewrite <- (key_of_keyed _ _ _ Hk H1). apply key_of_keyed; auto.
Qed.

Lemma linked_allocated s p : linked s -> p ∈ _list s -> is_Some (objs s !! p).
Proof.
  intros L Hp. apply (linked_same _ L) in Hp as [k Hk].
  destruct (linked_keyed _ L _ _ Hk) as (e & He & _). eauto.
Qed.

Lemma linked_empty : linked sset_empty.
Proof.
  constructor.
  - intros k p Hp. simpl in Hp. rewrite lookup_empty in Hp. discriminate.
  - intros p. simpl. split.
    + intros Hp. inversion Hp.
    + intros [k Hk]. rewrite lookup_empty in Hk. discriminate.
  - constructor.
Qed.

(** The test [linkedb] is sound. *)
Lemma linkedb_sound s : linkedb s = true -> linked s.
Proof.
  unfold linkedb. intros H.
  apply andb_prop in H as [H Hnd]. apply andb_prop in H as [Hd Hl].
  rewrite forallb_forall in Hd, Hl. apply bool_decide_eq_true_1 in Hnd.
  assert (Hd' : forall k p, _dict s !! k = Some p ->
            (exists e, objs s !! p = Some e /\ _key e = k) /\ p ∈ _list s).
  { intros k p Hp. apply elem_of_map_to_list in Hp.
    apply list_elem_of_In in Hp. apply Hd in Hp. simpl in Hp.
    apply andb_prop in Hp as [H1 H2]. apply bool_decide_eq_true_1 in H2.
    destruct (objs s !! p) as [e|]; [|discriminate].
    apply bool_decide_eq_true_1 in H1. split; [exists e; auto | exact H2]. }
  constructor.
  - intros k p Hp. apply Hd', Hp.
  - intros p. split.
    + intros Hp. apply list_elem_of_In, Hl in Hp. apply bool_decide_eq_true_1 in Hp. eauto.
    + intros [k Hk]. apply (Hd' _ _ Hk).
  - exact Hnd.
Qed.

Lemma sortedb_sound s : sortedb s = true -> sorted s.
Proof.
  unfold sortedb. intros H. apply andb_prop in H as [H1 H2]. split; [exact H1|].
  rewrite forallb_forall in H2. apply Forall_forall. intros x Hx.
  apply H2, list_elem_of_In, Hx.
Qed.

(** In such a state [dict.size() == list.size()]. *)
Lemma linked_sizes s : linked s -> sizes_agree s.
Proof.
  intros L. unfold sizes_agree.
  transitivity (length ((map_to_list (_dict s)).*2)).
  { rewrite length_fmap, length_map_to_list. reflexivity. }
  apply Permutation_length, NoDup_Permutation.
  - apply NoDup_fmap_2_strong; [|apply NoDup_map_to_list].
    intros [k1 p1] [k2 p2] H1 H2 E. simpl in E. subst p2.
    apply elem_of_map_to_list in H1, H2.
    f_equal. exact (dict_keyed_inj _ _ _ _ (linked_keyed _ L) H1 H2).
  - exact (linked_nodup _ L).
  - intros p. rewrite (linked_same _ L p). split.
    + intros Hp. apply list_elem_of_fmap in Hp as ([k q] & -> & Hkq).
      apply elem_of_map_to_list in Hkq. eauto.
    + intros [k Hk]. apply list_elem_of_fmap. exists (k, p). split; [reflexivity|].
      apply elem_of_map_to_list, Hk.
Qed.

(** *** The list *)

Lemma elem_of_list_erase p q l : q ∈ list_erase p l <-> q ∈ l /\ q <> p.
Proof.
  unfold list_erase. rewrite !list_elem_of_In, filter_In.
  rewrite negb_true_iff, Nat.eqb_neq. reflexivity.
Qed.

Lemma NoDup_list_erase p l : NoDup l -> NoDup (list_erase p l).
Proof. rewrite !NoDup_ListNoDup. apply List.NoDup_filter. Qed.

Lemma insert_ordered_perm e s :
  Permutation (e :: _list s) (_list (snd (insert_ordered e s))).
Proof.
  destruct (insert_ordered_split e s) as (l1 & l2 & Hl & -> & _). simpl.
  rewrite Hl. apply Permutation_middle.
Qed.

Lemma insert_ordered_objs e s : objs (snd (insert_ordered e s)) = objs s.
Proof. apply insert_ordered_frame. Qed.

Lemma insert_ordered_dict e s : _dict (snd (insert_ordered e s)) = _dict s.
Proof. apply insert_ordered_frame. Qed.

(** *** Scores of sublists *)

Lemma non_decreasing_cons_intro a l :
  Forall (fun x => (a <=? x)%float = true) l -> non_decreasing l = true ->
  non_decreasing (a :: l) = true.
Proof.
  intros Hall Hl. destruct l as [|b l]; [reflexivity|].
  inversion Hall as [|? ? Hab _]; subst.
  change (((a <=? b)%float && non_decreasing (b :: l)) = true).
  rewrite Hab, Hl. reflexivity.
Qed.

Lemma non_decreasing_filter (f : nat -> float) (P : nat -> bool) l :
  non_decreasing (map f l) = true ->
  non_decreasing (map f (List.filter P l)) = true.
Proof.
  induction l as [|a l IH]; intros H; [reflexivity|].
  pose proof (non_decreasing_head_le _ _ H) as Hh.
  pose proof (non_decreasing_tail _ _ H) as Ht. specialize (IH Ht).
  simpl. destruct (P a); [|exact IH].
  simpl. apply non_decreasing_cons_intro; [|exact IH].
  rewrite Forall_forall in Hh. apply Forall_forall. intros x Hx.
  apply Hh. apply list_elem_of_fmap in Hx as (q & -> & Hq).
  apply list_elem_of_fmap. exists q. split; [reflexivity|].
  apply list_elem_of_In, filter_In in Hq as [Hq _]. apply list_elem_of_In, Hq.
Qed.

Lemma Forall_map_filter (Q : float -> Prop) (f : nat -> float) (P : nat -> bool) l :
  Forall Q (map f l) -> Forall Q (map f (List.filter P l)).
Proof.
  rewrite !Forall_forall. intros H x Hx.
  apply list_elem_of_fmap in Hx as (q & -> & Hq).
  apply H, list_elem_of_fmap. exists q. split; [reflexivity|].
  apply list_elem_of_In, filter_In in Hq as [Hq _]. apply list_elem_of_In, Hq.
Qed.

Lemma map_score_ext s s' l :
  (forall q, q ∈ l -> objs s' !! q = objs s !! q) ->
  map (score_of s') l = map (score_of s) l.
Proof.
  intros H. apply map_ext_in. intros q Hq. unfold score_of, entry_of.
  rewrite H by (apply list_elem_of_In, Hq). reflexivity.
Qed.

(** ** The three steps of the mutations *)

(** *** [relink] *)

Lemma relink_list it sc s :
  Permutation (it :: list_erase it (_list s)) (_list (relink it sc s)).
Proof.
  unfold relink.
  apply (insert_ordered_perm it
           (update_score it sc (set_list (list_erase it (_list s)) s))).
Qed.

Lemma relink_objs it sc s :
  objs (relink it sc s) = alter (fun e => mk_entry (_key e) sc) it (objs s).
Proof. unfold relink. rewrite insert_ordered_objs. reflexivity. Qed.

Lemma relink_dict it sc s : _dict (relink it sc s) = _dict s.
Proof. unfold relink. rewrite insert_ordered_dict. reflexivity. Qed.

Lemma relink_linked it sc s k :
  linked s -> _dict s !! k = Some it -> linked (relink it sc s).
Proof.
  intros L Hk.
  assert (Hin : it ∈ _list s) by (apply (linked_same _ L); eauto).
  constructor.
  - intros k' p Hp. rewrite relink_dict in Hp. rewrite relink_objs.
    destruct (linked_keyed _ L _ _ Hp) as (e & He & Hke).
    destruct (decide (it = p)) as [->|Hne].
    + rewrite lookup_alter_eq, He. simpl. eexists. split; [reflexivity | exact Hke].
    + rewrite lookup_alter_ne by exact Hne. eauto.
  - intros p. rewrite relink_dict, <- (linked_same _ L p).
    rewrite <- (relink_list it sc s), elem_of_cons, elem_of_list_erase.
    split.
    + intros [->|[Hp _]]; assumption.
    + intros Hp. destruct (decide (p = it)); auto.
  - rewrite <- (relink_list it sc s). apply NoDup_cons. split.
    + rewrite elem_of_list_erase. intros [_ Hne]. congruence.
    + apply NoDup_list_erase, (linked_nodup _ L).
Qed.

Lemma relink_score it sc s k k' :
  linked s -> _dict s !! k = Some it ->
  score k' (relink it sc s) = if decide (k' = k) then Some sc else score k' s.
Proof.
  intros L Hk. unfold score. rewrite relink_dict.
  destruct (decide (k' = k)) as [->|Hne].
  - rewrite Hk. f_equal. unfold score_of, entry_of. rewrite relink_objs.
    destruct (linked_keyed _ L _ _ Hk) as (e & He & _).
    rewrite lookup_alter_eq, He. reflexivity.
  - destruct (_dict s !! k') as [p|] eqn:Hp; [|reflexivity].
    f_equal. unfold score_of, entry_of. rewrite relink_objs.
    rewrite lookup_alter_ne; [reflexivity|].
    intros ->. apply Hne. exact (dict_keyed_inj _ _ _ _ (linked_keyed _ L) Hp Hk).
Qed.

Lemma relink_size it sc s k :
  linked s -> _dict s !! k = Some it -> size (relink it sc s) = size s.
Proof.
  intros L Hk. pose proof (linked_sizes _ (relink_linked it sc s k L Hk)) as H1.
  pose proof (linked_sizes _ L) as H2. unfold sizes_agree, size in *.
  rewrite <- H1, <- H2, relink_dict. reflexivity.
Qed.

Lemma relink_sorted it sc s :
  is_Some (objs s !! it) -> sorted s -> not_nan sc -> sorted (relink it sc s).
Proof.
  intros [en Hen] [Hnd Hnn] Hsc. unfold relink.
  set (s0 := update_score it sc (set_list (list_erase it (_list s)) s)).
  assert (Hsc0 : list_scores s0 = map (score_of s) (list_erase it (_list s))).
  { unfold list_scores. change (_list s0) with (list_erase it (_list s)).
    apply map_score_ext. intros q Hq. apply elem_of_list_erase in Hq as [_ Hne].
    simpl. apply lookup_alter_ne. congruence. }
  assert (Hit : score_of s0 it = sc).
  { unfold score_of, entry_of. simpl. rewrite lookup_alter_eq, Hen. reflexivity. }
  assert (Hnd0 : non_decreasing (list_scores s0) = true).
  { rewrite Hsc0. apply non_decreasing_filter, Hnd. }
  assert (Hnn0 : Forall not_nan (list_scores s0)).
  { rewrite Hsc0. apply Forall_map_filter, Hnn. }
  split.
  - apply insert_ordered_sorted; [exact Hnd0 | exact Hnn0 | rewrite Hit; exact Hsc].
  - unfold list_scores.
    erewrite (map_score_ext s0) by (intros; rewrite insert_ordered_objs; reflexivity).
    rewrite <- (insert_ordered_perm it s0). simpl.
    constructor; [rewrite Hit; exact Hsc | exact Hnn0].
Qed.

(** *** [insert_new] of a key that is not present *)

Lemma insert_list e s : _list (snd (insert e s)) = _list (snd (insert_ordered e s)).
Proof.
  unfold insert. destruct (insert_ordered e s) as [ok s1]. destruct ok; [|reflexivity].
  unfold dict_insert. destruct (_dict s1 !! key_of s1 e); reflexivity.
Qed.

Lemma insert_new_eq key sc s :
  insert_new key sc s
  = insert (fst (construct key sc s)) (snd (construct key sc s)).
Proof. reflexivity. Qed.

Lemma fresh_not_allocated (s : sset_lsa) : objs s !! fresh (dom (objs s)) = None.
Proof. apply not_elem_of_dom, is_fresh. Qed.

Lemma insert_new_facts key sc s :
  _dict s !! key = None ->
  let e := fresh (dom (objs s)) in
  fst (insert_new key sc s) = true /\
  _dict (snd (insert_new key sc s)) = <[key := e]> (_dict s) /\
  objs (snd (insert_new key sc s)) = <[e := mk_entry key sc]> (objs s) /\
  Permutation (e :: _list s) (_list (snd (insert_new key sc s))).
Proof.
  intros Hn. cbv zeta. rewrite insert_new_eq.
  destruct (insert_absent key sc s Hn) as (Ht & Hd & Ho & _).
  split; [exact Ht|]. split; [exact Hd|]. split; [exact Ho|].
  rewrite insert_list.
  apply (insert_ordered_perm (fst (construct key sc s)) (snd (construct key sc s))).
Qed.

Lemma insert_new_linked key sc s :
  linked s -> _dict s !! key = None -> linked (snd (insert_new key sc s)).
Proof.
  intros L Hn. destruct (insert_new_facts key sc s Hn) as (_ & Hd & Ho & Hl).
  pose proof (fresh_not_allocated s) as Hf.
  set (e := fresh (dom (objs s))) in *.
  assert (He : e ∉ _list s).
  { intros Hin. destruct (linked_allocated _ _ L Hin) as [x Hx]. congruence. }
  constructor.
  - intros k p Hp. rewrite Hd in Hp. rewrite Ho.
    destruct (decide (key = k)) as [->|Hne].
    + rewrite lookup_insert_eq in Hp. injection Hp as <-.
      rewrite lookup_insert_eq. eexists. split; reflexivity.
    + rewrite lookup_insert_ne in Hp by exact Hne.
      destruct (linked_keyed _ L _ _ Hp) as (x & Hx & Hk).
      rewrite lookup_insert_ne by congruence. eauto.
  - intros p. rewrite <- Hl, elem_of_cons, (linked_same _ L p), Hd. split.
    + intros [->|[k Hk]].
      * exists key. apply lookup_insert_eq.
      * exists k. rewrite lookup_insert_ne by congruence. exact Hk.
    + intros [k Hk]. destruct (decide (key = k)) as [->|Hne].
      * rewrite lookup_insert_eq in Hk. injection Hk as <-. left. reflexivity.
      * rewrite lookup_insert_ne in Hk by exact Hne. right. eauto.
  - rewrite <- Hl. apply NoDup_cons. split; [exact He | exact (linked_nodup _ L)].
Qed.

Lemma insert_new_score key sc s k' :
  linked s -> _dict s !! key = None ->
  score k' (snd (insert_new key sc s))
  = if decide (k' = key) then Some sc else score k' s.
Proof.
  intros L Hn. destruct (insert_new_facts key sc s Hn) as (_ & Hd & Ho & _).
  pose proof (fresh_not_allocated s) as Hf.
  unfold score. rewrite Hd. destruct (decide (k' = key)) as [->|Hne].
  - rewrite lookup_insert_eq. f_equal. unfold score_of, entry_of.
    rewrite Ho, lookup_insert_eq. reflexivity.
  - rewrite lookup_insert_ne by congruence.
    destruct (_dict s !! k') as [p|] eqn:Hp; [|reflexivity].
    f_equal. unfold score_of, entry_of. rewrite Ho.
    rewrite lookup_insert_ne; [reflexivity|].
    intros <-. destruct (linked_keyed _ L _ _ Hp) as (x & Hx & _). congruence.
Qed.

Lemma insert_new_size key sc s :
  _dict s !! key = None -> size (snd (insert_new key sc s)) = S (size s).
Proof.
  intros Hn. destruct (insert_new_facts key sc s Hn) as (_ & _ & _ & Hl).
  unfold size. rewrite <- Hl. reflexivity.
Qed.

Lemma insert_new_sorted key sc s :
  linked s -> _dict s !! key = None -> sorted s -> not_nan sc ->
  sorted (snd (insert_new key sc s)).
Proof.
  intros L Hn [Hnd Hnn] Hsc. rewrite insert_new_eq.
  pose proof (fresh_not_allocated s) as Hf.
  set (e := fst (construct key sc s)). set (s1 := snd (construct key sc s)).
  assert (He : e ∉ _list s).
  { intros Hin. destruct (linked_allocated _ _ L Hin) as [x Hx].
    unfold e in Hx. simpl in Hx. congruence. }
  assert (Hsc1 : list_scores s1 = list_scores s).
  { unfold list_scores. change (_list s1) with (_list s).
    apply map_score_ext. intros q Hq. simpl.
    apply lookup_insert_ne. intros E. apply He. unfold e. simpl. rewrite E. exact Hq. }
  assert (Hit : score_of s1 e = sc).
  { unfold score_of, entry_of, s1, e. rewrite objs_construct. reflexivity. }
  assert (Hobjs : objs (snd (insert e s1)) = objs s1).
  { unfold insert. pose proof (insert_ordered_objs e s1) as Ho.
    destruct (insert_ordered e s1) as [ok s2]. simpl in Ho.
    destruct ok; [|exact Ho]. unfold dict_insert.
    destruct (_dict s2 !! key_of s2 e); exact Ho. }
  assert (Hls : list_scores (snd (insert e s1))
                = list_scores (snd (insert_ordered e s1))).
  { unfold list_scores. rewrite insert_list. apply map_score_ext.
    intros q _. rewrite Hobjs, insert_ordered_objs. reflexivity. }
  unfold sorted. rewrite Hls. split.
  - apply insert_ordered_sorted; rewrite ?Hsc1, ?Hit; assumption.
  - unfold list_scores.
    erewrite (map_score_ext s1) by (intros; rewrite insert_ordered_objs; reflexivity).
    rewrite <- (insert_ordered_perm e s1). simpl.
    constructor; [rewrite Hit; exact Hsc|].
    change (Forall not_nan (list_scores s1)). rewrite Hsc1. exact Hnn.
Qed.

(** *** [erase_node] *)

Lemma dict_erase_delete s k p :
  dict_keyed s -> _dict s !! k = Some p -> dict_erase p (_dict s) = delete k (_dict s).
Proof.
  intros Hkd Hk. apply map_eq. intros k'. apply option_eq. intros q.
  unfold dict_erase. rewrite map_lookup_filter_Some, lookup_delete_Some. simpl.
  split.
  - intros [Hq Hne]. split; [|exact Hq]. intros <-. congruence.
  - intros [Hne Hq]. split; [exact Hq|]. intros ->.
    apply Hne. exact (dict_keyed_inj _ _ _ _ Hkd Hk Hq).
Qed.

Lemma erase_node_dict s k p :
  dict_keyed s -> _dict s !! k = Some p ->
  _dict (erase_node p s) = delete k (_dict s).
Proof. intros Hkd Hk. simpl. apply dict_erase_delete; assumption. Qed.

Lemma erase_node_linked k p s :
  linked s -> _dict s !! k = Some p -> linked (erase_node p s).
Proof.
  intros L Hk. pose proof (erase_node_dict s k p (linked_keyed _ L) Hk) as Hd.
  constructor.
  - intros k' q Hq. rewrite Hd in Hq. apply lookup_delete_Some in Hq as [Hne Hq].
    destruct (linked_keyed _ L _ _ Hq) as (x & Hx & Hkx).
    exists x. split; [|exact Hkx]. simpl. rewrite lookup_delete_ne; [exact Hx|].
    intros ->. apply Hne. exact (dict_keyed_inj _ _ _ _ (linked_keyed _ L) Hk Hq).
  - intros q. rewrite Hd. change (_list (erase_node p s)) with (list_erase p (_list s)).
    rewrite elem_of_list_erase, (linked_same _ L q). split.
    + intros [[k' Hk'] Hne]. exists k'. apply lookup_delete_Some. split; [|exact Hk'].
      intros ->. congruence.
    + intros [k' Hk']. apply lookup_delete_Some in Hk' as [Hne Hk'].
      split; [eauto|]. intros ->.
      apply Hne. exact (dict_keyed_inj _ _ _ _ (linked_keyed _ L) Hk Hk').
  - apply NoDup_list_erase, (linked_nodup _ L).
Qed.

Lemma erase_node_score k p s k' :
  linked s -> _dict s !! k = Some p ->
  score k' (erase_node p s) = if decide (k' = k) then None else score k' s.
Proof.
  intros L Hk. unfold score.
  rewrite (erase_node_dict s k p (linked_keyed _ L) Hk).
  destruct (decide (k' = k)) as [->|Hne].
  - rewrite lookup_delete_eq. reflexivity.
  - rewrite lookup_delete_ne by congruence.
    destruct (_dict s !! k') as [q|] eqn:Hq; [|reflexivity].
    f_equal. unfold score_of, entry_of. simpl.
    rewrite lookup_delete_ne; [reflexivity|].
    intros ->. apply Hne. exact (dict_keyed_inj _ _ _ _ (linked_keyed _ L) Hq Hk).
Qed.

Lemma erase_node_size k p s :
  linked s -> _dict s !! k = Some p -> S (size (erase_node p s)) = size s.
Proof.
  intros L Hk. pose proof (linked_sizes _ (erase_node_linked k p s L Hk)) as H1.
  pose proof (linked_sizes _ L) as H2. unfold sizes_agree, size in *.
  rewrite <- H1, <- H2, (erase_node_dict s k p (linked_keyed _ L) Hk).
  rewrite map_size_delete, Hk.
  assert (stdpp.base.size (_dict s) <> O).
  { intros E. apply map_size_empty_inv in E. rewrite E, lookup_empty in Hk. discriminate. }
  lia.
Qed.

Lemma erase_node_sorted p s : sorted s -> sorted (erase_node p s).
Proof.
  intros [Hnd Hnn].
  assert (Hsc : list_scores (erase_node p s)
                = map (score_of s) (list_erase p (_list s))).
  { unfold list_scores. change (_list (erase_node p s)) with (list_erase p (_list s)).
    apply map_score_ext. intros q Hq. apply elem_of_list_erase in Hq as [_ Hne].
    simpl. apply lookup_delete_ne. congruence. }
  unfold sorted. rewrite Hsc. split.
  - apply non_decreasing_filter, Hnd.
  - apply Forall_map_filter, Hnn.
Qed.

(** ** The loops, step by step *)

Lemma insert_if_not_exists_step key sc rest s :
  insert_if_not_exists ((key, sc) :: rest) s =
  match _dict s !! key with
  | None =>
      (S (fst (insert_if_not_exists rest (snd (insert_new key sc s)))),
       snd (insert_if_not_exists rest (snd (insert_new key sc s))))
  | Some _ => insert_if_not_exists rest s
  end.
Proof.
  rewrite insert_if_not_exists_cons. destruct (_dict s !! key) eqn:Hd; [reflexivity|].
  pose proof (insert_new_facts key sc s Hd) as (Ht & _).
  rewrite insert_new_eq in *. unfold construct in *. cbv beta iota zeta in *.
  simpl fst in *. simpl snd in *.
  match goal with |- context [insert ?e ?s1] => destruct (insert e s1) as [ok s2] end.
  simpl in Ht. subst ok. simpl snd.
  destruct (insert_if_not_exists rest s2); reflexivity.
Qed.

Lemma update_if_only_exists_step key sc rest s :
  update_if_only_exists ((key, sc) :: rest) s =
  match _dict s !! key with
  | Some it =>
      (S (fst (update_if_only_exists rest (relink it sc s))),
       snd (update_if_only_exists rest (relink it sc s)))
  | None => update_if_only_exists rest s
  end.
Proof.
  simpl. destruct (_dict s !! key) as [it|]; [|reflexivity].
  unfold relink.
  match goal with |- context [insert_ordered it ?s0] =>
    pose proof (insert_ordered_true it s0) as Ht;
    destruct (insert_ordered it s0) as [ok s3] end.
  simpl in Ht. subst ok. simpl snd.
  destruct (update_if_only_exists rest s3); reflexivity.
Qed.

Lemma insert_or_update_members_step key sc rest s :
  insert_or_update_members ((key, sc) :: rest) s =
  let s2 := match _dict s !! key with
            | Some it => relink it sc s
            | None => snd (insert_new key sc s)
            end in
  (S (fst (insert_or_update_members rest s2)),
   snd (insert_or_update_members rest s2)).
Proof.
  simpl. destruct (_dict s !! key) as [it|] eqn:Hd.
  - unfold relink, update.
    change (set_list (list_erase it (_list (update_score it sc s))) (update_score it sc s))
      with (update_score it sc (set_list (list_erase it (_list s)) s)).
    match goal with |- context [insert_ordered it ?s0] =>
      pose proof (insert_ordered_true it s0) as Ht;
      destruct (insert_ordered it s0) as [ok s3] end.
    simpl in Ht. subst ok. simpl snd.
    destruct (insert_or_update_members rest s3); reflexivity.
  - pose proof (insert_new_facts key sc s Hd) as (Ht & _).
    rewrite insert_new_eq in *. unfold construct in *. cbv beta iota zeta in *.
    simpl fst in *. simpl snd in *.
    match goal with |- context [insert ?e ?s1] => destruct (insert e s1) as [ok s2] end.
    simpl in Ht. subst ok. simpl snd.
    destruct (insert_or_update_members rest s2); reflexivity.
Qed.

Lemma update_score_key_step key delta s :
  update_score_key key delta s =
  match _dict s !! key with
  | Some it => (true, relink it delta s)
  | None => (false, s)
  end.
Proof.
  unfold update_score_key, relink. destruct (_dict s !! key) as [it|]; [|reflexivity].
  match goal with |- context [insert_ordered it ?s0] =>
    pose proof (insert_ordered_true it s0) as Ht;
    destruct (insert_ordered it s0) as [ok s3] end.
  simpl in Ht. subst ok. reflexivity.
Qed.

Lemma insert_or_update_step key delta s :
  insert_or_update key delta s =
  match _dict s !! key with
  | Some it => ((delta + score_of s it)%float, relink it (delta + score_of s it) s)
  | None => (delta, snd (insert_new key delta s))
  end.
Proof.
  unfold insert_or_update. destruct (_dict s !! key) as [it|]; reflexivity.
Qed.

Lemma erase_keys_step key rest s :
  erase_keys (key :: rest) s =
  match _dict s !! key with
  | Some dit =>
      (S (fst (erase_keys rest (erase_node dit s))),
       snd (erase_keys rest (erase_node dit s)))
  | None => erase_keys rest s
  end.
Proof.
  simpl. destruct (_dict s !! key) as [dit|]; [|reflexivity].
  match goal with |- context [erase_keys rest ?s0] =>
    change (erase_node dit s) with s0; destruct (erase_keys rest s0) end.
  reflexivity.
Qed.

Lemma erase_entries_loop_step p rest s :
  erase_entries_loop (p :: rest) s = erase_entries_loop rest (erase_node p s).
Proof. reflexivity. Qed.

(** ** [insert_if_not_exists] *)

Lemma present_members_ext members s s' :
  (forall k, k ∈ members.*1 -> is_Some (_dict s' !! k) <-> is_Some (_dict s !! k)) ->
  present_members members s' = present_members members s.
Proof.
  induction members as [|[key sc] rest IH]; intros H; [reflexivity|].
  rewrite !present_members_cons.
  assert (Hrest : present_members rest s' = present_members rest s).
  { apply IH. intros k Hk. apply H. rewrite fmap_cons. right. exact Hk. }
  specialize (H key). rewrite fmap_cons in H. specialize (H ltac:(left)).
  destruct (_dict s !! key) as [p|], (_dict s' !! key) as [p'|]; rewrite ?Hrest;
    try reflexivity.
  - destruct (proj2 H ltac:(eauto)) as [? ?]. discriminate.
  - destruct (proj1 H ltac:(eauto)) as [? ?]. discriminate.
Qed.

Lemma insert_new_present key sc s k :
  _dict s !! key = None -> k <> key ->
  is_Some (_dict (snd (insert_new key sc s)) !! k) <-> is_Some (_dict s !! k).
Proof.
  intros Hn Hne. destruct (insert_new_facts key sc s Hn) as (_ & -> & _).
  rewrite lookup_insert_ne by congruence. reflexivity.
Qed.

(** X3: [insert_if_not_exists(members)] on a set whose containers link the
    same entries, for members with distinct keys (the keys of a
    [std::unordered_map]): the count returned is the number of members
    whose key was absent; afterwards a member's key has the score it
    had before when it was present, and the member's score otherwise;
    the keys that are not named keep their scores; the size has grown
    by the count. *)
Theorem insert_if_not_exists_keeps_present
    (members : list (string * float)) (s : sset_lsa) :
  linked s -> NoDup members.*1 ->
  (fst (insert_if_not_exists members s) + length (present_members members s)
   = length members)%nat /\
  (forall k sc, (k, sc) ∈ members ->
     score k (snd (insert_if_not_exists members s))
     = Some (default sc (score k s))) /\
  (forall k, k ∉ members.*1 ->
     score k (snd (insert_if_not_exists members s)) = score k s) /\
  size (snd (insert_if_not_exists members s))
  = (size s + fst (insert_if_not_exists members s))%nat.
Proof.
  revert s. induction members as [|[key sc] rest IH]; intros s L Hnd.
  - simpl. split; [reflexivity|]. split; [|split; [reflexivity | lia]].
    intros k sc Hin. inversion Hin.
  - rewrite fmap_cons in Hnd. apply NoDup_cons in Hnd as [Hkey Hnd].
    rewrite insert_if_not_exists_step, present_members_cons.
    destruct (_dict s !! key) as [p|] eqn:Hd.
    + destruct (IH s L Hnd) as (H1 & H2 & H3 & H4).
      split; [simpl; simpl in H1; lia|]. split; [|split; [|exact H4]].
      * intros k sc' Hin. apply elem_of_cons in Hin as [E|Hin]; [|apply H2, Hin].
        injection E as -> ->. rewrite (H3 key Hkey). unfold score. rewrite Hd.
        reflexivity.
      * intros k Hk. apply H3. intros Hin. apply Hk. rewrite fmap_cons. right. exact Hin.
    + pose proof (insert_new_linked key sc s L Hd) as L2.
      destruct (IH _ L2 Hnd) as (H1 & H2 & H3 & H4).
      assert (Hpm : present_members rest (snd (insert_new key sc s))
                    = present_members rest s).
      { apply present_members_ext. intros k Hk. apply insert_new_present; [exact Hd|].
        intros ->. exact (Hkey Hk). }
      rewrite Hpm in H1. simpl fst. simpl snd.
      split; [simpl; lia|]. split; [|split].
      * intros k sc' Hin. apply elem_of_cons in Hin as [E|Hin].
        -- injection E as -> ->. rewrite (H3 key Hkey).
           rewrite (insert_new_score key sc s key L Hd).
           rewrite decide_True by reflexivity. unfold score. rewrite Hd. reflexivity.
        -- rewrite (H2 _ _ Hin). rewrite (insert_new_score key sc s k L Hd).
           rewrite decide_False; [reflexivity|].
           intros ->. apply Hkey. apply list_elem_of_fmap. exists (key, sc'). auto.
      * intros k Hk. rewrite fmap_cons in Hk. rewrite H3.
        -- rewrite (insert_new_score key sc s k L Hd).
           rewrite decide_False; [reflexivity|]. intros ->. apply Hk. left.
        -- intros Hin. apply Hk. right. exact Hin.
      * rewrite H4, (insert_new_size key sc s Hd). lia.
Qed.

(** The members [b] and [zz] on [{(a,1), (b,2), (c,3)}]. *)
Lemma insert_if_not_exists_keeps_present_witness :
  fst (insert_if_not_exists [("b", 9.0%float); ("zz", 0.5%float)] abc_state) = 1%nat /\
  score "b" (snd (insert_if_not_exists [("b", 9.0%float); ("zz", 0.5%float)] abc_state))
  = Some 2.0%float /\
  score "zz" (snd (insert_if_not_exists [("b", 9.0%float); ("zz", 0.5%float)] abc_state))
  = Some 0.5%float.
Proof.
  assert (L : linked abc_state) by (apply linkedb_sound; vm_compute; reflexivity).
  assert (Hnd : NoDup ([("b", 9.0%float); ("zz", 0.5%float)].*1))
    by (refine (bool_decide_eq_true_1 _ _); vm_compute; reflexivity).
  destruct (insert_if_not_exists_keeps_present
              [("b", 9.0%float); ("zz", 0.5%float)] abc_state L Hnd)
    as (_ & Hs & _ & _).
  split; [vm_compute; reflexivity|]. split.
  - rewrite (Hs "b" 9.0%float) by (left). vm_compute. reflexivity.
  - rewrite (Hs "zz" 0.5%float) by (right; left). vm_compute. reflexivity.
Defined.

(** ** [insert_or_update(members)] *)

(** X4: [insert_or_update(members)] returns the number of members,
    whatever the set holds; on a set whose containers link the same
    entries, for members with distinct keys, every member's key then
    has the member's score, and the keys that are not named keep
    theirs. *)
Theorem insert_or_update_members_sets
    (members : list (string * float)) (s : sset_lsa) :
  linked s -> NoDup members.*1 ->
  fst (insert_or_update_members members s) = length members /\
  (forall k sc, (k, sc) ∈ members ->
     score k (snd (insert_or_update_members members s)) = Some sc) /\
  (forall k, k ∉ members.*1 ->
     score k (snd (insert_or_update_members members s)) = score k s).
Proof.
  revert s. induction members as [|[key sc] rest IH]; intros s L Hnd.
  - simpl. split; [reflexivity|]. split; [|reflexivity].
    intros k sc Hin. inversion Hin.
  - rewrite fmap_cons in Hnd. apply NoDup_cons in Hnd as [Hkey Hnd].
    rewrite insert_or_update_members_step. cbv zeta.
    set (s2 := match _dict s !! key with
               | Some it => relink it sc s
               | None => snd (insert_new key sc s)
               end).
    assert (L2 : linked s2).
    { unfold s2. destruct (_dict s !! key) as [it|] eqn:Hd.
      - exact (relink_linked it sc s key L Hd).
      - exact (insert_new_linked key sc s L Hd). }
    assert (Hsc : forall k, score k s2 = if decide (k = key) then Some sc else score k s).
    { intros k. unfold s2. destruct (_dict s !! key) as [it|] eqn:Hd.
      - exact (relink_score it sc s key k L Hd).
      - exact (insert_new_score key sc s k L Hd). }
    destruct (IH s2 L2 Hnd) as (H1 & H2 & H3). simpl fst. simpl snd.
    split; [simpl; rewrite H1; reflexivity|]. split.
    + intros k sc' Hin. apply elem_of_cons in Hin as [E|Hin]; [|apply H2, Hin].
      injection E as -> ->. rewrite (H3 key Hkey), Hsc.
      rewrite decide_True by reflexivity. reflexivity.
    + intros k Hk. rewrite fmap_cons in Hk. rewrite H3, Hsc.
      * rewrite decide_False; [reflexivity|]. intros ->. apply Hk. left.
      * intros Hin. apply Hk. right. exact Hin.
Qed.

(** The members [b] and [zz] on [{(a,1), (b,2), (c,3)}]. *)
Lemma insert_or_update_members_sets_witness :
  fst (insert_or_update_members [("b", 9.0%float); ("zz", 0.5%float)] abc_state) = 2%nat /\
  score "b" (snd (insert_or_update_members [("b", 9.0%float); ("zz", 0.5%float)] abc_state))
  = Some 9.0%float /\
  score "a" (snd (insert_or_update_members [("b", 9.0%float); ("zz", 0.5%float)] abc_state))
  = Some 1.0%float.
Proof.
  assert (L : linked abc_state) by (apply linkedb_sound; vm_compute; reflexivity).
  assert (Hnd : NoDup ([("b", 9.0%float); ("zz", 0.5%float)].*1))
    by (refine (bool_decide_eq_true_1 _ _); vm_compute; reflexivity).
  destruct (insert_or_update_members_sets
              [("b", 9.0%float); ("zz", 0.5%float)] abc_state L Hnd)
    as (Hc & Hs & Ho).
  split; [exact Hc|]. split.
  - apply Hs. left.
  - rewrite Ho; [vm_compute; reflexivity|].
    refine (bool_decide_eq_true_1 _ _). vm_compute. reflexivity.
Defined.

(** ** [update_score(key, delta)] *)

(** X8: [update_score(key, delta)] on a set whose containers link the same
    entries: for a key that is present it returns true and the score of
    the key is then [delta] itself (the score is set, nothing is
    added); for a key that is absent it returns false and changes
    nothing; the other keys keep their scores and the size stays. *)
Theorem update_score_key_sets (key : bytes) (delta : float) (s : sset_lsa) :
  linked s ->
  match score key s with
  | Some _ =>
      fst (update_score_key key delta s) = true /\
      score key (snd (update_score_key key delta s)) = Some delta
  | None => update_score_key key delta s = (false, s)
  end /\
  (forall k, k <> key -> score k (snd (update_score_key key delta s)) = score k s) /\
  size (snd (update_score_key key delta s)) = size s.
Proof.
  intros L. rewrite update_score_key_step. unfold score at 1.
  destruct (_dict s !! key) as [it|] eqn:Hd.
  - simpl fst. simpl snd. split; [split; [reflexivity|]|split].
    + rewrite (relink_score it delta s key key L Hd).
      rewrite decide_True by reflexivity. reflexivity.
    + intros k Hk. rewrite (relink_score it delta s key k L Hd).
      rewrite decide_False by exact Hk. reflexivity.
    + exact (relink_size it delta s key L Hd).
  - split; [reflexivity|]. split; reflexivity.
Qed.

(** [update_score("a", 2.5)] on [{(a,1), (b,2), (c,3)}]. *)
Lemma update_score_key_sets_witness :
  fst (update_score_key "a" 2.5%float abc_state) = true /\
  score "a" (snd (update_score_key "a" 2.5%float abc_state)) = Some 2.5%float /\
  rank "a" (snd (update_score_key "a" 2.5%float abc_state)) = Some 1%nat.
Proof.
  assert (L : linked abc_state) by (apply linkedb_sound; vm_compute; reflexivity).
  destruct (update_score_key_sets "a" 2.5%float abc_state L) as (H & _ & _).
  change (score "a" abc_state) with (Some 1.0%float) in H.
  destruct H as [H1 H2]. split; [exact H1|]. split; [exact H2|].
  vm_compute. reflexivity.
Defined.

(** ** [erase(keys)] *)

(** X9: [erase(keys)] on a set whose containers link the same entries: the
    count returned is the number of entries removed (the size shrinks
    by it); afterwards none of the keys is present, and the keys that
    are not named keep their scores. *)
Theorem erase_keys_removes (keys : list string) (s : sset_lsa) :
  linked s ->
  (size (snd (erase_keys keys s)) + fst (erase_keys keys s) = size s)%nat /\
  (forall k, k ∈ keys -> score k (snd (erase_keys keys s)) = None) /\
  (forall k, k ∉ keys -> score k (snd (erase_keys keys s)) = score k s).
Proof.
  revert s. induction keys as [|key rest IH]; intros s L.
  - simpl. split; [lia|]. split; [|reflexivity]. intros k Hin. inversion Hin.
  - rewrite erase_keys_step. destruct (_dict s !! key) as [dit|] eqn:Hd.
    + pose proof (erase_node_linked key dit s L Hd) as L2.
      destruct (IH _ L2) as (H1 & H2 & H3). simpl fst. simpl snd.
      pose proof (erase_node_size key dit s L Hd) as Hsz.
      split; [lia|]. split.
      * intros k Hin. destruct (decide (k ∈ rest)) as [Hr|Hr]; [apply H2, Hr|].
        apply elem_of_cons in Hin as [->|Hin]; [|contradiction].
        rewrite (H3 key Hr), (erase_node_score key dit s key L Hd).
        rewrite decide_True by reflexivity. reflexivity.
      * intros k Hk. rewrite H3 by (intros Hin; apply Hk; right; exact Hin).
        rewrite (erase_node_score key dit s k L Hd).
        rewrite decide_False; [reflexivity|]. intros ->. apply Hk. left.
    + destruct (IH s L) as (H1 & H2 & H3). split; [exact H1|]. split.
      * intros k Hin. destruct (decide (k ∈ rest)) as [Hr|Hr]; [apply H2, Hr|].
        apply elem_of_cons in Hin as [->|Hin]; [|contradiction].
        rewrite (H3 key Hr). unfold score. rewrite Hd. reflexivity.
      * intros k Hk. apply H3. intros Hin. apply Hk. right. exact Hin.
Qed.

(** [erase(["c", "zz", "c"])] on [{(a,1), (b,2), (c,3)}]. *)
Lemma erase_keys_removes_witness :
  fst (erase_keys ["c"; "zz"; "c"] abc_state) = 1%nat /\
  size (snd (erase_keys ["c"; "zz"; "c"] abc_state)) = 2%nat /\
  score "c" (snd (erase_keys ["c"; "zz"; "c"] abc_state)) = None.
Proof.
  assert (L : linked abc_state) by (apply linkedb_sound; vm_compute; reflexivity).
  destruct (erase_keys_removes ["c"; "zz"; "c"] abc_state L) as (_ & Hs & _).
  split; [vm_compute; reflexivity|]. split; [vm_compute; reflexivity|].
  apply Hs. left.
Defined.

(** ** What the mutations keep *)

Lemma insert_if_not_exists_inv members s :
  linked s ->
  linked (snd (insert_if_not_exists members s)) /\
  (sorted s -> Forall (fun kv => not_nan kv.2) members ->
   sorted (snd (insert_if_not_exists members s))).
Proof.
  revert s. induction members as [|[key sc] rest IH]; intros s L; [split; auto|].
  rewrite insert_if_not_exists_step. destruct (_dict s !! key) as [p|] eqn:Hd.
  - destruct (IH s L) as [H1 H2]. split; [exact H1|].
    intros Hs Hn. apply H2; [exact Hs|]. inversion Hn; assumption.
  - destruct (IH _ (insert_new_linked key sc s L Hd)) as [H1 H2].
    split; [exact H1|]. intros Hs Hn. inversion Hn as [|? ? Hsc Hn']; subst.
    apply H2; [|exact Hn']. apply insert_new_sorted; assumption.
Qed.

Lemma update_if_only_exists_inv members s :
  linked s ->
  linked (snd (update_if_only_exists members s)) /\
  (sorted s -> Forall (fun kv => not_nan kv.2) members ->
   sorted (snd (update_if_only_exists members s))).
Proof.
  revert s. induction members as [|[key sc] rest IH]; intros s L; [split; auto|].
  rewrite update_if_only_exists_step. destruct (_dict s !! key) as [it|] eqn:Hd.
  - destruct (IH _ (relink_linked it sc s key L Hd)) as [H1 H2].
    split; [exact H1|]. intros Hs Hn. inversion Hn as [|? ? Hsc Hn']; subst.
    apply H2; [|exact Hn']. apply relink_sorted; [|assumption..].
    destruct (linked_keyed _ L _ _ Hd) as (e & He & _). eauto.
  - destruct (IH s L) as [H1 H2]. split; [exact H1|].
    intros Hs Hn. apply H2; [exact Hs|]. inversion Hn; assumption.
Qed.

Lemma insert_or_update_members_inv members s :
  linked s ->
  linked (snd (insert_or_update_members members s)) /\
  (sorted s -> Forall (fun kv => not_nan kv.2) members ->
   sorted (snd (insert_or_update_members members s))).
Proof.
  revert s. induction members as [|[key sc] rest IH]; intros s L; [split; auto|].
  rewrite insert_or_update_members_step. cbv zeta.
  destruct (_dict s !! key) as [it|] eqn:Hd.
  - destruct (IH _ (relink_linked it sc s key L Hd)) as [H1 H2].
    split; [exact H1|]. intros Hs Hn. inversion Hn as [|? ? Hsc Hn']; subst.
    apply H2; [|exact Hn']. apply relink_sorted; [|assumption..].
    destruct (linked_keyed _ L _ _ Hd) as (e & He & _). eauto.
  - destruct (IH _ (insert_new_linked key sc s L Hd)) as [H1 H2].
    split; [exact H1|]. intros Hs Hn. inversion Hn as [|? ? Hsc Hn']; subst.
    apply H2; [|exact Hn']. apply insert_new_sorted; assumption.
Qed.

Lemma erase_keys_inv keys s :
  linked s ->
  linked (snd (erase_keys keys s)) /\ (sorted s -> sorted (snd (erase_keys keys s))).
Proof.
  revert s. induction keys as [|key rest IH]; intros s L; [split; auto|].
  rewrite erase_keys_step. destruct (_dict s !! key) as [dit|] eqn:Hd.
  - destruct (IH _ (erase_node_linked key dit s L Hd)) as [H1 H2].
    split; [exact H1|]. intros Hs. apply H2, erase_node_sorted, Hs.
  - exact (IH s L).
Qed.

Lemma mutate_inv m s :
  linked s ->
  linked (mutate m s) /\ (sorted s -> writes_numbers m s -> sorted (mutate m s)).
Proof.
  intros L. destruct m as [members|members|key delta|members|key delta|keys]; simpl.
  - exact (insert_if_not_exists_inv members s L).
  - exact (update_if_only_exists_inv members s L).
  - rewrite insert_or_update_step. destruct (_dict s !! key) as [it|] eqn:Hd; simpl.
    + split; [exact (relink_linked it _ s key L Hd)|].
      intros Hs Hn. apply relink_sorted; [|assumption..].
      destruct (linked_keyed _ L _ _ Hd) as (e & He & _). eauto.
    + split; [exact (insert_new_linked key delta s L Hd)|].
      intros Hs Hn. apply insert_new_sorted; assumption.
  - exact (insert_or_update_members_inv members s L).
  - rewrite update_score_key_step. destruct (_dict s !! key) as [it|] eqn:Hd; simpl.
    + split; [exact (relink_linked it _ s key L Hd)|].
      intros Hs Hn. apply relink_sorted; [|assumption..].
      destruct (linked_keyed _ L _ _ Hd) as (e & He & _). eauto.
    + split; auto.
  - destruct (erase_keys_inv keys s L) as [H1 H2]. split; [exact H1|]. auto.
Qed.

(** X13: The mutations that look the key up first ([insert_if_not_exists],
    [update_if_only_exists], both [insert_or_update], [update_score]
    and [erase(keys)]) keep the two containers in step: after any
    sequence of them on a set whose dictionary and list link the same
    entries, each one once, they still do, and [dict.size() ==
    list.size()]. *)
Theorem mutations_keep_linked (ms : list mutation) (s : sset_lsa) :
  linked s ->
  linked (fold_left (fun s1 m => mutate m s1) ms s) /\
  sizes_agree (fold_left (fun s1 m => mutate m s1) ms s).
Proof.
  revert s. induction ms as [|m ms IH]; intros s L; simpl.
  - split; [exact L | exact (linked_sizes _ L)].
  - apply IH. apply (mutate_inv m s L).
Qed.

(** A sequence of all six mutations on the empty set. *)
Lemma mutations_keep_linked_witness :
  let ms := [m_insert_or_update_members [("a", 1.0%float); ("b", 2.0%float)];
             m_insert_if_not_exists [("b", 5.0%float); ("c", 3.0%float)];
             m_insert_or_update "a" 4.0%float;
             m_update_if_only_exists [("c", 0.5%float)];
             m_update_score "b" 7.0%float;
             m_erase_keys ["a"; "zz"]] in
  fetch_by_rank 0 5 (fold_left (fun s1 m => mutate m s1) ms sset_empty)
  = [("c", 0.5%float); ("b", 7.0%float)] /\
  sizes_agree (fold_left (fun s1 m => mutate m s1) ms sset_empty).
Proof.
  cbv zeta. split; [vm_compute; reflexivity|].
  apply (mutations_keep_linked _ sset_empty linked_empty).
Defined.

(** X14: The same mutations keep the score list in non-decreasing order, as
    long as the scores they write are numbers: the scores of the
    members, the new score of [update_score], and the sum that the
    increment [insert_or_update(key, delta)] returns. *)
Theorem mutation_keeps_sorted (m : mutation) (s : sset_lsa) :
  linked s -> sorted s -> writes_numbers m s -> sorted (mutate m s).
Proof. intros L Hs Hn. exact (proj2 (mutate_inv m s L) Hs Hn). Qed.

(** The increment of [b] by 2.5 on [{(a,1), (b,2), (c,3)}] moves [b]
    behind [c]. *)
Lemma mutation_keeps_sorted_witness :
  list_scores (mutate (m_insert_or_update "b" 2.5%float) abc_state)
  = [1.0%float; 3.0%float; 4.5%float] /\
  sorted (mutate (m_insert_or_update "b" 2.5%float) abc_state).
Proof.
  split; [vm_compute; reflexivity|].
  apply mutation_keeps_sorted.
  - apply linkedb_sound. vm_compute. reflexivity.
  - apply sortedb_sound. vm_compute. reflexivity.
  - vm_compute. reflexivity.
Defined.

(** ** [erase(key)] *)

Lemma dict_after_fold key (l : list (string * nat)) :
  match fold_right
          (fun kp acc =>
             if compare_impl key kp.1 then
               match acc with
               | Some best => if compare_impl kp.1 best.1 then Some kp else acc
               | None => Some kp
               end
             else acc) None l with
  | Some kp =>
      kp ∈ l /\ compare_impl key kp.1 = true /\
      forall kp', kp' ∈ l -> compare_impl key kp'.1 = true ->
                  compare_impl kp'.1 kp.1 = false
  | None => forall kp', kp' ∈ l -> compare_impl key kp'.1 = false
  end.
Proof.
  induction l as [|kp0 l IH]; simpl.
  - intros kp' Hin. inversion Hin.
  - destruct (fold_right _ None l) as [best|] eqn:Hf.
    + destruct IH as (Hin & Hb & Hleast).
      destruct (compare_impl key kp0.1) eqn:Hk0.
      * destruct (compare_impl kp0.1 best.1) eqn:Hlt.
        -- split; [left|]. split; [exact Hk0|].
           intros kp' Hin' Hk'. apply elem_of_cons in Hin' as [->|Hin'].
           ++ apply compare_impl_irrefl.
           ++ destruct (compare_impl kp'.1 kp0.1) eqn:Hc; [|reflexivity].
              rewrite <- (Hleast kp' Hin' Hk'). symmetry.
              eapply compare_impl_trans; eauto.
        -- split; [right; exact Hin|]. split; [exact Hb|].
           intros kp' Hin' Hk'. apply elem_of_cons in Hin' as [->|Hin'];
             [exact Hlt | apply Hleast; assumption].
      * split; [right; exact Hin|]. split; [exact Hb|].
        intros kp' Hin' Hk'. apply elem_of_cons in Hin' as [->|Hin'];
          [congruence | apply Hleast; assumption].
    + destruct (compare_impl key kp0.1) eqn:Hk0.
      * split; [left|]. split; [exact Hk0|].
        intros kp' Hin' Hk'. apply elem_of_cons in Hin' as [->|Hin'].
        -- apply compare_impl_irrefl.
        -- rewrite (IH kp' Hin') in Hk'. discriminate.
      * intros kp' Hin'. apply elem_of_cons in Hin' as [->|Hin'];
          [exact Hk0 | apply IH, Hin'].
Qed.

(** [dict_after key d] is the node of the least key of [d] above [key]. *)
Lemma dict_after_spec key (d : gmap string nat) :
  match dict_after key d with
  | Some (k', p') =>
      d !! k' = Some p' /\ compare_impl key k' = true /\
      forall k, is_Some (d !! k) -> compare_impl key k = true ->
                compare_impl k k' = false
  | None => forall k, is_Some (d !! k) -> compare_impl key k = false
  end.
Proof.
  unfold dict_after. pose proof (dict_after_fold key (map_to_list d)) as H.
  destruct (fold_right _ None (map_to_list d)) as [[k' p']|].
  - destruct H as (Hin & Hk & Hleast). apply elem_of_map_to_list in Hin.
    split; [exact Hin|]. split; [exact Hk|].
    intros k [p Hp] Hc. apply (Hleast (k, p)); [|exact Hc].
    apply elem_of_map_to_list, Hp.
  - intros k [p Hp]. apply (H (k, p)). apply elem_of_map_to_list, Hp.
Qed.

(** X11: [erase(key)] for a key that is present, on a set whose containers
    link the same entries.  The key leaves the dictionary.  What leaves
    the list, and is destroyed, is the entry of [removed], the iterator
    that [_dict.erase] returns: the node of the least key above [key].
    That key stays in the dictionary, on a destroyed entry, and the
    entry of [key] stays in the list.  When [key] is the greatest key,
    [removed] is [_dict.end()] and the list is left as it was.  Either
    way the containers no longer link the same entries. *)
Theorem erase_key_removes_next (key : bytes) (s : sset_lsa) (it : ptr) :
  linked s -> _dict s !! key = Some it ->
  exists s', erase_key key s = Some s' /\
    _dict s' = delete key (_dict s) /\ it ∈ _list s' /\
    objs s' !! it = objs s !! it /\ ~ linked s' /\
    match dict_after key (_dict s) with
    | Some (k', p') =>
        _dict s !! k' = Some p' /\ compare_impl key k' = true /\
        (forall k, is_Some (_dict s !! k) -> compare_impl key k = true ->
                   compare_impl k k' = false) /\
        _dict s' !! k' = Some p' /\ objs s' !! p' = None /\
        _list s' = list_erase p' (_list s)
    | None =>
        (forall k, is_Some (_dict s !! k) -> compare_impl key k = false) /\
        _list s' = _list s /\ objs s' = objs s
    end.
Proof.
  intros L Hk. unfold erase_key. rewrite Hk.
  pose proof (dict_after_spec key (_dict s)) as Ha.
  pose proof (dict_erase_delete s key it (linked_keyed _ L) Hk) as Hd.
  assert (Hin : it ∈ _list s) by (apply (linked_same _ L); eauto).
  destruct (dict_after key (_dict s)) as [[k' p']|].
  - destruct Ha as (Hk' & Hc & Hleast).
    assert (Hne : k' <> key).
    { intros ->. rewrite compare_impl_irrefl in Hc. discriminate. }
    assert (Hpne : p' <> it).
    { intros ->. apply Hne. exact (dict_keyed_inj _ _ _ _ (linked_keyed _ L) Hk' Hk). }
    eexists. split; [reflexivity|]. simpl.
    assert (Hk's : delete key (_dict s) !! k' = Some p').
    { rewrite lookup_delete_ne by congruence. exact Hk'. }
    split; [exact Hd|]. split; [apply elem_of_list_erase; auto|].
    split; [apply lookup_delete_ne; congruence|]. split.
    + intros L'. destruct (linked_keyed _ L' k' p') as (e & He & _).
      * simpl. rewrite Hd. exact Hk's.
      * simpl in He. rewrite lookup_delete_eq in He. discriminate.
    + split; [exact Hk'|]. split; [exact Hc|]. split; [exact Hleast|].
      split; [rewrite Hd; exact Hk's|]. split; [apply lookup_delete_eq | reflexivity].
  - eexists. split; [reflexivity|]. simpl.
    split; [exact Hd|]. split; [exact Hin|]. split; [reflexivity|]. split.
    + intros L'. apply (linked_same _ L') in Hin as [k Hk2]. simpl in Hk2.
      rewrite Hd in Hk2. apply lookup_delete_Some in Hk2 as [Hne Hk2].
      apply Hne. exact (dict_keyed_inj _ _ _ _ (linked_keyed _ L) Hk Hk2).
    + split; [exact Ha|]. split; reflexivity.
Qed.

(** [erase("a")] on [{(a,1), (b,2), (c,3)}]: [a] leaves the dictionary,
    the entry of [b] leaves the list and is destroyed, and [b] is still
    in the dictionary. *)
Lemma erase_key_removes_next_witness :
  exists s', erase_key "a" abc_state = Some s' /\
    _list s' = [0; 2]%nat /\ _dict s' !! "a" = None /\
    _dict s' !! "b" = Some 1%nat /\ objs s' !! 1%nat = None /\ ~ linked s'.
Proof.
  assert (L : linked abc_state) by (apply linkedb_sound; vm_compute; reflexivity).
  assert (Hk : _dict abc_state !! "a" = Some 0%nat) by (vm_compute; reflexivity).
  destruct (erase_key_removes_next "a" abc_state 0%nat L Hk)
    as (s' & He & _ & _ & _ & Hnl & _).
  exists s'. split; [exact He|].
  assert (Hs : Some s' = erase_key "a" abc_state) by (symmetry; exact He).
  vm_compute in Hs. injection Hs as Hs.
  split; [rewrite Hs; reflexivity|]. split; [rewrite Hs; vm_compute; reflexivity|].
  split; [rewrite Hs; vm_compute; reflexivity|].
  split; [rewrite Hs; vm_compute; reflexivity | exact Hnl].
Defined.

(** ** [flush_all] *)

Lemma flush_all_fold l s :
  _dict (fold_left (fun s1 p => destroy p s1) l s) = _dict s /\
  forall q, objs (fold_left (fun s1 p => destroy p s1) l s) !! q
            = if decide (q ∈ l) then None else objs s !! q.
Proof.
  revert s. induction l as [|p l IH]; intros s; cbn [fold_left].
  - split; [reflexivity|]. intros q. rewrite decide_False; [reflexivity|].
    intros H. inversion H.
  - destruct (IH (destroy p s)) as [Hd Ho]. split; [exact Hd|].
    intros q. rewrite Ho. change (objs (destroy p s)) with (delete p (objs s)).
    destruct (decide (q ∈ l)) as [Hl|Hl].
    + rewrite decide_True by (right; exact Hl). reflexivity.
    + destruct (decide (p = q)) as [->|Hne].
      * rewrite lookup_delete_eq, decide_True by left. reflexivity.
      * rewrite lookup_delete_ne by exact Hne.
        rewrite decide_False; [reflexivity|].
        intros H. apply elem_of_cons in H as [->|H]; [congruence | contradiction].
Qed.

(** X2: [flush_all()] empties the score list and destroys the entry of
    every node that was on it; it leaves the dictionary as it was.  On a
    set whose containers link the same entries, every node of the
    dictionary is then a destroyed entry, and with a member in the set
    [dict.size()] no longer equals [list.size()]. *)
Theorem flush_all_leaves_dict (s : sset_lsa) :
  linked s ->
  size (flush_all s) = O /\ _dict (flush_all s) = _dict s /\
  (forall k p, _dict s !! k = Some p -> objs (flush_all s) !! p = None) /\
  (forall p, p ∉ _list s -> objs (flush_all s) !! p = objs s !! p) /\
  (empty s = false -> ~ sizes_agree (flush_all s)).
Proof.
  intros L. destruct (flush_all_fold (_list s) s) as [Hd Ho].
  unfold flush_all. simpl. split; [reflexivity|]. split; [exact Hd|]. split; [|split].
  - intros k p Hp. rewrite Ho, decide_True; [reflexivity|].
    apply (linked_same _ L). eauto.
  - intros p Hp. rewrite Ho, decide_False by exact Hp. reflexivity.
  - intros He. unfold sizes_agree. simpl. rewrite Hd.
    pose proof (linked_sizes _ L) as Hs. unfold sizes_agree in Hs. rewrite Hs.
    unfold empty in He. destruct (_list s); [discriminate | simpl; lia].
Qed.

(** [flush_all()] on [{(a,1), (b,2), (c,3)}]. *)
Lemma flush_all_leaves_dict_witness :
  size (flush_all abc_state) = O /\
  _dict (flush_all abc_state) !! "b" = Some 1%nat /\
  objs (flush_all abc_state) !! 1%nat = None.
Proof.
  assert (L : linked abc_state) by (apply linkedb_sound; vm_compute; reflexivity).
  destruct (flush_all_leaves_dict abc_state L) as (Hs & Hd & Ho & _).
  assert (Hb : _dict abc_state !! "b" = Some 1%nat) by (vm_compute; reflexivity).
  split; [exact Hs|]. split; [rewrite Hd; exact Hb | exact (Ho "b" 1%nat Hb)].
Defined.

(** ** [fetch_by_rank], the overload that emits entry pointers *)

Lemma fetch_by_rank_loop_map s begin end_ l rank :
  fetch_by_rank_loop s begin end_ rank l
  = map (fun it => (key_of s it, score_of s it))
        (fetch_by_rank_entries_loop begin end_ rank l).
Proof.
  revert rank. induction l as [|it tl IH]; intros rank; simpl; [reflexivity|].
  destruct (rank <? begin); [apply IH|].
  destruct (rank >? end_); [reflexivity|]. simpl. rewrite IH. reflexivity.
Qed.

Lemma fetch_by_rank_entries_loop_run begin end_ l rank :
  fetch_by_rank_entries_loop begin end_ rank l
  = firstn (Z.to_nat (end_ + 1 - Z.max begin rank))
      (skipn (Z.to_nat (begin - rank)) l).
Proof.
  revert rank. induction l as [|it tl IH]; intros rank; simpl.
  - rewrite skipn_nil, firstn_nil. reflexivity.
  - destruct (Z.ltb_spec rank begin) as [Hlt|Hge].
    + rewrite IH.
      replace (Z.to_nat (begin - rank)) with (S (Z.to_nat (begin - (rank + 1)))) by lia.
      replace (Z.max begin (rank + 1)) with (Z.max begin rank) by lia.
      reflexivity.
    + replace (Z.to_nat (begin - rank)) with O by lia. simpl skipn.
      replace (Z.max begin rank) with rank by lia.
      destruct (Z.gtb_spec rank end_) as [Hgt|Hle].
      * replace (Z.to_nat (end_ + 1 - rank)) with O by lia. reflexivity.
      * replace (Z.to_nat (end_ + 1 - rank))
          with (S (Z.to_nat (end_ + 1 - (rank + 1)))) by lia.
        rewrite IH. simpl.
        replace (Z.to_nat (begin - (rank + 1))) with O by lia.
        replace (Z.max begin (rank + 1)) with (rank + 1) by lia.
        reflexivity.
Qed.

Lemma fetch_by_rank_entries_is_run begin end_ s :
  exists before after,
    _list s = before ++ fetch_by_rank_entries begin end_ s ++ after.
Proof.
  unfold fetch_by_rank_entries.
  assert (Hnil : exists before after : list nat, _list s = before ++ [] ++ after)
    by (exists [], (_list s); reflexivity).
  destruct (empty s); [exact Hnil|]. cbv zeta.
  repeat match goal with
         | |- exists _ _, _ = _ ++ (if ?c then [] else _) ++ _ =>
             destruct c; [exact Hnil|]
         end.
  rewrite fetch_by_rank_entries_loop_run.
  match goal with |- context [firstn ?n (skipn ?m (_list s))] =>
    exists (firstn m (_list s)), (skipn n (skipn m (_list s))) end.
  rewrite !firstn_skipn. reflexivity.
Qed.

(** X5: The two overloads of [fetch_by_rank] agree: the pairs that the one
    emits are the keys and scores of the entries that the other emits,
    in the same order; and those entries are one run of neighbours of
    the score list. *)
Theorem fetch_by_rank_overloads_agree (begin end_ : Z) (s : sset_lsa) :
  fetch_by_rank begin end_ s
  = map (fun it => (key_of s it, score_of s it)) (fetch_by_rank_entries begin end_ s) /\
  exists before after,
    _list s = before ++ fetch_by_rank_entries begin end_ s ++ after.
Proof.
  split.
  - unfold fetch_by_rank, fetch_by_rank_entries.
    destruct (empty s); [reflexivity|]. cbv zeta.
    repeat match goal with
           | |- (if ?c then [] else _) = map _ (if ?c then [] else _) =>
               destruct c; [reflexivity|]
           end.
    apply fetch_by_rank_loop_map.
  - apply fetch_by_rank_entries_is_run.
Qed.

(** ** [fetch_by_score] and [count_by_score] *)

Lemma SFltb_leb_trans a b c :
  SFltb a b = true -> SFleb b c = true -> SFltb a c = true.
Proof. FloatOrder.by_cases. Qed.

Lemma SFleb_ltb_trans a b c :
  SFleb a b = true -> SFltb b c = true -> SFltb a c = true.
Proof. FloatOrder.by_cases. Qed.

Lemma ltb_leb_trans (a b c : float) :
  (a <? b)%float = true -> (b <=? c)%float = true -> (a <? c)%float = true.
Proof. rewrite !FloatAxioms.ltb_spec, FloatAxioms.leb_spec. apply SFltb_leb_trans. Qed.

Lemma leb_ltb_trans (a b c : float) :
  (a <=? b)%float = true -> (b <? c)%float = true -> (a <? c)%float = true.
Proof. rewrite !FloatAxioms.ltb_spec, FloatAxioms.leb_spec. apply SFleb_ltb_trans. Qed.

Lemma filter_none {A} (f : A -> bool) l :
  Forall (fun x => f x = false) l -> List.filter f l = [].
Proof.
  induction l as [|x l IH]; intros H; [reflexivity|].
  inversion H as [|? ? Hx Hl]; subst. simpl. rewrite Hx. apply IH, Hl.
Qed.

Lemma last_cons_cons {A} (a b : A) l d : List.last (a :: b :: l) d = List.last (b :: l) d.
Proof. reflexivity. Qed.

Lemma last_elem_of {A} (a : A) l d : List.last (a :: l) d ∈ a :: l.
Proof.
  revert a. induction l as [|b l IH]; intros a; [left|].
  rewrite last_cons_cons. right. apply IH.
Qed.

(** On a list in non-decreasing score order, the score of every node is
    the score of the last node or is below it. *)
Lemma scores_below_last (f : nat -> float) l d p :
  non_decreasing (map f l) = true -> p ∈ l ->
  f p = f (List.last l d) \/ (f p <=? f (List.last l d))%float = true.
Proof.
  induction l as [|a l IH]; intros Hnd Hp; [inversion Hp|].
  destruct l as [|b l]; [apply list_elem_of_singleton in Hp as ->; left; reflexivity|].
  rewrite last_cons_cons.
  apply elem_of_cons in Hp as [->|Hp].
  - right. pose proof (non_decreasing_head_le _ _ Hnd) as Hh.
    rewrite Forall_forall in Hh.
    assert (Hin : f (List.last (b :: l) d) ∈ map f (b :: l)).
    { apply list_elem_of_fmap. exists (List.last (b :: l) d). split; [reflexivity|].
      apply last_elem_of. }
    exact (Hh _ Hin).
  - apply IH; [exact (non_decreasing_tail _ _ Hnd) | exact Hp].
Qed.

Lemma fetch_by_score_loop_run s min max limit l :
  non_decreasing (map (score_of s) l) = true ->
  forall entries,
  fetch_by_score_loop s min max limit l entries
  = entries ++ firstn (Nat.max 1 (limit - length entries))
                 (List.filter (score_in_range s min max) l).
Proof.
  induction l as [|it tl IH]; intros Hnd entries.
  - simpl. rewrite firstn_nil, app_nil_r. reflexivity.
  - pose proof (non_decreasing_tail _ _ Hnd) as Ht.
    pose proof (non_decreasing_head_le _ _ Hnd) as Hh.
    cbn [fetch_by_score_loop List.filter]. unfold score_in_range at 1.
    destruct (score_of s it <? min)%float eqn:Hlo; cbn [negb andb].
    + apply IH, Ht.
    + destruct (gtb (score_of s it) max) eqn:Hhi; cbn [negb].
      * rewrite filter_none; [rewrite firstn_nil, app_nil_r; reflexivity|].
        rewrite Forall_forall in Hh. apply Forall_forall. intros q Hq.
        unfold score_in_range, gtb in *.
        assert (Hin : score_of s q ∈ map (score_of s) tl)
          by (apply list_elem_of_fmap; eauto).
        rewrite (ltb_leb_trans _ _ _ Hhi (Hh _ Hin)).
        apply andb_false_r.
      * rewrite length_app. cbn [length].
        destruct (limit <=? length entries + 1)%nat eqn:Hlim.
        -- apply Nat.leb_le in Hlim.
           replace (Nat.max 1 (limit - length entries)) with 1%nat by lia.
           reflexivity.
        -- apply Nat.leb_gt in Hlim. rewrite (IH Ht), length_app. cbn [length].
           replace (Nat.max 1 (limit - length entries))
             with (S (limit - (length entries + 1))) by lia.
           replace (Nat.max 1 (limit - (length entries + 1)))
             with (limit - (length entries + 1))%nat by lia.
           cbn [firstn]. rewrite <- app_assoc. reflexivity.
Qed.

(** Where [score_out_of_range] holds on a list in score order, no node
    of the list is in the range. *)
Lemma score_out_of_range_none s min max :
  non_decreasing (list_scores s) = true ->
  score_out_of_range s min max = Some true ->
  List.filter (score_in_range s min max) (_list s) = [].
Proof.
  unfold score_out_of_range, list_scores. intros Hnd H.
  destruct (_list s) as [|first tl] eqn:Hl; [discriminate|].
  pose proof (scores_below_last (score_of s) (first :: tl) first) as Hlast.
  set (lst := List.last (first :: tl) first) in *.
  injection H as H. apply filter_none, Forall_forall. intros q Hq.
  unfold score_in_range, gtb in *. apply orb_prop in H as [H|H].
  - destruct (Hlast q Hnd Hq) as [E|Hle].
    + rewrite E, H. reflexivity.
    + rewrite (leb_ltb_trans _ _ _ Hle H). reflexivity.
  - apply elem_of_cons in Hq as [->|Hq].
    + rewrite H. apply andb_false_r.
    + pose proof (non_decreasing_head_le _ _ Hnd) as Hh.
      rewrite Forall_forall in Hh.
      assert (Hin : score_of s q ∈ map (score_of s) tl)
        by (apply list_elem_of_fmap; eauto).
      rewrite (ltb_leb_trans _ _ _ H (Hh _ Hin)).
      apply andb_false_r.
Qed.

Lemma fetch_by_score_run min max entries limit s :
  non_decreasing (list_scores s) = true ->
  fetch_by_score min max entries limit s
  = entries ++ firstn (Nat.max 1 ((if (limit =? 0)%nat then size s else limit)
                                  - length entries))
                 (List.filter (score_in_range s min max) (_list s)).
Proof.
  intros Hnd. unfold fetch_by_score.
  destruct (empty s) eqn:He.
  { unfold empty in He. destruct (_list s); [|discriminate].
    simpl. rewrite firstn_nil, app_nil_r. reflexivity. }
  destruct (score_out_of_range s min max) as [[|]|] eqn:Ho.
  - rewrite (score_out_of_range_none s min max Hnd Ho), firstn_nil, app_nil_r.
    reflexivity.
  - cbv zeta. apply fetch_by_score_loop_run. exact Hnd.
  - unfold score_out_of_range, empty in *. destruct (_list s); discriminate.
Qed.

Lemma fetch_by_score_all min max s :
  non_decreasing (list_scores s) = true ->
  fetch_by_score min max [] 0 s = List.filter (score_in_range s min max) (_list s).
Proof.
  intros Hnd. rewrite (fetch_by_score_run min max [] 0 s Hnd). simpl.
  rewrite Nat.sub_0_r. apply firstn_all2.
  pose proof (filter_length_le (score_in_range s min max) (_list s)). unfold size. lia.
Qed.

(** X6: [fetch_by_score(min, max, entries, limit)] on a set whose list is in
    non-decreasing score order: what it appends to [entries] are the
    nodes whose score is neither below [min] nor above [max], in list
    order, up to the node at which the vector holds [limit] entries
    ([limit == 0] stands for the size of the set).  The test comes
    after the [push_back], so one node is appended also to a vector
    that held [limit] entries already.  With an empty vector and no
    limit, the result is all nodes of the range. *)
Theorem fetch_by_score_range (min max : float) (entries : list nat) (limit : nat)
    (s : sset_lsa) :
  non_decreasing (list_scores s) = true ->
  fetch_by_score min max entries limit s
  = entries ++ firstn (Nat.max 1 ((if (limit =? 0)%nat then size s else limit)
                                  - length entries))
                 (List.filter (score_in_range s min max) (_list s)) /\
  fetch_by_score min max [] 0 s = List.filter (score_in_range s min max) (_list s).
Proof.
  intros Hnd. split; [apply fetch_by_score_run | apply fetch_by_score_all]; exact Hnd.
Qed.

(** The scores from 1.5 to 3 of [{(a,1), (b,2), (c,3)}]. *)
Lemma fetch_by_score_range_witness :
  fetch_by_score 1.5%float 3.0%float [] 0 abc_state = [1; 2]%nat /\
  fetch_by_score 1.0%float 3.0%float [] 2 abc_state = [0; 1]%nat.
Proof.
  assert (Hnd : non_decreasing (list_scores abc_state) = true)
    by (vm_compute; reflexivity).
  destruct (fetch_by_score_range 1.5%float 3.0%float [] 0 abc_state Hnd) as [_ H1].
  destruct (fetch_by_score_range 1.0%float 3.0%float [] 2 abc_state Hnd) as [H2 _].
  split; [rewrite H1 | rewrite H2]; vm_compute; reflexivity.
Defined.

Lemma count_by_score_loop_run s min max l :
  non_decreasing (map (score_of s) l) = true ->
  forall count,
  count_by_score_loop s min max l count
  = (count + length (List.filter (score_in_range s min max) l))%nat.
Proof.
  induction l as [|it tl IH]; intros Hnd count; [simpl; lia|].
  pose proof (non_decreasing_tail _ _ Hnd) as Ht.
  pose proof (non_decreasing_head_le _ _ Hnd) as Hh.
  cbn [count_by_score_loop List.filter]. unfold score_in_range at 1.
  destruct (score_of s it <? min)%float eqn:Hlo; cbn [negb andb].
  - apply IH, Ht.
  - destruct (gtb (score_of s it) max) eqn:Hhi; cbn [negb].
    + rewrite filter_none; [simpl; lia|].
      rewrite Forall_forall in Hh. apply Forall_forall. intros q Hq.
      unfold score_in_range, gtb in *.
      assert (Hin : score_of s q ∈ map (score_of s) tl)
          by (apply list_elem_of_fmap; eauto).
        rewrite (ltb_leb_trans _ _ _ Hhi (Hh _ Hin)).
      apply andb_false_r.
    + rewrite (IH Ht). simpl. lia.
Qed.

(** X10: [count_by_score(min, max)] on a set with [dict.size() ==
    list.size()] and the list in non-decreasing score order: the count
    is the number of nodes whose score is neither below [min] nor above
    [max], which is the number of entries that [fetch_by_score] emits
    for the same range with no limit. *)
Theorem count_by_score_counts (min max : float) (s : sset_lsa) :
  sizes_agree s -> non_decreasing (list_scores s) = true ->
  count_by_score min max s
  = Some (length (List.filter (score_in_range s min max) (_list s))) /\
  count_by_score min max s = Some (length (fetch_by_score min max [] 0 s)).
Proof.
  intros Hsz Hnd.
  assert (H : count_by_score min max s
              = Some (length (List.filter (score_in_range s min max) (_list s)))).
  { unfold count_by_score. unfold sizes_agree in Hsz.
    destruct (bool_decide (stdpp.base.size (_dict s) = O)) eqn:Hd.
    - apply bool_decide_eq_true_1 in Hd. rewrite Hd in Hsz.
      destruct (_list s); [reflexivity | discriminate].
    - apply bool_decide_eq_false_1 in Hd.
      destruct (score_out_of_range s min max) as [[|]|] eqn:Ho.
      + rewrite (score_out_of_range_none s min max Hnd Ho). reflexivity.
      + rewrite (count_by_score_loop_run s min max (_list s) Hnd). reflexivity.
      + unfold score_out_of_range in Ho. destruct (_list s); [|discriminate].
        simpl in Hsz. contradiction. }
  split; [exact H|]. rewrite H.
  rewrite (fetch_by_score_all min max s Hnd). reflexivity.
Qed.

(** The scores from 1.5 to 3 of [{(a,1), (b,2), (c,3)}]. *)
Lemma count_by_score_counts_witness :
  count_by_score 1.5%float 3.0%float abc_state = Some 2%nat.
Proof.
  assert (Hsz : sizes_agree abc_state) by (vm_compute; reflexivity).
  assert (Hnd : non_decreasing (list_scores abc_state) = true)
    by (vm_compute; reflexivity).
  rewrite (proj1 (count_by_score_counts 1.5%float 3.0%float abc_state Hsz Hnd)).
  vm_compute. reflexivity.
Defined.

(** ** [fetch_by_key] and the two bulk [erase] overloads *)

Lemma fetch_by_key_ext keys s s' :
  (forall k, k ∈ keys -> _dict s' !! k = _dict s !! k) ->
  fetch_by_key keys s' = fetch_by_key keys s.
Proof.
  induction keys as [|key rest IH]; intros H; [reflexivity|].
  simpl. rewrite (H key) by left.
  rewrite IH by (intros k Hk; apply H; right; exact Hk). reflexivity.
Qed.

Lemma fetch_by_key_keys keys s :
  dict_keyed s ->
  key_of s <$> fetch_by_key keys s
  = List.filter (fun k => bool_decide (is_Some (_dict s !! k))) keys.
Proof.
  intros Hk. induction keys as [|key rest IH]; [reflexivity|].
  simpl. destruct (_dict s !! key) as [it|] eqn:Hd.
  - rewrite bool_decide_eq_true_2 by eauto. rewrite fmap_cons, IH.
    rewrite (key_of_keyed s key it Hk Hd). reflexivity.
  - rewrite bool_decide_eq_false_2 by (intros [? ?]; discriminate). exact IH.
Qed.

(** X7: [fetch_by_key] emits the entries of the keys that are present, in
    the order of the keys, and skips the others; for distinct keys,
    erasing the entries that it emits with [erase(entries)] is
    [erase(keys)]: the same count and the same set. *)
Theorem erase_keys_by_entries (keys : list string) (s : sset_lsa) :
  linked s -> NoDup keys ->
  key_of s <$> fetch_by_key keys s
  = List.filter (fun k => bool_decide (is_Some (_dict s !! k))) keys /\
  erase_entries (fetch_by_key keys s) s = erase_keys keys s.
Proof.
  intros L Hnd. split; [apply fetch_by_key_keys, (linked_keyed _ L)|].
  revert s L. induction keys as [|key rest IH]; intros s L; [reflexivity|].
  apply NoDup_cons in Hnd as [Hkey Hnd]. specialize (IH Hnd).
  rewrite erase_keys_step. cbn [fetch_by_key].
  destruct (_dict s !! key) as [dit|] eqn:Hd; [|apply IH, L].
  pose proof (erase_node_linked key dit s L Hd) as L2.
  specialize (IH _ L2).
  assert (Hf : fetch_by_key rest (erase_node dit s) = fetch_by_key rest s).
  { apply fetch_by_key_ext. intros k Hk.
    rewrite (erase_node_dict s key dit (linked_keyed _ L) Hd).
    apply lookup_delete_ne. intros ->. exact (Hkey Hk). }
  rewrite Hf in IH. unfold erase_entries in *. rewrite erase_entries_loop_step.
  rewrite <- IH. reflexivity.
Qed.

(** The keys [c], [zz] and [a] on [{(a,1), (b,2), (c,3)}]. *)
Lemma erase_keys_by_entries_witness :
  fetch_by_key ["c"; "zz"; "a"] abc_state = [2; 0]%nat /\
  erase_entries [2; 0]%nat abc_state = erase_keys ["c"; "zz"; "a"] abc_state.
Proof.
  assert (L : linked abc_state) by (apply linkedb_sound; vm_compute; reflexivity).
  assert (Hnd : NoDup ["c"; "zz"; "a"])
    by (refine (bool_decide_eq_true_1 _ _); vm_compute; reflexivity).
  split; [vm_compute; reflexivity|].
  exact (proj2 (erase_keys_by_entries ["c"; "zz"; "a"] abc_state L Hnd)).
Defined.

(** ** [rank] *)

Lemma rank_loop_index p l r :
  p ∈ l -> exists i, rank_loop p l r = (r + i)%nat /\ l !! i = Some p.
Proof.
  revert r. induction l as [|a l IH]; intros r Hp; [inversion Hp|].
  simpl. destruct (a =? p)%nat eqn:E.
  - apply Nat.eqb_eq in E. subst a. exists O. split; [lia | reflexivity].
  - apply elem_of_cons in Hp as [->|Hp]; [rewrite Nat.eqb_refl in E; discriminate|].
    destruct (IH (S r) Hp) as (i & Hi & Hl). exists (S i). split; [lia | exact Hl].
Qed.

Lemma lookup_run {A} (l : list A) i p :
  l !! i = Some p -> firstn 1 (skipn i l) = [p].
Proof.
  revert i. induction l as [|a l IH]; intros [|i] H; try discriminate.
  - injection H as ->. reflexivity.
  - apply (IH i H).
Qed.

(** X12: [rank(key)] and [score(key)] for a key that is present, on a set
    whose containers link the same entries: the rank is the position of
    the key's entry in the score list, below [size()]; and when the
    rank [r] is at least 1, [fetch_by_rank(r, r)] emits exactly that
    member with its score. *)
Theorem rank_is_position (key : bytes) (s : sset_lsa) :
  linked s -> is_Some (_dict s !! key) ->
  exists i sc,
    rank key s = Some i /\ score key s = Some sc /\ (i < size s)%nat /\
    (key_of s <$> _list s) !! i = Some key /\
    ((1 <= i)%nat -> fetch_by_rank (Z.of_nat i) (Z.of_nat i) s = [(key, sc)]).
Proof.
  intros L [p Hp]. unfold rank, score. rewrite Hp.
  assert (Hin : p ∈ _list s) by (apply (linked_same _ L); eauto).
  destruct (rank_loop_index p (_list s) O Hin) as (i & Hi & Hl). simpl in Hi.
  exists i, (score_of s p). split; [rewrite Hi; reflexivity|]. split; [reflexivity|].
  assert (Hlt : (i < size s)%nat) by (apply lookup_lt_Some in Hl; exact Hl).
  split; [exact Hlt|]. split.
  - rewrite list_lookup_fmap, Hl. simpl.
    rewrite (key_of_keyed s key p (linked_keyed _ L) Hp). reflexivity.
  - intros Hi1. rewrite fetch_by_rank_spec. cbv zeta.
    assert (He : empty s = false).
    { unfold empty, size in *. destruct (_list s); [simpl in Hlt; lia | reflexivity]. }
    rewrite He. rewrite (proj2 (Z.ltb_ge (Z.of_nat i) 0)) by lia.
    rewrite Z.max_r by lia.
    replace (Z.of_nat i >? Z.of_nat i) with false
      by (symmetry; rewrite Z.gtb_ltb; apply Z.ltb_irrefl).
    replace (Z.of_nat i <=? 0) with false by (symmetry; apply Z.leb_gt; lia).
    simpl orb. cbv iota.
    replace (Z.to_nat (Z.of_nat i + 1 - Z.of_nat i)) with 1%nat by lia.
    rewrite Nat2Z.id, (lookup_run _ _ _ Hl). simpl.
    rewrite (key_of_keyed s key p (linked_keyed _ L) Hp). reflexivity.
Qed.

(** The rank of [c] in [{(a,1), (b,2), (c,3)}] is 2. *)
Lemma rank_is_position_witness :
  rank "c" abc_state = Some 2%nat /\
  fetch_by_rank 2 2 abc_state = [("c", 3.0%float)].
Proof.
  assert (L : linked abc_state) by (apply linkedb_sound; vm_compute; reflexivity).
  assert (Hp : is_Some (_dict abc_state !! "c")) by (vm_compute; eauto).
  destruct (rank_is_position "c" abc_state L Hp) as (i & sc & Hr & Hs & _ & _ & Hf).
  assert (Hi : i = 2%nat) by (vm_compute in Hr; congruence).
  assert (Hsc : sc = 3.0%float) by (vm_compute in Hs; congruence).
  subst i sc. split; [exact Hr|]. apply Hf. lia.
Defined.

(** ** [update_if_only_exists], the scores *)

(** X25: [update_if_only_exists(members)] on a set whose containers link the
    same entries, for members with distinct keys: afterwards a member's
    key has the member's score when the key was present and is still
    absent otherwise; the keys that are not named keep their scores,
    and the size is unchanged: no member is added. *)
Theorem update_if_only_exists_sets (members : list (string * float)) (s : sset_lsa) :
  linked s -> NoDup members.*1 ->
  (forall k sc, (k, sc) ∈ members ->
     score k (snd (update_if_only_exists members s))
     = option_map (fun _ => sc) (score k s)) /\
  (forall k, k ∉ members.*1 ->
     score k (snd (update_if_only_exists members s)) = score k s) /\
  size (snd (update_if_only_exists members s)) = size s.
Proof.
  revert s. induction members as [|[key sc] rest IH]; intros s L Hnd.
  - simpl. split; [|split; reflexivity]. intros k sc Hin. inversion Hin.
  - rewrite fmap_cons in Hnd. apply NoDup_cons in Hnd as [Hkey Hnd].
    rewrite update_if_only_exists_step.
    destruct (_dict s !! key) as [it|] eqn:Hd.
    + pose proof (relink_linked it sc s key L Hd) as L2.
      destruct (IH _ L2 Hnd) as (H1 & H2 & H3). simpl snd.
      split; [|split].
      * intros k sc' Hin. apply elem_of_cons in Hin as [E|Hin].
        -- injection E as -> ->. rewrite (H2 key Hkey).
           rewrite (relink_score it sc s key key L Hd), decide_True by reflexivity.
           unfold score. rewrite Hd. reflexivity.
        -- rewrite (H1 _ _ Hin), (relink_score it sc s key k L Hd).
           rewrite decide_False; [reflexivity|].
           intros ->. apply Hkey. apply list_elem_of_fmap. exists (key, sc'). auto.
      * intros k Hk. rewrite fmap_cons in Hk. rewrite H2.
        -- rewrite (relink_score it sc s key k L Hd).
           rewrite decide_False; [reflexivity|]. intros ->. apply Hk. left.
        -- intros Hin. apply Hk. right. exact Hin.
      * rewrite H3. exact (relink_size it sc s key L Hd).
    + destruct (IH s L Hnd) as (H1 & H2 & H3). split; [|split; [|exact H3]].
      * intros k sc' Hin. apply elem_of_cons in Hin as [E|Hin]; [|apply H1, Hin].
        injection E as -> ->. rewrite (H2 key Hkey). unfold score. rewrite Hd.
        reflexivity.
      * intros k Hk. apply H2. intros Hin. apply Hk. rewrite fmap_cons. right. exact Hin.
Qed.

(** The members [b] and [zz] on [{(a,1), (b,2), (c,3)}]. *)
Lemma update_if_only_exists_sets_witness :
  score "b" (snd (update_if_only_exists [("b", 9.0%float); ("zz", 0.5%float)] abc_state))
  = Some 9.0%float /\
  score "zz" (snd (update_if_only_exists [("b", 9.0%float); ("zz", 0.5%float)] abc_state))
  = None /\
  size (snd (update_if_only_exists [("b", 9.0%float); ("zz", 0.5%float)] abc_state))
  = 3%nat.
Proof.
  assert (L : linked abc_state) by (apply linkedb_sound; vm_compute; reflexivity).
  assert (Hnd : NoDup ([("b", 9.0%float); ("zz", 0.5%float)].*1))
    by (refine (bool_decide_eq_true_1 _ _); vm_compute; reflexivity).
  destruct (update_if_only_exists_sets
              [("b", 9.0%float); ("zz", 0.5%float)] abc_state L Hnd)
    as (Hs & _ & Hz).
  split; [rewrite (Hs "b" 9.0%float) by left; vm_compute; reflexivity|].
  split; [rewrite (Hs "zz" 0.5%float) by (right; left); vm_compute; reflexivity|].
  rewrite Hz. vm_compute. reflexivity.
Defined.

(** ** [erase(entries)] of entries of the set *)

(** What [fetch_by_rank] emits are distinct entries of the list. *)
Lemma fetch_by_rank_entries_listed begin end_ s :
  NoDup (_list s) ->
  NoDup (fetch_by_rank_entries begin end_ s) /\
  forall p, p ∈ fetch_by_rank_entries begin end_ s -> p ∈ _list s.
Proof.
  intros Hnd.
  destruct (fetch_by_rank_entries_is_run begin end_ s) as (before & after & Hl). rewrite Hl in Hnd. split.
  - apply NoDup_app in Hnd as (_ & _ & Hnd). apply NoDup_app in Hnd as (Hnd & _). exact Hnd.
  - intros p Hp. rewrite Hl. apply elem_of_app. right. apply elem_of_app. left. exact Hp.
Qed.

(** X26: [erase(entries)] for distinct entries of a set whose containers link
    the same entries (such as the entries that [fetch_by_rank] emits):
    the containers still link the same entries afterwards, the list
    holds the nodes it held except the erased ones, the size has shrunk
    by the number of entries, and a list in score order stays in score
    order. *)
Theorem erase_entries_keeps_linked (entries : list nat) (s : sset_lsa) :
  linked s -> NoDup entries -> (forall p, p ∈ entries -> p ∈ _list s) ->
  linked (snd (erase_entries entries s)) /\
  (forall p, p ∈ _list (snd (erase_entries entries s))
             <-> p ∈ _list s /\ p ∉ entries) /\
  (size (snd (erase_entries entries s)) + length entries = size s)%nat /\
  (sorted s -> sorted (snd (erase_entries entries s))).
Proof.
  unfold erase_entries. cbn [snd].
  revert s. induction entries as [|p rest IH]; intros s L Hnd Hin.
  - simpl. split; [exact L|]. split; [|split; [lia | auto]].
    intros p. split; [intros Hp; split; [exact Hp | intros H; inversion H]|].
    intros [Hp _]. exact Hp.
  - apply NoDup_cons in Hnd as [Hp Hnd]. rewrite erase_entries_loop_step.
    assert (Hpl : p ∈ _list s) by (apply Hin; left).
    destruct (proj1 (linked_same _ L p) Hpl) as [k Hk].
    pose proof (erase_node_linked k p s L Hk) as L2.
    destruct (IH (erase_node p s) L2 Hnd) as (H1 & H2 & H3 & H4).
    { intros q Hq. change (_list (erase_node p s)) with (list_erase p (_list s)).
      apply elem_of_list_erase. split; [apply Hin; right; exact Hq|].
      intros ->. exact (Hp Hq). }
    split; [exact H1|]. split; [|split].
    + intros q. rewrite H2.
      change (_list (erase_node p s)) with (list_erase p (_list s)).
      rewrite elem_of_list_erase, not_elem_of_cons. tauto.
    + pose proof (erase_node_size k p s L Hk). cbn [length]. lia.
    + intros Hs. apply H4, erase_node_sorted, Hs.
Qed.

(** Erasing the ranks 1 to 2 of [{(a,1), (b,2), (c,3)}] leaves [a]. *)
Lemma erase_entries_keeps_linked_witness :
  fetch_by_rank_entries 1 2 abc_state = [1; 2]%nat /\
  linked (snd (erase_entries [1; 2]%nat abc_state)) /\
  fetch_by_rank 0 5 (snd (erase_entries [1; 2]%nat abc_state)) = [("a", 1.0%float)].
Proof.
  assert (L : linked abc_state) by (apply linkedb_sound; vm_compute; reflexivity).
  assert (He : fetch_by_rank_entries 1 2 abc_state = [1; 2]%nat)
    by (vm_compute; reflexivity).
  destruct (fetch_by_rank_entries_listed 1 2 abc_state (linked_nodup _ L)) as [Hnd Hin].
  rewrite He in Hnd, Hin.
  destruct (erase_entries_keeps_linked [1; 2]%nat abc_state L Hnd Hin) as (H1 & _).
  split; [exact He|]. split; [exact H1|]. vm_compute. reflexivity.
Defined.

End SsetMore.

(* ================================================================= *)
(** * Part VIII: further properties of [block_reader] *)
(* ================================================================= *)

Module BlockMore.
Import Table Table.BlockReader BlockProps.

(** ** A cursor on an entry *)

Lemma positioned_at_reads b r e :
  positioned_at b r e -> eof r = false /\ current r = e_partition b e.
Proof.
  intros ((Hb & Hr & _) & He & Hk & Hv & Ho & Hlt & _).
  unfold eof, current, e_partition, e_value.
  rewrite Ho, Hr, He, Hk, Hv, Hb. rewrite geb_false by lia. split; reflexivity.
Qed.

Lemma parse_next_key_from b r e e2 rest :
  restart_offset b < 2 ^ 32 ->
  positioned_at b r e -> layout b (e_next e) (e_key e) (e2 :: rest) ->
  exists r', parse_next_key r = (true, r') /\ positioned_at b r' e2.
Proof.
  intros Hsz (Hon & He & Hk & Hv & Ho & Hlt & Hnx) Hl.
  destruct (parse_next_key_entry b r (e_key e) e2 rest Hsz Hon) as
    (r' & Hp & Hon' & Hk' & Hv' & Ho' & He' & Hnx').
  - rewrite Hnx. exact Hl.
  - rewrite Hk. simpl in Hl. apply Hl.
  - rewrite Hk. reflexivity.
  - exists r'. split; [exact Hp|]. simpl in Hl. destruct Hl as (Hl1 & Hl2 & _).
    repeat split; try apply Hon'; auto; try congruence; lia.
Qed.

Lemma parse_next_key_past b r e :
  positioned_at b r e -> layout b (e_next e) (e_key e) [] ->
  exists r', parse_next_key r = (false, r') /\ on_block b r' /\
    _current_offset r' = restart_offset b /\ _eof r' = false.
Proof.
  intros (Hon & He & Hk & Hv & Ho & Hlt & Hnx) Hl. simpl in Hl.
  destruct (parse_next_key_end b r Hon) as (r' & Hp & Hon' & Ho' & He').
  - rewrite Hnx. exact Hl.
  - exists r'. repeat split; try apply Hon'; auto. congruence.
Qed.

Lemma eof_past b r :
  on_block b r -> _current_offset r = restart_offset b -> eof r = true.
Proof.
  intros (_ & Hr & _) Ho. unfold eof. rewrite Ho, Hr.
  rewrite geb_true by lia. reflexivity.
Qed.

(** The caller's loop from a cursor on an entry reads that entry and
    the ones after it, and then ends. *)
Lemma scan_from b :
  restart_offset b < 2 ^ 32 ->
  forall rest r e,
    positioned_at b r e -> layout b (e_next e) (e_key e) rest ->
    scan (S (length rest)) r = (map (e_partition b) (e :: rest), true).
Proof.
  intros Hsz. induction rest as [|e2 rest IH]; intros r e Hat Hl.
  - destruct (positioned_at_reads b r e Hat) as [He Hc].
    destruct (parse_next_key_past b r e Hat Hl) as (r' & Hp & Hon' & Ho' & _).
    cbn [scan length]. rewrite He. unfold next. rewrite Hp. cbn [snd].
    rewrite (eof_past b r' Hon' Ho'), Hc. reflexivity.
  - destruct (positioned_at_reads b r e Hat) as [He Hc].
    destruct (parse_next_key_from b r e e2 rest Hsz Hat Hl) as (r' & Hp & Hat').
    cbn [length]. change (scan (S (S (length rest))) r)
      with (if eof r then ([], true)
            else let '(kvs, ended) := scan (S (length rest)) (next r) in
                 (current r :: kvs, ended)).
    rewrite He. unfold next. rewrite Hp. cbn [snd].
    rewrite (IH r' e2 Hat'); [rewrite Hc; reflexivity|].
    simpl in Hl. apply Hl.
Qed.

(** ** [seek_to_first] *)

Lemma seek_to_restart_point_on b r j :
  on_block b r ->
  on_block b (seek_to_restart_point j r) /\
  _eof (seek_to_restart_point j r) = _eof r /\
  _current_key (seek_to_restart_point j r) = [] /\
  next_entry_offset (seek_to_restart_point j r) = wrap32 (rp b j).
Proof.
  intros Hon. pose proof (get_restart_point_on b r j Hon) as Hg.
  destruct Hon as (Hb & Hr & Hn).
  repeat split; auto.
  unfold next_entry_offset. simpl. rewrite Hg, Z.add_0_r. reflexivity.
Qed.

Lemma wf_bounds b es :
  wf_facts b es ->
  restart_offset b < 2 ^ 32 /\ Z.of_nat (length es) <= block_size b.
Proof.
  intros W. pose proof (wf_size _ _ W). pose proof (wf_ro _ _ W).
  pose proof (wf_nr _ _ W). pose proof (layout_length _ _ _ _ (wf_layout _ _ W)).
  unfold restart_offset in *. lia.
Qed.

Lemma seek_to_first_lands b es r :
  wf_facts b es -> reader_of b r ->
  match es with
  | e :: _ => positioned_at b (seek_to_first r) e
  | [] => on_block b (seek_to_first r) /\
          _current_offset (seek_to_first r) = restart_offset b
  end.
Proof.
  intros W [Hon Heof]. destruct (wf_bounds b es W) as [Hsz _].
  destruct (seek_to_restart_point_on b r 0 Hon) as (Hon0 & He0 & Hk0 & Hn0).
  rewrite (wf_rp0 _ _ W) in Hn0. change (wrap32 0) with 0 in Hn0.
  pose proof (wf_layout _ _ W) as Hl. unfold seek_to_first.
  destruct es as [|e es].
  - destruct (parse_next_key_end b _ Hon0) as (r' & Hp & Hon' & Ho' & _).
    + rewrite Hn0. exact Hl.
    + rewrite Hp. split; assumption.
  - destruct (parse_next_key_entry b _ [] e es Hsz Hon0) as
      (r' & Hp & Hon' & Hk' & Hv' & Ho' & He' & Hnx').
    + rewrite Hn0. exact Hl.
    + rewrite Hk0. simpl in Hl. apply Hl.
    + rewrite Hk0. reflexivity.
    + rewrite Hp. simpl in Hl. destruct Hl as (Hl1 & Hl2 & _). cbn [snd].
      repeat split; try apply Hon'; auto; try congruence; lia.
Qed.

(** X15: On a well-formed block, from whatever position the cursor is in:
    [seek_to_first()] and then the loop "while (!eof()) { current();
    next(); }" reads every entry of the block, key and value, in block
    order, and ends after the last one; on a block without entries the
    cursor is exhausted at once. *)
Theorem scan_reads_block (b : block) (r : block_reader) :
  well_formed b = true -> reader_of b r ->
  scan (length (block_entries b)) (seek_to_first r)
  = (map (e_partition b) (block_entries b), true).
Proof.
  intros Hwf Hr. destruct (well_formed_facts b Hwf) as (es & He & W).
  unfold block_entries. rewrite He. simpl default.
  destruct (wf_bounds b es W) as [Hsz _].
  pose proof (seek_to_first_lands b es r W Hr) as Hat.
  pose proof (wf_layout _ _ W) as Hl.
  destruct es as [|e es].
  - destruct Hat as [Hon Ho]. simpl. rewrite (eof_past b _ Hon Ho). reflexivity.
  - apply (scan_from b Hsz es _ e Hat). simpl in Hl. apply Hl.
Qed.

(** The four entries of the sample block. *)
Lemma scan_reads_block_witness :
  scan 4 (seek_to_first (make_block_reader sample_block))
  = ([([97], [49]); ([97; 98], [50]); ([99], [51]); ([99; 100], [52])], true).
Proof.
  assert (Hwf : well_formed sample_block = true) by (vm_compute; reflexivity).
  assert (Hr : reader_of sample_block (make_block_reader sample_block))
    by (repeat split; reflexivity).
  pose proof (scan_reads_block sample_block (make_block_reader sample_block) Hwf Hr) as H.
  assert (Hes : map (e_partition sample_block) (block_entries sample_block)
                = [([97], [49]); ([97; 98], [50]); ([99], [51]); ([99; 100], [52])])
    by (vm_compute; reflexivity).
  rewrite Hes in H. exact H.
Defined.

(** ** [seek], and [next] after it *)

Lemma lands_app b target pre es r' :
  Forall (fun x => compare (e_key x) target < 0) pre ->
  lands b target es r' -> lands b target (pre ++ es) r'.
Proof.
  intros Hpre [(pre' & e & post & -> & Hp & Hrest)|(Hall & Hrest)].
  - left. exists (pre ++ pre'), e, post. rewrite app_assoc.
    split; [reflexivity|]. split; [apply Forall_app; auto | exact Hrest].
  - right. split; [apply Forall_app; auto | exact Hrest].
Qed.

Lemma seek_scan_lands b target :
  restart_offset b < 2 ^ 32 ->
  forall es fuel r prev,
    on_block b r -> _eof r = false ->
    layout b (next_entry_offset r) prev es ->
    match es with
    | e :: _ =>
        e_shared e <= Z.of_nat (length (_current_key r)) /\
        firstn (Z.to_nat (e_shared e)) (_current_key r)
          = firstn (Z.to_nat (e_shared e)) prev
    | [] => True
    end ->
    (length es < fuel)%nat ->
    exists r', seek_scan fuel target r = Some r' /\ lands b target es r'.
Proof.
  intros Hsz. induction es as [|e es IH]; intros fuel r prev Hon Heof Hl Hready Hfuel.
  - destruct fuel as [|f]; [simpl in Hfuel; lia|].
    simpl in Hl. destruct (parse_next_key_end b r Hon Hl) as (r' & Hp & Hon' & Hco & He).
    exists r'. simpl. rewrite Hp. simpl. split; [reflexivity|].
    right. repeat split; try apply Hon'; auto. congruence.
  - destruct fuel as [|f]; [simpl in Hfuel; lia|].
    destruct Hready as [Hlen Hpre].
    destruct (parse_next_key_entry b r prev e es Hsz Hon Hl Hlen Hpre)
      as (r' & Hp & Hon' & Hk & Hv & Hco & He & Hnx).
    simpl seek_scan. rewrite Hp. simpl negb. cbv iota. rewrite Hk.
    simpl in Hl. destruct Hl as (Ho & Hlt & _ & _ & _ & _ & Hl').
    destruct (compare (e_key e) target >=? 0) eqn:Hc.
    + exists r'. split; [reflexivity|]. left. exists [], e, es.
      split; [reflexivity|]. split; [constructor|].
      split; [rewrite Z.geb_leb in Hc; apply Z.leb_le in Hc; lia|].
      split; [|exact Hl'].
      repeat split; try apply Hon'; auto; try congruence; lia.
    + assert (Hneg : compare (e_key e) target < 0).
      { rewrite Z.geb_leb in Hc. apply Z.leb_gt in Hc. exact Hc. }
      destruct (IH f r' (e_key e) Hon') as (r'' & Hs & Hlands).
      * congruence.
      * rewrite Hnx. exact Hl'.
      * destruct es as [|e2 es']; [exact I|].
        simpl in Hl'. rewrite Hk. split; [apply Hl' | reflexivity].
      * simpl in Hfuel. lia.
      * exists r''. split; [exact Hs|].
        apply (lands_app b target [e] es r''); [|exact Hlands].
        constructor; [exact Hneg | constructor].
Qed.

Lemma seek_lands b es r target :
  wf_facts b es -> reader_of b r ->
  exists r', seek target r = Some r' /\ lands b target es r'.
Proof.
  intros W [Hon Heof].
  destruct (seek_restart_spec b es r target W Hon) as (l & Hs & Hpost).
  destruct (wf_bounds b es W) as [HR Hlen]. pose proof (wf_layout _ _ W) as Hlay.
  unfold seek. rewrite Hs.
  destruct (seek_to_restart_point_on b r l Hon) as (Hon0 & He0 & Hk0 & Hn0).
  assert (Hdata : _block r = b) by apply Hon. rewrite Hdata.
  unfold block_size in Hlen.
  destruct Hpost as (Hl & Hlt & _).
  destruct (decide (l = 0)) as [->|Hne].
  - rewrite (wf_rp0 _ _ W) in Hn0. change (wrap32 0) with 0 in Hn0.
    apply (seek_scan_lands b target HR es _ _ []).
    + exact Hon0.
    + congruence.
    + rewrite Hn0. exact Hlay.
    + destruct es as [|e es']; [exact I|].
      rewrite Hk0. simpl in Hlay. split; [apply Hlay | reflexivity].
    + lia.
  - destruct Hlt as [?|Hlt]; [contradiction|].
    destruct (restart_key_entry b es l W)
      as (e & ns & vl & kp & Hin & Ho & Hsh & _ & _ & Hrk); [lia|].
    rewrite Hrk in Hlt.
    apply in_split in Hin as (pre & post & ->).
    destruct (layout_app _ _ _ _ _ Hlay) as (off' & prev' & Hlay').
    assert (Hoff : off' = rp b l) by (simpl in Hlay'; lia). subst off'.
    pose proof (layout_offsets _ _ _ _ Hlay') as Hoffs.
    apply Forall_cons in Hoffs as [Hoe _].
    pose proof (layout_offsets _ _ _ _ Hlay) as Hoffs0.
    assert (Hoe0 : 0 <= e_off e).
    { rewrite Forall_forall in Hoffs0. apply Hoffs0, list_elem_of_In, in_elt. }
    rewrite wrap32_small in Hn0 by lia.
    destruct (seek_scan_lands b target HR (e :: post) (S (length (data b)))
                (seek_to_restart_point l r) prev') as (r' & Hsc & Hlands).
    + exact Hon0.
    + congruence.
    + rewrite Hn0. exact Hlay'.
    + rewrite Hk0, Hsh. simpl. split; [lia | reflexivity].
    + rewrite length_app in Hlen. simpl in *. lia.
    + exists r'. split; [exact Hsc|]. apply lands_app; [|exact Hlands].
      pose proof (keys_increasing_before _ _ _ (wf_keys _ _ W)) as Hpre.
      eapply Forall_impl; [exact Hpre|]. simpl. intros x Hx.
      eapply compare_lt_trans; eauto.
Qed.

Lemma keys_increasing_app_r pre es :
  keys_increasing (pre ++ es) = true -> keys_increasing es = true.
Proof.
  induction pre as [|x pre IH]; [auto|]. intros H. apply IH.
  exact (keys_increasing_tail _ _ H).
Qed.

Lemma entries_ge_split target pre e post :
  keys_increasing (pre ++ e :: post) = true ->
  Forall (fun x => compare (e_key x) target < 0) pre ->
  compare (e_key e) target >= 0 ->
  entries_ge target (pre ++ e :: post) = e :: post.
Proof.
  intros Hk Hpre He. unfold entries_ge. rewrite List.filter_app.
  rewrite (SsetMore.filter_none _ pre).
  2: { eapply Forall_impl; [exact Hpre|]. simpl. intros x Hx. apply geb_false, Hx. }
  simpl. rewrite geb_true by lia. f_equal.
  apply keys_increasing_app_r, keys_increasing_head in Hk.
  induction post as [|x post IH]; [reflexivity|].
  inversion Hk as [|? ? Hx Hpost]; subst. simpl.
  assert (Hge : compare (e_key x) target >= 0).
  { destruct (Z_lt_ge_dec (compare (e_key x) target) 0) as [Hneg|]; [|assumption].
    pose proof (compare_lt_trans _ _ _ Hx Hneg). lia. }
  rewrite geb_true by lia. f_equal. apply IH, Hpost.
Qed.

Lemma entries_ge_none target es :
  Forall (fun x => compare (e_key x) target < 0) es -> entries_ge target es = [].
Proof.
  intros H. apply SsetMore.filter_none. eapply Forall_impl; [exact H|].
  simpl. intros x Hx. apply geb_false, Hx.
Qed.

(** X16: On a well-formed block: [seek(target)] and then the loop "while
    (!eof()) { current(); next(); }" reads exactly the entries whose key
    is [>= target], key and value, in block order, and ends after the
    last one. *)
Theorem seek_then_scan (b : block) (target : list Z) (r : block_reader) :
  well_formed b = true -> reader_of b r ->
  exists r', seek target r = Some r' /\
    scan (length (entries_ge target (block_entries b))) r'
    = (map (e_partition b) (entries_ge target (block_entries b)), true).
Proof.
  intros Hwf Hr. destruct (well_formed_facts b Hwf) as (es & He & W).
  unfold block_entries. rewrite He. simpl default.
  destruct (wf_bounds b es W) as [Hsz _].
  destruct (seek_lands b es r target W Hr) as (r' & Hs & Hlands).
  exists r'. split; [exact Hs|].
  destruct Hlands as [(pre & e & post & -> & Hpre & Hge & Hat & Hl)|(Hall & Hon & _ & Ho)].
  - rewrite (entries_ge_split target pre e post (wf_keys _ _ W) Hpre Hge).
    apply (scan_from b Hsz post r' e Hat Hl).
  - rewrite (entries_ge_none target es Hall). simpl.
    rewrite (eof_past b r' Hon Ho). reflexivity.
Qed.

(** [seek "b"] on the sample block, and the entries from there. *)
Lemma seek_then_scan_witness :
  exists r', seek [98] (make_block_reader sample_block) = Some r' /\
    scan 2 r' = ([([99], [51]); ([99; 100], [52])], true).
Proof.
  assert (Hwf : well_formed sample_block = true) by (vm_compute; reflexivity).
  assert (Hr : reader_of sample_block (make_block_reader sample_block))
    by (repeat split; reflexivity).
  destruct (seek_then_scan sample_block [98] (make_block_reader sample_block) Hwf Hr)
    as (r' & Hs & Hsc).
  exists r'. split; [exact Hs|].
  assert (Hes : entries_ge [98] (block_entries sample_block)
    = [ {| e_off := 10; e_shared := 0; e_non_shared := 1;
           e_value_length := 1; e_key_ptr := 13; e_key := [99] |};
        {| e_off := 15; e_shared := 1; e_non_shared := 1;
           e_value_length := 1; e_key_ptr := 18; e_key := [99; 100] |} ])
    by (vm_compute; reflexivity).
  rewrite Hes in Hsc. exact Hsc.
Defined.

(** ** [seek_to_last] *)

Lemma last_default_irrelevant {A} (a : A) l d d' :
  List.last (a :: l) d = List.last (a :: l) d'.
Proof.
  revert a. induction l as [|x l IH]; intros a; [reflexivity|].
  change (List.last (x :: l) d = List.last (x :: l) d'). apply IH.
Qed.

Lemma last_cons {A} (a : A) l d : List.last (a :: l) d = List.last l a.
Proof.
  destruct l as [|x l]; [reflexivity|].
  change (List.last (x :: l) d = List.last (x :: l) a).
  apply last_default_irrelevant.
Qed.

Lemma last_app_cons {A} (pre : list A) e post d :
  List.last (pre ++ e :: post) d = List.last post e.
Proof.
  induction pre as [|a pre IH]; [apply last_cons|].
  rewrite <- IH. destruct pre; reflexivity.
Qed.

Lemma seek_to_last_loop_lands b :
  restart_offset b < 2 ^ 32 ->
  forall es fuel r prev e0,
    on_block b r -> _eof r = false ->
    layout b (next_entry_offset r) prev (e0 :: es) ->
    e_shared e0 <= Z.of_nat (length (_current_key r)) ->
    firstn (Z.to_nat (e_shared e0)) (_current_key r)
      = firstn (Z.to_nat (e_shared e0)) prev ->
    (length es < fuel)%nat ->
    exists r', seek_to_last_loop fuel r = Some r' /\
               positioned_at b r' (List.last es e0).
Proof.
  intros Hsz. induction es as [|e1 es IH];
    intros fuel r prev e0 Hon Heof Hl Hlen Hpre Hfuel;
    (destruct fuel as [|f]; [simpl in Hfuel; lia|]);
    destruct (parse_next_key_entry b r prev e0 _ Hsz Hon Hl Hlen Hpre)
      as (r1 & Hp & Hon1 & Hk & Hv & Hco & He & Hnx);
    simpl in Hl; destruct Hl as (Ho & Hlt & _ & _ & _ & _ & Hl');
    assert (Hat : positioned_at b r1 e0)
      by (repeat split; try apply Hon1; auto; try congruence; lia);
    cbn [seek_to_last_loop]; rewrite Hp; cbn [andb];
    destruct Hon1 as (Hb1 & Hr1 & Hn1); rewrite Hnx, Hr1.
  - simpl in Hl'. rewrite Hl', Z.ltb_irrefl. exists r1. split; [reflexivity | exact Hat].
  - simpl in Hl'. destruct Hl' as (Ho1 & Hlt1 & Hrest).
    rewrite (proj2 (Z.ltb_lt _ _)) by lia.
    destruct (IH f r1 (e_key e0) e1) as (r' & Hs & Hat').
    + repeat split; assumption.
    + congruence.
    + rewrite Hnx. simpl. split; [exact Ho1|]. split; [exact Hlt1 | exact Hrest].
    + rewrite Hk. apply Hrest.
    + rewrite Hk. reflexivity.
    + simpl in Hfuel. lia.
    + exists r'. split; [exact Hs|]. rewrite last_cons. exact Hat'.
Qed.

(** X17: On a well-formed block, from whatever position the cursor is in,
    [seek_to_last()] returns with the cursor on the last entry of the
    block: [current()] is its key and value and [eof()] is false; on a
    block without entries the cursor is exhausted. *)
Theorem seek_to_last_lands (b : block) (r : block_reader) :
  well_formed b = true -> reader_of b r ->
  exists r', seek_to_last r = Some r' /\
    match block_entries b with
    | [] => eof r' = true
    | e0 :: es =>
        eof r' = false /\ current r' = e_partition b (List.last es e0)
    end.
Proof.
  intros Hwf [Hon Heof]. destruct (well_formed_facts b Hwf) as (es & He & W).
  unfold block_entries. rewrite He. simpl default.
  destruct (wf_bounds b es W) as [HR Hlen]. pose proof (wf_layout _ _ W) as Hlay.
  pose proof (wf_nr _ _ W) as Hnr. pose proof (wf_size _ _ W) as Hsize.
  pose proof (wf_ro _ _ W) as Hro.
  assert (Hnb : num_restarts b - 1 < 2 ^ 32) by (unfold restart_offset in Hro; lia).
  unfold seek_to_last.
  assert (Hdata : _block r = b) by apply Hon.
  assert (Hnum : _num_restarts r = num_restarts b) by apply Hon.
  rewrite Hdata, Hnum, wrap32_small by lia.
  set (j := num_restarts b - 1).
  destruct (seek_to_restart_point_on b r j Hon) as (Hon0 & He0 & Hk0 & Hn0).
  unfold block_size in Hlen.
  destruct (decide (j = 0)) as [Hj|Hj].
  - rewrite Hj in *. rewrite (wf_rp0 _ _ W) in Hn0. change (wrap32 0) with 0 in Hn0.
    destruct es as [|e0 es].
    + destruct (parse_next_key_end b _ Hon0) as (r' & Hp & Hon' & Ho' & _).
      * rewrite Hn0. exact Hlay.
      * exists r'. cbn [seek_to_last_loop]. rewrite Hp. cbn [andb].
        split; [reflexivity | exact (eof_past b r' Hon' Ho')].
    + destruct (seek_to_last_loop_lands b HR es (S (length (data b)))
                  (seek_to_restart_point 0 r) [] e0) as (r' & Hs & Hat).
      * exact Hon0.
      * congruence.
      * rewrite Hn0. exact Hlay.
      * rewrite Hk0. simpl in Hlay. apply Hlay.
      * rewrite Hk0. reflexivity.
      * simpl in Hlen. lia.
      * exists r'. split; [exact Hs | exact (positioned_at_reads b r' _ Hat)].
  - destruct (restart_key_entry b es j W)
      as (e & ns & vl & kp & Hin & Ho & Hsh & _ & _ & _); [unfold j; lia|].
    apply in_split in Hin as (pre & post & ->).
    destruct (layout_app _ _ _ _ _ Hlay) as (off' & prev' & Hlay').
    assert (Hoff : off' = rp b j) by (simpl in Hlay'; lia). subst off'.
    pose proof (layout_offsets _ _ _ _ Hlay') as Hoffs.
    apply Forall_cons in Hoffs as [Hoe _].
    pose proof (layout_offsets _ _ _ _ Hlay) as Hoffs0.
    assert (Hoe0 : 0 <= e_off e).
    { rewrite Forall_forall in Hoffs0. apply Hoffs0, list_elem_of_In, in_elt. }
    rewrite wrap32_small in Hn0 by lia.
    destruct (seek_to_last_loop_lands b HR post (S (length (data b)))
                (seek_to_restart_point j r) prev' e) as (r' & Hs & Hat).
    + exact Hon0.
    + congruence.
    + rewrite Hn0. exact Hlay'.
    + rewrite Hk0, Hsh. simpl. lia.
    + rewrite Hk0, Hsh. reflexivity.
    + rewrite length_app in Hlen. simpl in Hlen. lia.
    + exists r'. split; [exact Hs|].
      destruct (pre ++ e :: post) as [|e0 es] eqn:Hes.
      { destruct pre; discriminate. }
      rewrite <- (last_cons e0 es e0), <- Hes, last_app_cons.
      exact (positioned_at_reads b r' _ Hat).
Qed.

(** [seek_to_last()] on the sample block stops on [("cd", "4")]. *)
Lemma seek_to_last_lands_witness :
  exists r', seek_to_last (make_block_reader sample_block) = Some r' /\
    eof r' = false /\ current r' = ([99; 100], [52]).
Proof.
  assert (Hwf : well_formed sample_block = true) by (vm_compute; reflexivity).
  assert (Hr : reader_of sample_block (make_block_reader sample_block))
    by (repeat split; reflexivity).
  destruct (seek_to_last_lands sample_block (make_block_reader sample_block) Hwf Hr)
    as (r' & Hs & Hm).
  exists r'. split; [exact Hs|].
  assert (Hes : block_entries sample_block
    = [ {| e_off := 0; e_shared := 0; e_non_shared := 1;
           e_value_length := 1; e_key_ptr := 3; e_key := [97] |};
        {| e_off := 5; e_shared := 1; e_non_shared := 1;
           e_value_length := 1; e_key_ptr := 8; e_key := [97; 98] |};
        {| e_off := 10; e_shared := 0; e_non_shared := 1;
           e_value_length := 1; e_key_ptr := 13; e_key := [99] |};
        {| e_off := 15; e_shared := 1; e_non_shared := 1;
           e_value_length := 1; e_key_ptr := 18; e_key := [99; 100] |} ])
    by (vm_compute; reflexivity).
  rewrite Hes in Hm. exact Hm.
Defined.

(** ** The flag [_eof] *)

Lemma parse_next_key_eof r : _eof (snd (parse_next_key r)) = _eof r.
Proof.
  unfold parse_next_key. cbv zeta.
  destruct (_ >=? _); [reflexivity|].
  destruct (decode_entry _ _ _) as [[[[shared ns] vl] kp]|]; [|reflexivity].
  destruct (_ <? _); [reflexivity|]. cbn [snd].
  match goal with |- context [advance_restart_index ?f ?r0] =>
    destruct (advance_restart_index_frame f r0) as (_ & _ & _ & _ & _ & _ & ->) end.
  reflexivity.
Qed.

Lemma seek_to_last_loop_eof fuel r r' :
  seek_to_last_loop fuel r = Some r' -> _eof r' = _eof r.
Proof.
  revert r. induction fuel as [|f IH]; intros r H; [discriminate|].
  simpl in H. pose proof (parse_next_key_eof r) as He.
  destruct (parse_next_key r) as [ok r1]. simpl in He.
  destruct (ok && (next_entry_offset r1 <? restarts_ r1)).
  - rewrite (IH _ H). exact He.
  - injection H as <-. exact He.
Qed.

Lemma seek_scan_eof fuel target r r' :
  seek_scan fuel target r = Some r' -> _eof r' = _eof r.
Proof.
  revert r. induction fuel as [|f IH]; intros r H; [discriminate|].
  simpl in H. pose proof (parse_next_key_eof r) as He.
  destruct (parse_next_key r) as [ok r1]. simpl in He.
  destruct (negb ok); [injection H as <-; exact He|].
  destruct (compare (_current_key r1) target >=? 0); [injection H as <-; exact He|].
  rewrite (IH _ H). exact He.
Qed.

(** X19: No method of the cursor clears the flag [_eof], which [seek] sets
    when the restart entry that its binary search reads does not decode
    or shares bytes with a key before it: once the flag is set,
    [next()], [seek_to_first()], [seek_to_last()] and [seek(key)] leave
    it set, and [eof()] is true after each of them. *)
Theorem eof_flag_stays (r : block_reader) :
  _eof r = true ->
  eof r = true /\
  (_eof (next r) = true /\ eof (next r) = true) /\
  (_eof (seek_to_first r) = true /\ eof (seek_to_first r) = true) /\
  (forall r', seek_to_last r = Some r' -> _eof r' = true /\ eof r' = true) /\
  (forall target r', seek target r = Some r' -> _eof r' = true /\ eof r' = true).
Proof.
  intros He.
  assert (Heof : forall x, _eof x = true -> eof x = true).
  { intros x Hx. unfold eof. rewrite Hx. apply orb_true_r. }
  assert (Hflag : forall x, _eof x = true -> _eof x = true /\ eof x = true)
    by (intros x Hx; split; [exact Hx | exact (Heof x Hx)]).
  split; [exact (Heof r He)|]. split; [|split; [|split]].
  - apply Hflag. unfold next. rewrite parse_next_key_eof. exact He.
  - apply Hflag. unfold seek_to_first. rewrite parse_next_key_eof. exact He.
  - intros r' H. apply Hflag. unfold seek_to_last in H.
    rewrite (seek_to_last_loop_eof _ _ _ H). exact He.
  - intros target r' H. apply Hflag. unfold seek in H.
    destruct (seek_restart target r) as [[left_|]|]; [| |discriminate].
    + rewrite (seek_scan_eof _ _ _ _ H). exact He.
    + injection H as <-. reflexivity.
Qed.

(** On the block whose second restart point is on an entry that shares
    a byte, [seek "c"] sets the flag; [seek_to_first()] after it leaves
    the cursor exhausted, although the block starts with [("a", "1")]. *)
Lemma eof_flag_stays_witness :
  exists r, seek [99] (make_block_reader shared_restart_block) = Some r /\
    _eof r = true /\
    eof (seek_to_first r) = true /\ scan 4 (seek_to_first r) = ([], true).
Proof.
  eexists. split; [vm_compute; reflexivity|]. split; [reflexivity|].
  match goal with |- eof (seek_to_first ?r) = true /\ _ =>
    destruct (eof_flag_stays r eq_refl) as (_ & _ & [_ H] & _) end.
  split; [exact H|]. vm_compute. reflexivity.
Defined.

(** ** An entry that does not parse *)

Lemma parse_next_key_failed r :
  next_entry_offset r < restarts_ r -> fst (parse_next_key r) = false ->
  snd (parse_next_key r) = set_position r (_restart_index r) (next_entry_offset r).
Proof.
  intros Hlt. unfold parse_next_key. cbv zeta. cbn [_current_offset set_position restarts_].
  rewrite geb_false by exact Hlt.
  destruct (decode_entry _ _ _) as [[[[shared ns] vl] kp]|]; [|reflexivity].
  destruct (_ <? _); [reflexivity|]. discriminate.
Qed.

Lemma parse_next_key_position r co :
  parse_next_key (set_position r (_restart_index r) co) = parse_next_key r.
Proof. reflexivity. Qed.

(** X20: When [parse_next_key] fails before the restart array (the entry
    does not decode, or shares more bytes than the current key has),
    the cursor is not exhausted and does not move: after any number of
    [next()] calls [eof()] is false and [current()] is the entry that
    it was, so the loop "while (!eof()) { current(); next(); }" does
    not end. *)
Theorem next_stuck_on_bad_entry (r : block_reader) :
  _eof r = false -> next_entry_offset r < restarts_ r ->
  fst (parse_next_key r) = false ->
  forall n,
    eof (Nat.iter n next (next r)) = false /\
    current (Nat.iter n next (next r)) = current r /\
    snd (scan n (next r)) = false.
Proof.
  intros He Hlt Hf.
  pose proof (parse_next_key_failed r Hlt Hf) as Hn.
  assert (Hfix : next (next r) = next r).
  { unfold next. rewrite Hn, parse_next_key_position. exact Hn. }
  assert (Hiter : forall n, Nat.iter n next (next r) = next r).
  { induction n as [|n IH]; [reflexivity|]. simpl. rewrite IH. exact Hfix. }
  assert (Heof : eof (next r) = false).
  { unfold next. rewrite Hn. unfold eof. simpl. rewrite He.
    rewrite geb_false by exact Hlt. reflexivity. }
  intros n. rewrite Hiter. split; [exact Heof|]. split.
  - unfold next. rewrite Hn. reflexivity.
  - induction n as [|n IH]; simpl; [exact Heof|].
    rewrite Heof, Hfix. destruct (scan n (next r)) as [kvs ended]. exact IH.
Qed.

(** On the block whose second entry announces more key bytes than are
    left, the cursor stays on [("a", "")]. *)
Lemma next_stuck_on_bad_entry_witness :
  let r := seek_to_first (make_block_reader truncated_block) in
  eof r = false /\ current r = ([97], []) /\
  forall n, eof (Nat.iter n next (next r)) = false /\
            current (Nat.iter n next (next r)) = ([97], []).
Proof.
  cbv zeta. split; [vm_compute; reflexivity|]. split; [vm_compute; reflexivity|].
  intros n.
  destruct (next_stuck_on_bad_entry
              (seek_to_first (make_block_reader truncated_block))) with (n := n)
    as (H1 & H2 & _).
  - vm_compute. reflexivity.
  - vm_compute. reflexivity.
  - vm_compute. reflexivity.
  - split; [exact H1|]. rewrite H2. vm_compute. reflexivity.
Defined.

(** ** [next] past the last entry *)

Lemma next_past_fix b r :
  on_block b r -> next_entry_offset r = restart_offset b ->
  next (next r) = next r /\ eof (next r) = true /\ current (next r) = current r.
Proof.
  intros (Hb & Hr & Hn) Hnx.
  assert (Hnext : next r = set_position r (_num_restarts r) (restarts_ r)).
  { unfold next, parse_next_key. cbv zeta.
    cbn [_current_offset set_position restarts_ _num_restarts].
    rewrite Hnx, Hr, geb_true by lia. reflexivity. }
  split; [|split].
  - rewrite Hnext. unfold next at 1. unfold parse_next_key. cbv zeta.
    cbn [_current_offset set_position restarts_ _num_restarts].
    change (next_entry_offset (set_position r (_num_restarts r) (restarts_ r)))
      with (next_entry_offset r).
    rewrite Hnx, Hr, geb_true by lia. reflexivity.
  - rewrite Hnext. unfold eof. cbn [_current_offset set_position restarts_].
    rewrite geb_true by lia. reflexivity.
  - rewrite Hnext. reflexivity.
Qed.

Lemma iter_fix {A} (f : A -> A) x n : f x = x -> Nat.iter n f x = x.
Proof. intros Hf. induction n as [|n IH]; [reflexivity|]. simpl. rewrite IH. exact Hf. Qed.

Lemma iter_next_from b :
  restart_offset b < 2 ^ 32 ->
  forall rest r e n,
    positioned_at b r e -> layout b (e_next e) (e_key e) rest ->
    eof (Nat.iter (S (length rest) + n) next r) = true /\
    current (Nat.iter (S (length rest) + n) next r) = e_partition b (List.last rest e).
Proof.
  intros Hsz. induction rest as [|e2 rest IH]; intros r e n Hat Hl;
    cbn [length Nat.add]; rewrite Nat.iter_succ_r.
  - destruct (positioned_at_reads b r e Hat) as [_ Hc].
    destruct Hat as (Hon & _ & _ & _ & _ & _ & Hnx). simpl in Hl.
    destruct (next_past_fix b r Hon) as (Hfix & He & Hcur); [congruence|].
    rewrite (iter_fix next (next r) n Hfix). split; [exact He|].
    rewrite Hcur. exact Hc.
  - destruct (parse_next_key_from b r e e2 rest Hsz Hat Hl) as (r' & Hp & Hat').
    assert (Hnext : next r = r') by (unfold next; rewrite Hp; reflexivity).
    rewrite Hnext, last_cons.
    apply IH; [exact Hat'|]. simpl in Hl. apply Hl.
Qed.

(** X18: On a well-formed block, once the loop over the entries has ended,
    further [next()] calls change nothing that can be read: [eof()]
    stays true, and [current()] keeps returning the last entry of the
    block (the empty key and value on a block without entries). *)
Theorem next_past_end (b : block) (r : block_reader) (n : nat) :
  well_formed b = true -> reader_of b r ->
  eof (Nat.iter (length (block_entries b) + n) next (seek_to_first r)) = true /\
  current (Nat.iter (length (block_entries b) + n) next (seek_to_first r))
  = match block_entries b with
    | [] => ([], [])
    | e0 :: es => e_partition b (List.last es e0)
    end.
Proof.
  intros Hwf Hr. destruct (well_formed_facts b Hwf) as (es & He & W).
  unfold block_entries. rewrite He. simpl default.
  destruct (wf_bounds b es W) as [Hsz _].
  pose proof (seek_to_first_lands b es r W Hr) as Hat.
  pose proof (wf_layout _ _ W) as Hl.
  destruct es as [|e es].
  - destruct Hr as [Hon _].
    destruct (seek_to_restart_point_on b r 0 Hon) as (Hon0 & _ & Hk0 & Hn0).
    rewrite (wf_rp0 _ _ W) in Hn0. change (wrap32 0) with 0 in Hn0.
    simpl in Hl. cbn [length Nat.add].
    change (seek_to_first r) with (next (seek_to_restart_point 0 r)).
    destruct (next_past_fix b _ Hon0) as (Hfix & Heof & Hcur); [congruence|].
    rewrite (iter_fix next _ n Hfix). split; [exact Heof|].
    rewrite Hcur. unfold current. rewrite Hk0. reflexivity.
  - apply (iter_next_from b Hsz es _ e n Hat). simpl in Hl. apply Hl.
Qed.

(** Ten [next()] calls on the block [a, c, e]: [current()] is still
    [e]. *)
Lemma next_past_end_witness :
  eof (Nat.iter 10 next (seek_to_first (make_block_reader block_ace))) = true /\
  current (Nat.iter 10 next (seek_to_first (make_block_reader block_ace)))
  = ([101], []).
Proof.
  assert (Hwf : well_formed block_ace = true) by (vm_compute; reflexivity).
  assert (Hr : reader_of block_ace (make_block_reader block_ace))
    by (repeat split; reflexivity).
  destruct (next_past_end block_ace (make_block_reader block_ace) 7 Hwf Hr) as [H1 H2].
  assert (Hlen : (length (block_entries block_ace) + 7 = 10)%nat)
    by (vm_compute; reflexivity).
  rewrite Hlen in H1, H2. split; [exact H1|]. rewrite H2. vm_compute. reflexivity.
Defined.

End BlockMore.

(* ================================================================= *)
(** * Part IX: further properties of [combined_sstables_reader] *)
(* ================================================================= *)

Module CombinedMore.
Import Table Table.BlockReader Table.Combined BlockProps.

(** ** The comparator *)

Lemma compare_refl a : compare a a = 0.
Proof. induction a as [|x a IH]; simpl; [reflexivity|]. rewrite Z.ltb_irrefl. exact IH. Qed.

Lemma compare_antisym a b : compare b a = - compare a b.
Proof.
  revert b. induction a as [|x a IH]; intros [|y b]; simpl; try reflexivity.
  destruct (Z.ltb_spec x y), (Z.ltb_spec y x); try lia; try reflexivity. apply IH.
Qed.

Lemma compare_lt_le_trans a b c :
  compare a b < 0 -> compare b c <= 0 -> compare a c < 0.
Proof.
  revert b c. induction a as [|x a IH]; intros [|y b] [|z c]; simpl; try lia.
  repeat match goal with |- context [?u <? ?v] => destruct (Z.ltb_spec u v) end;
    try lia.
  apply IH.
Qed.

Lemma compare_le_trans a b c :
  compare a b <= 0 -> compare b c <= 0 -> compare a c <= 0.
Proof.
  revert b c. induction a as [|x a IH]; intros [|y b] [|z c]; simpl; try lia.
  repeat match goal with |- context [?u <? ?v] => destruct (Z.ltb_spec u v) end;
    try lia.
  apply IH.
Qed.

Section generic.
Context {R : Type} `{reader_impl R}.

Local Abbreviation key := r_current_key.

(** ** [find_smallest_one] *)

Lemma find_smallest_loop_least (rest : list R) :
  forall (seen : list R) (smallest : nat * R),
    nth_error seen (fst smallest) = Some (snd smallest) ->
    (forall u, In u seen -> compare (key (snd smallest)) (key u) <= 0) ->
    (forall j u, (j < fst smallest)%nat -> nth_error seen j = Some u ->
                 compare (key (snd smallest)) (key u) < 0) ->
    let res := find_smallest_loop (length seen) rest smallest in
    nth_error (seen ++ rest) (fst res) = Some (snd res) /\
    (forall u, In u (seen ++ rest) -> compare (key (snd res)) (key u) <= 0) /\
    (forall j u, (j < fst res)%nat -> nth_error (seen ++ rest) j = Some u ->
                 compare (key (snd res)) (key u) < 0).
Proof.
  induction rest as [|t rest IH]; intros seen smallest Hn Hle Hlt; cbv zeta.
  - rewrite app_nil_r. simpl. auto.
  - cbn [find_smallest_loop]. unfold less_comparator.
    replace (seen ++ t :: rest) with ((seen ++ [t]) ++ rest)
      by (rewrite <- app_assoc; reflexivity).
    replace (S (length seen)) with (length (seen ++ [t]))
      by (rewrite length_app; simpl; lia).
    assert (Hbound : (fst smallest < length seen)%nat).
    { apply nth_error_Some. rewrite Hn. discriminate. }
    destruct (Z.ltb_spec (compare (key t) (key (snd smallest))) 0) as [Hc|Hc].
    + apply IH; cbn [fst snd].
      * rewrite nth_error_app2 by lia. rewrite Nat.sub_diag. reflexivity.
      * intros u Hu. apply in_app_or in Hu as [Hu|[<-|[]]].
        -- specialize (Hle u Hu).
           pose proof (compare_lt_le_trans _ _ _ Hc Hle). lia.
        -- rewrite compare_refl. lia.
      * intros j u Hj Hu. rewrite nth_error_app1 in Hu by exact Hj.
        apply nth_error_In in Hu.
        exact (compare_lt_le_trans _ _ _ Hc (Hle u Hu)).
    + apply IH.
      * rewrite nth_error_app1 by exact Hbound. exact Hn.
      * intros u Hu. apply in_app_or in Hu as [Hu|[<-|[]]]; [apply Hle, Hu|].
        rewrite compare_antisym. lia.
      * intros j u Hj Hu. rewrite nth_error_app1 in Hu by lia. eapply Hlt; eauto.
Qed.

Lemma find_smallest_one_least (c c' : combined_sstables_reader R) :
  find_smallest_one c = Some c' ->
  _sstables c' = _sstables c /\
  exists i t,
    Combined._current c' = Some i /\ nth_error (_sstables c') i = Some t /\
    (forall u, In u (_sstables c') -> compare (key t) (key u) <= 0) /\
    (forall j u, (j < i)%nat -> nth_error (_sstables c') j = Some u ->
                 compare (key t) (key u) < 0).
Proof.
  unfold find_smallest_one. destruct (_sstables c) as [|t0 rest] eqn:E; [discriminate|].
  intros H0. injection H0 as <-. cbn [_sstables Combined._current].
  split; [reflexivity|].
  destruct (find_smallest_loop_least rest [t0] (O, t0)) as (H1 & H2 & H3).
  - reflexivity.
  - intros u [<-|[]]. cbn [snd]. rewrite compare_refl. lia.
  - intros j u Hj. simpl in Hj. lia.
  - cbv zeta in *. cbn [length app] in *.
    exists (fst (find_smallest_loop 1 rest (O, t0))),
           (snd (find_smallest_loop 1 rest (O, t0))).
    split; [reflexivity|]. split; [exact H1|]. split; [exact H2 | exact H3].
Qed.

Lemma do_call_find (o : call) (c c' : combined_sstables_reader R) :
  do_call o c = Some c' -> exists c0, find_smallest_one c0 = Some c'.
Proof.
  destruct o; simpl; unfold Combined.seek_to_first, Combined.seek_to_last,
    Combined.seek, positioned, Combined.next;
    try (destruct (for_each _ (_sstables c)); [|discriminate]); eauto.
Qed.

Lemma do_call_least (o : call) (c c' : combined_sstables_reader R) :
  do_call o c = Some c' ->
  exists i t,
    Combined._current c' = Some i /\ nth_error (_sstables c') i = Some t /\
    Combined.current c' = Some (key t) /\
    (forall u, In u (_sstables c') -> compare (key t) (key u) <= 0) /\
    (forall j u, (j < i)%nat -> nth_error (_sstables c') j = Some u ->
                 compare (key t) (key u) < 0).
Proof.
  intros Hc. destruct (do_call_find o c c' Hc) as (c0 & Hf).
  destruct (find_smallest_one_least c0 c' Hf) as (_ & i & t & Hi & Ht & Hle & Hlt).
  exists i, t. split; [exact Hi|]. split; [exact Ht|]. split; [|split; assumption].
  unfold Combined.current. rewrite Hi, Ht. reflexivity.
Qed.

(** X21: After every positioning call and every [next()], [current()] is
    the entry of the sub-cursor whose current key is least among the
    current keys of all sub-cursors, and of the first such sub-cursor
    in the order of the tables: every sub-cursor before it has a
    strictly greater key. *)
Theorem current_is_least (o : call) (c c' : combined_sstables_reader R) :
  do_call o c = Some c' ->
  exists i t,
    Combined._current c' = Some i /\ nth_error (_sstables c') i = Some t /\
    Combined.current c' = Some (key t) /\
    (forall u, In u (_sstables c') -> compare (key t) (key u) <= 0) /\
    (forall j u, (j < i)%nat -> nth_error (_sstables c') j = Some u ->
                 compare (key t) (key u) < 0).
Proof. exact (do_call_least o c c'). Qed.

(** ** [next] *)

Lemma next_each_nth current : forall (l : list R) i j t,
  nth_error l j = Some t ->
  nth_error (next_each current i l) j
  = Some (if bool_decide (current = Some (i + j)%nat) then r_next t else t).
Proof.
  induction l as [|x l IH]; intros i j t Hj; [destruct j; discriminate|].
  destruct j as [|j]; simpl in *.
  - injection Hj as ->. rewrite Nat.add_0_r. reflexivity.
  - rewrite (IH (S i) j t Hj). replace (S i + j)%nat with (i + S j)%nat by lia.
    reflexivity.
Qed.

Lemma next_each_In current : forall (l : list R) i u,
  In u (next_each current i l) -> exists t, In t l /\ (u = t \/ u = r_next t).
Proof.
  induction l as [|x l IH]; intros i u Hu; [destruct Hu|].
  simpl in Hu. destruct Hu as [<-|Hu].
  - exists x. split; [left; reflexivity|].
    destruct (bool_decide (current = Some i)); auto.
  - destruct (IH _ _ Hu) as (t & Ht & Hut). exists t. split; [right; exact Ht | exact Hut].
Qed.

Lemma next_each_length current : forall (l : list R) i,
  length (next_each current i l) = length l.
Proof.
  induction l as [|x l IH]; intros i; [reflexivity|]. simpl. rewrite IH. reflexivity.
Qed.

(** X22: [next()] calls [next()] on the sub-cursor that [current()] reads
    and on no other one: every other sub-cursor is left as it is, and
    on a reader that has not been positioned ([_current] is null) no
    sub-cursor moves. *)
Theorem next_advances_current (c c' : combined_sstables_reader R) :
  Combined.next c = Some c' ->
  length (_sstables c') = length (_sstables c) /\
  forall j t, nth_error (_sstables c) j = Some t ->
    nth_error (_sstables c') j
    = Some (if bool_decide (Combined._current c = Some j) then r_next t else t).
Proof.
  unfold Combined.next. intros Hn.
  destruct (find_smallest_one_least _ _ Hn) as [Hs _]. rewrite Hs. cbn [_sstables].
  split; [apply next_each_length|]. intros j t Hj.
  apply (next_each_nth (Combined._current c) (_sstables c) O j t Hj).
Qed.

(** X23: The merged cursor does not move backwards: when no sub-cursor moves
    to a smaller key on [next()], the key of [current()] after a
    [next()] is not below the key of [current()] before it. *)
Theorem next_key_not_below (o : call) (c c1 c2 : combined_sstables_reader R) :
  do_call o c = Some c1 -> Combined.next c1 = Some c2 ->
  (forall t, In t (_sstables c1) -> compare (key t) (key (r_next t)) <= 0) ->
  exists k1 k2,
    Combined.current c1 = Some k1 /\ Combined.current c2 = Some k2 /\
    compare k1 k2 <= 0.
Proof.
  intros Hc Hn Hmono.
  destruct (do_call_least o c c1 Hc) as (i1 & t1 & Hi1 & Ht1 & Hk1 & Hle1).
  destruct (do_call_least call_next c1 c2 Hn) as (i2 & t2 & Hi2 & Ht2 & Hk2 & _).
  exists (key t1), (key t2). split; [exact Hk1|]. split; [exact Hk2|].
  apply nth_error_In in Ht2.
  unfold Combined.next in Hn. destruct (find_smallest_one_least _ _ Hn) as [Hs _].
  rewrite Hs in Ht2. cbn [_sstables] in Ht2.
  apply next_each_In in Ht2 as (t & Ht & [-> | ->]).
  - apply Hle1, Ht.
  - eapply compare_le_trans; [apply Hle1, Ht | apply Hmono, Ht].
Qed.

End generic.

(** The tables [a, c, e] and [b, d, f] after [seek_to_first]: the
    merged cursor is on [a], the least of [a] and [b]. *)
Lemma current_is_least_witness :
  exists c',
    do_call call_seek_to_first
      (make_combined_sstables_reader
         [make_block_reader block_ace; make_block_reader block_bdf]) = Some c' /\
    Combined.current c' = Some [97] /\
    forall u, In u (_sstables c') -> compare [97] (r_current_key u) <= 0.
Proof.
  eexists. split; [vm_compute; reflexivity|].
  match goal with |- Combined.current ?c1 = _ /\ _ =>
    destruct (current_is_least call_seek_to_first
                (make_combined_sstables_reader
                   [make_block_reader block_ace; make_block_reader block_bdf]) c1)
      as (i & t & _ & _ & Hk & Hle & _); [vm_compute; reflexivity|];
    assert (Hc : Combined.current c1 = Some [97]) by (vm_compute; reflexivity)
  end.
  split; [exact Hc|]. rewrite Hc in Hk. injection Hk as Hk.
  intros u Hu. specialize (Hle u Hu).
  change (r_current_key t) with (BlockReader._current_key t) in Hle.
  rewrite <- Hk in Hle. exact Hle.
Defined.

(** The same tables: from [a] the merged cursor moves to [b]. *)
Lemma next_key_not_below_witness :
  exists c1 c2,
    do_call call_seek_to_first
      (make_combined_sstables_reader
         [make_block_reader block_ace; make_block_reader block_bdf]) = Some c1 /\
    Combined.next c1 = Some c2 /\
    Combined.current c1 = Some [97] /\ Combined.current c2 = Some [98] /\
    exists k1 k2, Combined.current c1 = Some k1 /\ Combined.current c2 = Some k2 /\
                  compare k1 k2 <= 0.
Proof.
  eexists. eexists. split; [vm_compute; reflexivity|].
  split; [vm_compute; reflexivity|].
  split; [vm_compute; reflexivity|]. split; [vm_compute; reflexivity|].
  eapply (next_key_not_below call_seek_to_first
            (make_combined_sstables_reader
               [make_block_reader block_ace; make_block_reader block_bdf])).
  - vm_compute. reflexivity.
  - vm_compute. reflexivity.
  - intros t [<-|[<-|[]]]; vm_compute; discriminate.
Defined.

(** The same tables: [next()] after [seek_to_first] moves the cursor of
    the first table from [a] to [c] and leaves the second one on [b]. *)
Lemma next_advances_current_witness :
  exists c1 c2,
    Combined.seek_to_first
      (make_combined_sstables_reader
         [make_block_reader block_ace; make_block_reader block_bdf]) = Some c1 /\
    Combined.next c1 = Some c2 /\
    map r_current_key (_sstables c1) = [[97]; [98]] /\
    map r_current_key (_sstables c2) = [[99]; [98]] /\
    nth_error (_sstables c2) 1 = nth_error (_sstables c1) 1.
Proof.
  eexists. eexists. split; [vm_compute; reflexivity|].
  split; [vm_compute; reflexivity|].
  split; [vm_compute; reflexivity|]. split; [vm_compute; reflexivity|].
  match goal with |- nth_error (_sstables ?c2) 1 = nth_error (_sstables ?c1) 1 =>
    destruct (next_advances_current c1 c2) as [_ H]; [vm_compute; reflexivity|];
    destruct (nth_error (_sstables c1) 1) as [t|] eqn:E; [|vm_compute in E; discriminate];
    rewrite (H 1%nat t E)
  end.
  reflexivity.
Defined.

End CombinedMore.

(* ================================================================= *)
(** * Part X: further properties of [open_sstable] *)
(* ================================================================= *)

Module OpenMore.
Import Table Table.Open.

Section open_sstable.
Variable kEncodedLength : Z.
Variable footer : Type.
Variable decode_from : list Z -> option footer.
Variable index_handle : footer -> Z * Z.
Variable metaindex_handle : footer -> Z * Z.
Variable sstable_options : Type.
Variable sstable_cache : Type.
Variable block_cache : Type.
Variable cache_find : string -> sstable_cache -> option (rep sstable_options).
Variable cache_insert : rep sstable_options -> sstable_cache -> sstable_cache.
Variable find_and_create : Z * Z -> list Z -> block_cache -> block * block_cache.
Variable read_exactly : list Z -> Z -> Z -> option (list Z).
Variable read_meta : rep sstable_options -> Z * Z -> option (option (list Z)).

Let open_sized :=
  open_sized kEncodedLength footer decode_from index_handle metaindex_handle
    sstable_options sstable_cache block_cache cache_insert find_and_create
    read_exactly read_meta.
Let open_sstable :=
  open_sstable kEncodedLength footer decode_from index_handle metaindex_handle
    sstable_options sstable_cache block_cache cache_find cache_insert
    find_and_create read_exactly read_meta.

(** What a table that [open_sized] returns is made of. *)
Lemma open_sized_ready file_ opts c t c' :
  open_sized file_ opts c = (Some t, c') ->
  kEncodedLength <= Z.of_nat (length file_) /\
  _file_reader _ t = file_ /\ _options _ t = opts /\
  _table_cache _ _ c' = cache_insert t (_table_cache _ _ c) /\
  exists buffer footer_ data,
    read_exactly file_ (Z.of_nat (length file_) - kEncodedLength) kEncodedLength
      = Some buffer /\
    Z.of_nat (length buffer) = kEncodedLength /\
    decode_from buffer = Some footer_ /\
    read_block read_exactly file_ (index_handle footer_) = Some data /\
    (_index_block _ t, _block_cache _ _ c')
    = find_and_create (index_handle footer_) data (_block_cache _ _ c).
Proof.
  unfold open_sized, Open.open_sized. cbv zeta.
  destruct (Z.ltb_spec (Z.of_nat (length file_)) kEncodedLength) as [Hlt|Hge];
    [discriminate|].
  destruct (read_exactly file_ _ kEncodedLength) as [buffer|] eqn:Hb; [|discriminate].
  destruct (Z.eqb_spec (Z.of_nat (length buffer)) kEncodedLength) as [Hlen|Hlen];
    [|discriminate]. cbn [negb].
  destruct (decode_from buffer) as [footer_|] eqn:Hd; [|discriminate].
  destruct (read_block read_exactly file_ (index_handle footer_)) as [data|] eqn:Hr;
    [|discriminate].
  destruct (find_and_create (index_handle footer_) data (_block_cache _ _ c))
    as [index_block bc] eqn:Hf.
  destruct (read_meta _ (metaindex_handle footer_)) as [filter|]; [|discriminate].
  intros H0. injection H0 as <- <-. cbn.
  split; [exact Hge|]. split; [reflexivity|]. split; [reflexivity|].
  split; [reflexivity|].
  exists buffer, footer_, data. repeat split; try assumption.
  symmetry. exact Hf.
Qed.

(** X24: Whenever [open_sstable] returns a table, the file could be opened,
    and either the table is the one that the table cache holds for the
    path, and no cache has changed; or the cache had none, the file is
    at least a footer long, the footer read from its end decodes, and
    the table returned is over that file, holds the index block that
    the block cache gave for the footer's index handle, and is the
    table that has been inserted into the table cache. *)
Theorem open_sstable_ready fs fname opts c t c' :
  open_sstable fs fname opts c = (ready t, c') ->
  exists file_,
    fs fname = Some file_ /\
    ((cache_find fname (_table_cache _ _ c) = Some t /\ c' = c) \/
     (cache_find fname (_table_cache _ _ c) = None /\
      kEncodedLength <= Z.of_nat (length file_) /\
      _file_reader _ t = file_ /\ _options _ t = opts /\
      _table_cache _ _ c' = cache_insert t (_table_cache _ _ c) /\
      exists buffer footer_ data,
        read_exactly file_ (Z.of_nat (length file_) - kEncodedLength) kEncodedLength
          = Some buffer /\
        Z.of_nat (length buffer) = kEncodedLength /\
        decode_from buffer = Some footer_ /\
        read_block read_exactly file_ (index_handle footer_) = Some data /\
        (_index_block _ t, _block_cache _ _ c')
        = find_and_create (index_handle footer_) data (_block_cache _ _ c))).
Proof.
  unfold open_sstable, Open.open_sstable.
  destruct (fs fname) as [file_|]; [|discriminate].
  intros H0. exists file_. split; [reflexivity|].
  destruct (cache_find fname (_table_cache _ _ c)) as [cached|].
  - injection H0 as <- <-. left. split; reflexivity.
  - right. split; [reflexivity|]. fold open_sized in H0.
    destruct (open_sized file_ opts c) as [[t0|] c0] eqn:Ho; [|discriminate].
    injection H0 as <- <-. exact (open_sized_ready file_ opts c t0 c0 Ho).
Qed.

End open_sstable.

(** The file of [footer_length] zero bytes opens, and the table is then
    in the slot of the table cache; a second open returns that table. *)
Lemma open_sstable_ready_witness :
  exists t c',
    slot_open whole_fs "whole.sst" tt slot_caches = (ready t, c') /\
    _file_reader _ t = whole_file /\ _table_cache _ _ c' = Some t /\
    slot_open whole_fs "whole.sst" tt c' = (ready t, c').
Proof.
  eexists. eexists. split; [vm_compute; reflexivity|].
  match goal with |- _file_reader _ ?tab = _ /\ _table_cache _ _ ?cc = _ /\ _ =>
    destruct (open_sstable_ready footer_length unit (fun _ => Some tt)
                (fun _ => (0, 0)) (fun _ => (0, 0)) unit (option (rep unit)) unit
                (fun _ c => c) (fun t _ => Some t)
                (fun _ d bc => (mk_block d, bc))
                (fun f off n => Some (slice f off n))
                (fun _ _ => Some None)
                whole_fs "whole.sst" tt slot_caches tab cc)
      as (file_ & Hf & [[Hc _]|(_ & _ & Hr & _ & Hi & _)])
  end.
  - vm_compute. reflexivity.
  - discriminate Hc.
  - split; [vm_compute; reflexivity|]. split; [exact Hi|]. vm_compute. reflexivity.
Defined.

End OpenMore.
